(** * satpy/writers/cf_writer.py: a shallow embedding and its properties

    The Python module prepares xarray DataArrays for a CF-conformant netCDF
    file.  The embedding follows the module function by function:

    - Python values held in attribute dictionaries are the inductive [value];
    - a Python [dict] is an association list in insertion order;
    - the attribute and encoding dictionaries of every xarray variable are
      mutable objects: they live in a store ([heap]) and are named by their
      address, so that two arrays sharing a dictionary are visibly aliased;
    - exceptions, [warnings.warn] and [logger.warning] are effects of the
      monad [M]; the netCDF files that get written are the state of [IO],
      the monad of [save_datasets]. *)

From Stdlib Require Import ZArith List String Ascii Bool Lia Arith.
From Stdlib Require Import Decimal DecimalString DecimalZ Sorted.
Import ListNotations.
Open Scope string_scope.
Open Scope list_scope.

Set Implicit Arguments.

(** [length] is the length of a list; that of a string is [String.length]. *)
Abbreviation length := List.length (only parsing).
Set Warnings "-register-all".

(** ** Python preliminaries *)

(** The exception classes the module raises or lets through. *)
Inductive exn : Type :=
| KeyError | ValueError | TypeError | AttributeError | IndexError
| RuntimeError | ImportError | RecursionError.

Inductive Res (A : Type) : Type :=
| Returns (a : A)
| Raises (e : exn).
Arguments Returns {A} a.
Arguments Raises {A} e.

(** The double quote character, for messages and JSON text. *)
Definition dquote : ascii := ascii_of_nat 34.
Definition str1 (c : ascii) : string := String c EmptyString.

(** [sep.join(parts)] *)
Fixpoint str_join (sep : string) (parts : list string) : string :=
  match parts with
  | [] => EmptyString
  | [p] => p
  | p :: rest => p ++ sep ++ str_join sep rest
  end.

(** [c.isdigit()] on the code points the model has (0 to 255): the ASCII
    digits and the superscripts one, two and three. *)
Definition isdigit (c : ascii) : bool :=
  let n := nat_of_ascii c in
  (((48 <=? n)%nat && (n <=? 57)%nat)
   || Nat.eqb n 178 || Nat.eqb n 179 || Nat.eqb n 185)%bool.

(** [s.startswith(p)] *)
Definition startswith (p s : string) : bool := String.prefix p s.

(** Python dictionaries: association lists in insertion order.  Assigning to
    a key that is present keeps its position; a new key goes last. *)
Section Dict.
Variables (K V : Type) (eqb : K -> K -> bool).

Definition dict : Type := list (K * V).

Fixpoint dict_get (d : dict) (k : K) : option V :=
  match d with
  | [] => None
  | (k', v) :: d' => if eqb k k' then Some v else dict_get d' k
  end.

Definition dict_mem (d : dict) (k : K) : bool :=
  match dict_get d k with Some _ => true | None => false end.

Fixpoint dict_set (d : dict) (k : K) (v : V) : dict :=
  match d with
  | [] => [(k, v)]
  | (k', v') :: d' =>
      if eqb k k' then (k', v) :: d' else (k', v') :: dict_set d' k v
  end.

(** [d.pop(k, None)] as far as the dictionary goes. *)
Fixpoint dict_pop (d : dict) (k : K) : dict :=
  match d with
  | [] => []
  | (k', v') :: d' => if eqb k k' then d' else (k', v') :: dict_pop d' k
  end.

(** [d.update(e)] and [dict(items)]. *)
Definition dict_update (d e : dict) : dict :=
  fold_left (fun acc kv => dict_set acc (fst kv) (snd kv)) e d.

Definition dict_of_items (items : list (K * V)) : dict :=
  dict_update [] items.

Definition dict_keys (d : dict) : list K := map fst d.
Definition dict_values (d : dict) : list V := map snd d.
End Dict.

(** Variable names: [DataArray.name] is a string or [None]. *)
Definition name := option string.

Definition name_eqb (a b : name) : bool :=
  match a, b with
  | Some x, Some y => String.eqb x y
  | None, None => true
  | _, _ => false
  end.

(** ['{}'.format(n)] *)
Definition name_str (n : name) : string :=
  match n with Some s => s | None => "None" end.

(** ** numpy and pyresample objects *)

Inductive dtype : Type :=
| int8 | uint8 | int16 | uint16 | int32 | uint32 | int64 | uint64
| float32 | float64 | string_ | bool_ | datetime64 | object_.

Definition dtype_eqb (a b : dtype) : bool :=
  match a, b with
  | int8, int8 | uint8, uint8 | int16, int16 | uint16, uint16
  | int32, int32 | uint32, uint32 | int64, int64 | uint64, uint64
  | float32, float32 | float64, float64 | string_, string_
  | bool_, bool_ | datetime64, datetime64 | object_, object_ => true
  | _, _ => false
  end.

Definition NC4_DTYPES : list dtype :=
  [int8; uint8; int16; uint16; int32; uint32; int64; uint64;
   float32; float64; string_].

Definition CF_DTYPES : list dtype :=
  [int8; int16; int32; float32; float64; string_].

Definition CF_VERSION : string := "CF-1.7".
Definition EPOCH : string := "seconds since 1970-01-01 00:00:00".

Definition dtype_in (t : dtype) (l : list dtype) : bool :=
  existsb (dtype_eqb t) l.

(** A coordinate reference system as far as the writer looks at it:
    [crs.is_projected] and the mapping [crs.to_cf()]. *)
Record CRS : Type := mk_CRS {
  is_projected : bool;
  to_cf : list (string * string)
}.

(** The payload of an array: element type, shape and the elements in row
    order.  An element is an integer; for floating-point arrays it stands for
    the bit pattern, which this module only copies and fingerprints.  An
    object array of one element may hold a CRS instead ([nd_crs]), as the
    [crs] coordinate does. *)
Record ndarray : Type := mk_ndarray {
  nd_dtype : dtype;
  nd_shape : list nat;
  nd_elems : list Z;
  nd_crs : option CRS
}.

Definition nd_size (a : ndarray) : nat := fold_right Nat.mul 1 (nd_shape a).

(** [np.arange(n)]: what xarray hands out for a dimension with no
    coordinate. *)
Definition arange (n : nat) : ndarray :=
  mk_ndarray int64 [n] (map Z.of_nat (seq 0 n)) None.

(** pyresample geometry: a swath carries longitudes and latitudes per pixel,
    an area definition an identifier and a CRS; [get_lonlats] returns the
    pair of arrays of either. *)
Inductive Area : Type :=
| SwathDefinition (lons lats : ndarray)
| AreaDefinition (area_id : string) (crs : CRS) (lons lats : ndarray).

Definition get_lonlats (a : Area) : ndarray * ndarray :=
  match a with
  | SwathDefinition lons lats => (lons, lats)
  | AreaDefinition _ _ lons lats => (lons, lats)
  end.

(** ** xarray objects *)

Definition loc := nat.

(** [xarray.Variable]: dimensions, data, and the addresses of its [attrs]
    and [encoding] dictionaries. *)
Record Var : Type := mk_Var {
  v_dims : list string;
  v_data : ndarray;
  v_attrs : loc;
  v_encoding : loc
}.

(** [xarray.DataArray]: a name, the variable and the coordinate variables. *)
Record DataArray : Type := mk_DataArray {
  da_name : name;
  da_var : Var;
  da_coords : list (string * Var)
}.

Definition da_dims (d : DataArray) : list string := v_dims (da_var d).
Definition da_shape (d : DataArray) : list nat := nd_shape (v_data (da_var d)).
Definition da_attrs (d : DataArray) : loc := v_attrs (da_var d).
Definition da_encoding (d : DataArray) : loc := v_encoding (da_var d).

(** ** Attribute values *)

(** What an attribute dictionary may hold.  [VFloat] and [VNpFloat] carry the
    bit pattern of the number.  [VNdarray t items] is a numpy array seen
    through iteration: [items] are its scalars (one dimension) or its
    sub-arrays; [VNpVoid] is one record of a structured array.  [VObj r] is
    any other object, [r] being what [str] prints for it. *)
Inductive value : Type :=
| VNone
| VBool (b : bool)
| VInt (z : Z)
| VFloat (f : Z)
| VStr (s : string)
| VBytes (s : string)
| VList (l : list value)
| VTuple (l : list value)
| VDict (d : list (string * value))
| VNpBool (b : bool)
| VNpInt (z : Z)
| VNpFloat (f : Z)
| VNpVoid (fields : list value)
| VNdarray (t : dtype) (structured : bool) (items : list value)
| VDatetime (t : Z)
| VArea (a : Area)
| VDataArray (d : DataArray)
| VObj (repr : string).

Definition attrs_t : Type := dict string value.

Definition aget (d : attrs_t) (k : string) : option value := dict_get String.eqb d k.
Definition amem (d : attrs_t) (k : string) : bool := dict_mem String.eqb d k.
Definition aset (d : attrs_t) (k : string) (v : value) : attrs_t := dict_set String.eqb d k v.
Definition apop (d : attrs_t) (k : string) : attrs_t := dict_pop String.eqb d k.

(** Truth value of an object, as [if obj:] tests it. *)
Definition truthy (v : value) : bool :=
  match v with
  | VNone => false
  | VBool b | VNpBool b => b
  | VInt z | VNpInt z => negb (Z.eqb z 0)
  | VStr s | VBytes s => negb (String.eqb s EmptyString)
  | VList l | VTuple l => negb (Nat.eqb (length l) 0)
  | VDict d => negb (Nat.eqb (length d) 0)
  | _ => true
  end.

(** ** The store and the effects *)

(** [xarray.Dataset]: the data variables by name and the global attributes. *)
Record Dataset : Type := mk_Dataset {
  ds_vars : dict name DataArray;
  ds_attrs : attrs_t
}.

(** One call of [Dataset.to_netcdf]. *)
Record write_event : Type := mk_write {
  w_filename : string;
  w_group : name;
  w_mode : string;
  w_dataset : Dataset;
  w_encoding : attrs_t
}.

(** The state of the interpreter the module runs in: the store of attribute
    and encoding dictionaries ([heap], of which the addresses below [next]
    are in use), the warnings issued with [warnings.warn] and the lines
    logged with [logger.warning]. *)
Record World : Type := mk_World {
  heap : loc -> list (string * value);
  next : loc;
  warns : list string;
  logged : list string
}.

Definition M (A : Type) : Type := World -> Res A * World.

Definition ret {A} (a : A) : M A := fun w => (Returns a, w).
Definition raise {A} (e : exn) : M A := fun w => (Raises e, w).
Definition bind {A B} (m : M A) (k : A -> M B) : M B :=
  fun w => match m w with
           | (Returns a, w') => k a w'
           | (Raises e, w') => (Raises e, w')
           end.

Declare Scope py_scope.
Delimit Scope py_scope with py.
Notation "x <- m ;; k" := (bind m (fun x => k))
  (at level 61, m at next level, right associativity) : py_scope.
Notation "' pat <- m ;; k" := (bind m (fun x => match x with pat => k end))
  (at level 61, pat pattern, m at next level, right associativity) : py_scope.
Notation "m ;;; k" := (bind m (fun _ => k))
  (at level 61, right associativity) : py_scope.
Open Scope py_scope.

(** [try: m except e: h], [h] saying which exceptions it handles. *)
Definition try_except {A} (m : M A) (h : exn -> option (M A)) : M A :=
  fun w => match m w with
           | (Returns a, w') => (Returns a, w')
           | (Raises e, w') =>
               match h e with
               | Some k => k w'
               | None => (Raises e, w')
               end
           end.

Definition lift {A} (r : Res A) : M A := fun w => (r, w).

Definition of_option {A} (o : option A) (e : exn) : M A :=
  match o with Some a => ret a | None => raise e end.

Definition upd (h : loc -> list (string * value)) (l : loc)
    (d : list (string * value)) : loc -> list (string * value) :=
  fun l' => if Nat.eqb l' l then d else h l'.

(** The dictionary at an address: a cell holds the items, and the
    dictionary they make has every key once. *)
Definition cell (h : loc -> list (string * value)) (l : loc) : attrs_t :=
  dict_of_items String.eqb (h l).

(** Reading and writing a dictionary of the store, and making a new one. *)
Definition read (l : loc) : M attrs_t :=
  fun w => (Returns (cell (heap w) l), w).

Definition store (l : loc) (d : attrs_t) : M unit :=
  fun w => (Returns tt,
            mk_World (upd (heap w) l d) (next w) (warns w) (logged w)).

Definition alloc (d : attrs_t) : M loc :=
  fun w => (Returns (next w),
            mk_World (upd (heap w) (next w) d) (S (next w)) (warns w) (logged w)).

Definition get_heap : M (loc -> list (string * value)) :=
  fun w => (Returns (heap w), w).

(** [warnings.warn(msg)] and [logger.warning(msg)]. *)
Definition warn (msg : string) : M unit :=
  fun w => (Returns tt,
            mk_World (heap w) (next w) (warns w ++ [msg]) (logged w)).

Definition logger_warning (msg : string) : M unit :=
  fun w => (Returns tt,
            mk_World (heap w) (next w) (warns w) (logged w ++ [msg])).

(** [d[k] = v], [d.pop(k, None)] and [k in d] on a dictionary of the store. *)
Definition attrs_set (l : loc) (k : string) (v : value) : M unit :=
  d <- read l ;; store l (aset d k v).

Definition attrs_pop (l : loc) (k : string) : M unit :=
  d <- read l ;; store l (apop d k).

Definition attrs_get (l : loc) (k : string) : M (option value) :=
  d <- read l ;; ret (aget d k).

Definition attrs_mem (l : loc) (k : string) : M bool :=
  d <- read l ;; ret (amem d k).

(** [for x in xs: body x] *)
Fixpoint for_each {A} (xs : list A) (body : A -> M unit) : M unit :=
  match xs with
  | [] => ret tt
  | x :: xs' => body x ;;; for_each xs' body
  end.

(** A loop that carries a local variable. *)
Fixpoint for_fold {A S} (xs : list A) (s : S) (body : S -> A -> M S) : M S :=
  match xs with
  | [] => ret s
  | x :: xs' => s' <- body s x ;; for_fold xs' s' body
  end.

(** ** xarray operations

    What the module calls on [DataArray] objects, each as xarray documents
    it.  Two simplifications: dask chunking is left out (it changes when data
    are computed, not what they are), and assigning a coordinate does not
    merge the coordinates of the assigned array into the target. *)

Definition str_in (k : string) (l : list string) : bool :=
  existsb (String.eqb k) l.

Definition coords_get (d : DataArray) (k : string) : option Var :=
  dict_get String.eqb (da_coords d) k.

(** [k in d.coords] and [k in d.dims] *)
Definition in_coords (k : string) (d : DataArray) : bool :=
  dict_mem String.eqb (da_coords d) k.

Definition in_dims (k : string) (d : DataArray) : bool :=
  str_in k (da_dims d).

Definition var_sizes (v : Var) : dict string nat :=
  combine (v_dims v) (nd_shape (v_data v)).

(** [d[k].data]: the coordinate of that name, or the default index of the
    dimension of that name. *)
Definition item_data (d : DataArray) (k : string) : option ndarray :=
  match coords_get d k with
  | Some v => Some (v_data v)
  | None =>
      match dict_get String.eqb (var_sizes (da_var d)) k with
      | Some n => Some (arange n)
      | None => None
      end
  end.

(** [Variable.copy()]: the attribute and encoding dictionaries of the copy
    are new dictionaries with the same items. *)
Definition copy_var (v : Var) : M Var :=
  a <- read (v_attrs v) ;;
  la <- alloc a ;;
  e <- read (v_encoding v) ;;
  le <- alloc e ;;
  ret (mk_Var (v_dims v) (v_data v) la le).

Fixpoint copy_coords (cs : list (string * Var)) : M (list (string * Var)) :=
  match cs with
  | [] => ret []
  | (k, v) :: cs' =>
      v' <- copy_var v ;;
      cs'' <- copy_coords cs' ;;
      ret ((k, v') :: cs'')
  end.

(** [DataArray.copy()] *)
Definition da_copy (d : DataArray) : M DataArray :=
  v <- copy_var (da_var d) ;;
  cs <- copy_coords (da_coords d) ;;
  ret (mk_DataArray (da_name d) v cs).

(** [xr.DataArray(data, dims=dims, attrs=attrs, name=name)] *)
Definition new_DataArray (data : ndarray) (dims : list string)
    (attrs : attrs_t) (n : name) : M DataArray :=
  la <- alloc attrs ;;
  le <- alloc [] ;;
  ret (mk_DataArray n (mk_Var dims data la le) []).

(** The dimensions of [v] exist in [d] with the same lengths. *)
Definition fits (v : Var) (d : DataArray) : bool :=
  forallb (fun ks =>
             match dict_get String.eqb (var_sizes (da_var d)) (fst ks) with
             | Some n => Nat.eqb n (snd ks)
             | None => false
             end)
          (var_sizes v).

(** [d[key] = value]: a coordinate cannot bring new dimensions nor disagree
    on the length of one. *)
Definition da_setitem (d : DataArray) (key : string) (value : DataArray)
  : M DataArray :=
  if fits (da_var value) d
  then ret (mk_DataArray (da_name d) (da_var d)
              (dict_set String.eqb (da_coords d) key (da_var value)))
  else raise ValueError.

(** [d.rename(new_name)] *)
Definition da_rename (d : DataArray) (n : name) : DataArray :=
  mk_DataArray n (da_var d) (da_coords d).

Definition rename_in (old new : string) (dims : list string) : list string :=
  map (fun k => if String.eqb k old then new else k) dims.

Definition rename_var_dims (old new : string) (v : Var) : Var :=
  mk_Var (rename_in old new (v_dims v)) (v_data v) (v_attrs v) (v_encoding v).

(** [d.rename({old: new})]: the coordinate and, if there is one, the
    dimension of that name are renamed; a name that is taken or an [old] that
    is neither coordinate nor dimension is a [ValueError]. *)
Definition da_rename_coord (d : DataArray) (old new : string) : Res DataArray :=
  if negb (in_coords old d || in_dims old d) then Raises ValueError
  else if String.eqb old new then Returns d
  else if in_coords new d || in_dims new d then Raises ValueError
  else Returns
    (mk_DataArray (da_name d)
       (rename_var_dims old new (da_var d))
       (map (fun kv => (if String.eqb (fst kv) old then new else fst kv,
                        rename_var_dims old new (snd kv)))
            (da_coords d))).

(** Removing dimensions of length one from (dims, shape). *)
Fixpoint squeeze_dims (dims : list string) (shape : list nat)
    (drop : list string) : Res (list string * list nat) :=
  match dims, shape with
  | k :: dims', n :: shape' =>
      if str_in k drop then
        if Nat.eqb n 1 then squeeze_dims dims' shape' drop
        else Raises ValueError
      else
        match squeeze_dims dims' shape' drop with
        | Returns (ks, ns) => Returns (k :: ks, n :: ns)
        | Raises e => Raises e
        end
  | _, _ => Returns ([], [])
  end.

Definition with_shape (a : ndarray) (shape : list nat) : ndarray :=
  mk_ndarray (nd_dtype a) shape (nd_elems a) (nd_crs a).

(** [d.squeeze(drop, drop=True)]: a new array without the dimensions [drop],
    each of which must have length one, and without their coordinates. *)
Definition da_squeeze (d : DataArray) (drop : list string) : M DataArray :=
  match squeeze_dims (da_dims d) (da_shape d) drop with
  | Raises e => raise e
  | Returns (ks, ns) =>
      v <- copy_var (da_var d) ;;
      cs <- copy_coords
              (filter (fun kv => negb (str_in (fst kv) drop)) (da_coords d)) ;;
      ret (mk_DataArray (da_name d)
             (mk_Var ks (with_shape (v_data v) ns) (v_attrs v) (v_encoding v))
             cs)
  end.

(** [d.expand_dims(k)]: a new first dimension of length one; a coordinate of
    that name must be a scalar and becomes the index of the dimension. *)
Definition da_expand_dims (d : DataArray) (k : string) : Res DataArray :=
  if in_dims k d then Raises ValueError
  else
    match coords_get d k with
    | Some c =>
        match v_dims c with
        | [] =>
            Returns
              (mk_DataArray (da_name d)
                 (mk_Var (k :: da_dims d)
                    (with_shape (v_data (da_var d)) (1 :: da_shape d))
                    (da_attrs d) (da_encoding d))
                 (dict_set String.eqb (da_coords d) k
                    (mk_Var [k] (with_shape (v_data c) [1])
                       (v_attrs c) (v_encoding c))))
        | _ :: _ => Raises ValueError
        end
    | None =>
        Returns
          (mk_DataArray (da_name d)
             (mk_Var (k :: da_dims d)
                (with_shape (v_data (da_var d)) (1 :: da_shape d))
                (da_attrs d) (da_encoding d))
             (da_coords d))
    end.

(** [d.drop_vars(k)] for a coordinate that is there. *)
Definition da_drop_vars (d : DataArray) (k : string) : DataArray :=
  mk_DataArray (da_name d) (da_var d) (dict_pop String.eqb (da_coords d) k).

(** [s.split(c)] for a separator of one character. *)
Fixpoint split_on (c : ascii) (s : string) : list string :=
  match s with
  | EmptyString => [EmptyString]
  | String a s' =>
      if Ascii.eqb a c then EmptyString :: split_on c s'
      else match split_on c s' with
           | [] => [String a EmptyString]
           | w :: ws => String a w :: ws
           end
  end.

(** A set of strings, as the list of its elements in order of arrival. *)
Definition set_add (t : string) (s : list string) : list string :=
  if str_in t s then s else s ++ [t].

Definition name_in (n : name) (l : list name) : bool :=
  existsb (name_eqb n) l.

Definition dget (datas : dict name DataArray) (n : name) : option DataArray :=
  dict_get name_eqb datas n.

Definition dset (datas : dict name DataArray) (n : name) (d : DataArray)
  : dict name DataArray :=
  dict_set name_eqb datas n d.

(** ** The module *)

Section CFWriter.

(** What the module takes from its environment: the content fingerprint of
    dask ([tokenize]), what [str] prints for an object, and whether the
    installed pyproj is older than 2.4.1. *)
Variable tokenize : ndarray -> string.
Variable py_str : value -> string.
Variable pyproj_too_old : bool.

(** ['{}'.format(v)] *)
Definition format_value (v : value) : string :=
  match v with
  | VStr s => s
  | _ => py_str v
  end.

(** Iterating over an attribute value. *)
Definition iter_value (v : value) : M (list value) :=
  match v with
  | VList l | VTuple l => ret l
  | VNdarray _ _ l => ret l
  | VNpVoid l => ret l
  | VStr s => ret (map (fun c => VStr (str1 c)) (list_ascii_of_string s))
  | VDict d => ret (map (fun kv => VStr (fst kv)) d)
  | _ => raise TypeError
  end.

Definition create_grid_mapping (area : Area) : M (string * list (string * string)) :=
  if pyproj_too_old then raise ImportError
  else
    match area with
    | AreaDefinition area_id crs _ _ => ret (area_id, to_cf crs)
    | SwathDefinition _ _ => raise AttributeError
    end.

(** [get_extra_ds(dataset, keys)].  [keys] is [None] or a list that the
    calls share and append to: it is passed in and handed back.  [fuel] is
    the depth of recursion the interpreter allows. *)
Fixpoint get_extra_ds (fuel : nat) (dataset : DataArray)
    (keys : option (list name))
  : M (dict string DataArray * option (list name)) :=
  match fuel with
  | O => raise RecursionError
  | S fuel' =>
      attrs <- read (da_attrs dataset) ;;
      ancillary <- iter_value
                     (match aget attrs "ancillary_variables" with
                      | Some v => v
                      | None => VList []
                      end) ;;
      ck <- for_fold ancillary ([], keys)
              (fun ck ds =>
                 let ds_collection := fst ck in
                 match snd ck with
                 | Some (k :: ks) =>
                     match ds with
                     | VDataArray a =>
                         if negb (name_in (da_name a) (k :: ks)) then
                           sub <- get_extra_ds fuel' a
                                    (Some ((k :: ks) ++ [da_name a])) ;;
                           ret (dict_update String.eqb ds_collection (fst sub),
                                snd sub)
                         else ret ck
                     | _ => raise AttributeError
                     end
                 | _ => ret ck
                 end) ;;
      attrs <- read (da_attrs dataset) ;;
      nm <- of_option (aget attrs "name") KeyError ;;
      match nm with
      | VStr s => ret (dict_set String.eqb (fst ck) s dataset, snd ck)
      | _ => raise TypeError
      end
  end.

Definition lonlat_attrs (nm units : string) : attrs_t :=
  [("name", VStr nm); ("standard_name", VStr nm); ("units", VStr units)].

Definition area2lonlat (dataarray : DataArray) : M DataArray :=
  dataarray <- da_copy dataarray ;;
  attrs <- read (da_attrs dataarray) ;;
  area <- of_option (aget attrs "area") KeyError ;;
  match area with
  | VArea a =>
      let lons := fst (get_lonlats a) in
      let lats := snd (get_lonlats a) in
      lon <- new_DataArray lons ["y"; "x"]
               (lonlat_attrs "longitude" "degrees_east") (Some "longitude") ;;
      dataarray <- da_setitem dataarray "longitude" lon ;;
      lat <- new_DataArray lats ["y"; "x"]
               (lonlat_attrs "latitude" "degrees_north") (Some "latitude") ;;
      dataarray <- da_setitem dataarray "latitude" lat ;;
      ret dataarray
  | _ => raise AttributeError
  end.

Definition scalar_zero : ndarray := mk_ndarray int64 [] [0%Z] None.

Definition area2gridmapping (dataarray : DataArray)
  : M (DataArray * DataArray) :=
  dataarray <- da_copy dataarray ;;
  attrs <- read (da_attrs dataarray) ;;
  area <- of_option (aget attrs "area") KeyError ;;
  match area with
  | VArea a =>
      gm <- create_grid_mapping a ;;
      attrs_set (da_attrs dataarray) "grid_mapping" (VStr (fst gm)) ;;;
      gmapping <- new_DataArray scalar_zero []
                    (map (fun kv => (fst kv, VStr (snd kv))) (snd gm))
                    (Some (fst gm)) ;;
      ret (dataarray, gmapping)
  | _ => raise AttributeError
  end.

Definition is_SwathDefinition (v : value) : bool :=
  match v with VArea (SwathDefinition _ _) => true | _ => false end.

Definition is_AreaDefinition (v : value) : bool :=
  match v with VArea (AreaDefinition _ _ _ _) => true | _ => false end.

Definition area2cf (dataarray : DataArray) (strict got_lonlats : bool)
  : M (list DataArray) :=
  dataarray <-
    (if negb got_lonlats then
       attrs <- read (da_attrs dataarray) ;;
       area <- of_option (aget attrs "area") KeyError ;;
       if is_SwathDefinition area || strict then area2lonlat dataarray
       else ret dataarray
     else ret dataarray) ;;
  attrs <- read (da_attrs dataarray) ;;
  area <- of_option (aget attrs "area") KeyError ;;
  if is_AreaDefinition area then
    dg <- area2gridmapping dataarray ;;
    ret [snd dg; fst dg]
  else ret [dataarray].

(** [a < b] between attribute values: defined between two datetimes, two
    integers or two strings, a [TypeError] otherwise. *)
Definition py_lt (a b : value) : Res bool :=
  match a, b with
  | VDatetime x, VDatetime y => Returns (Z.ltb x y)
  | VInt x, VInt y => Returns (Z.ltb x y)
  | VStr x, VStr y => Returns (String.ltb x y)
  | _, _ => Raises TypeError
  end.

(** [min(xs)]: the first least element; of nothing, a [ValueError]. *)
Fixpoint min_from (best : value) (xs : list value) : Res value :=
  match xs with
  | [] => Returns best
  | x :: xs' =>
      match py_lt x best with
      | Returns true => min_from x xs'
      | Returns false => min_from best xs'
      | Raises e => Raises e
      end
  end.

Definition py_min (xs : list value) : Res value :=
  match xs with
  | [] => Raises ValueError
  | x :: xs' => min_from x xs'
  end.

Definition is_not_None (v : value) : bool :=
  match v with VNone => false | _ => true end.

(** [np.datetime64(v)] of a datetime. *)
Definition np_datetime64 (v : value) : Res Z :=
  match v with
  | VDatetime t => Returns t
  | _ => Raises ValueError
  end.

Definition make_time_bounds (start_times end_times : list value)
  : M DataArray :=
  start_time <- lift (py_min (filter is_not_None start_times)) ;;
  end_time <- lift (py_min (filter is_not_None end_times)) ;;
  s <- lift (np_datetime64 start_time) ;;
  e <- lift (np_datetime64 end_time) ;;
  new_DataArray (mk_ndarray datetime64 [1; 2] [s; e] None)
    ["time"; "bnds_1d"] [] None.

(** The fingerprints of the coordinate [k] over the arrays that have the
    dimension [k]. *)
Definition axis_tokens (k : string) (datasets : list DataArray) : list string :=
  fold_left
    (fun unique dataset =>
       if in_dims k dataset then
         match item_data dataset k with
         | Some a => set_add (tokenize a) unique
         | None => unique
         end
       else unique)
    datasets [].

Definition assert_xy_unique (datas : dict name DataArray) : Res unit :=
  let unique_x := axis_tokens "x" (dict_values datas) in
  let unique_y := axis_tokens "y" (dict_values datas) in
  if (1 <? length unique_x)%nat || (1 <? length unique_y)%nat
  then Raises ValueError
  else Returns tt.

Definition not_exist_msg (coord : value) (da_name : name) : string :=
  ("Coordinate " ++ str1 dquote ++ format_value coord ++ str1 dquote
   ++ " referenced by dataarray " ++ name_str da_name
   ++ " does not exist, dropping reference.")%string.

(** The names declared by a [coordinates] attribute. *)
Definition declared_coordinates (attrs : attrs_t) : M (list value) :=
  match aget attrs "coordinates" with
  | None => ret []
  | Some (VStr s) => ret (map VStr (split_on " "%char s))
  | Some v => iter_value v
  end.

(** One turn of the inner loop of [link_coords]: the array named [da_name]
    of [datas] is given the coordinate [coord].  [datas] is looked up on
    every turn, as the objects it holds change under the loop. *)
Definition link_coord (da_name : name) (datas : dict name DataArray)
    (coord : value) : M (dict name DataArray) :=
  data <- of_option (dget datas da_name) KeyError ;;
  match coord with
  | VStr c =>
      if negb (in_coords c data) then
        try_except
          (sibling <- of_option (dget datas (Some c)) KeyError ;;
           let dimensions_not_in_data :=
             filter (fun k => negb (in_dims k data)) (da_dims sibling) in
           squeezed <- da_squeeze sibling dimensions_not_in_data ;;
           data' <- da_setitem data c squeezed ;;
           ret (dset datas da_name data'))
          (fun e => match e with
                    | KeyError =>
                        Some (warn (not_exist_msg coord da_name) ;;; ret datas)
                    | _ => None
                    end)
      else ret datas
  | VList _ | VDict _ | VNdarray _ _ _ | VDataArray _ => raise TypeError
  | _ => warn (not_exist_msg coord da_name) ;;; ret datas
  end.

(** One turn of the outer loop of [link_coords]. *)
Definition link_one (datas : dict name DataArray) (da_name : name)
  : M (dict name DataArray) :=
  data <- of_option (dget datas da_name) KeyError ;;
  attrs <- read (da_attrs data) ;;
  declared <- declared_coordinates attrs ;;
  datas <- for_fold declared datas (link_coord da_name) ;;
  data <- of_option (dget datas da_name) KeyError ;;
  attrs_pop (da_attrs data) "coordinates" ;;;
  ret datas.

Definition link_coords (datas : dict name DataArray)
  : M (dict name DataArray) :=
  for_fold (dict_keys datas) datas link_one.

Definition is_lonlat (attrs : attrs_t) : bool :=
  match aget attrs "standard_name" with
  | Some (VStr s) => String.eqb s "longitude" || String.eqb s "latitude"
  | _ => false
  end.

(** [dataset_is_projection_coords(dataset)], [dataset] given by the address
    of its attributes. *)
Definition dataset_is_projection_coords (h : loc -> list (string * value))
    (attrs : loc) : bool :=
  is_lonlat (cell h attrs).

Definition has_projection_coords (h : loc -> list (string * value))
    (ds_collection : dict string DataArray) : bool :=
  existsb (fun dataset => dataset_is_projection_coords h (da_attrs dataset))
          (dict_values ds_collection).

(** The fingerprints of the alternative coordinates, by coordinate name:
    the [tokens] of [make_alt_coords_unique]. *)
Definition add_token (tokens : dict string (list string)) (coord_name t : string)
  : dict string (list string) :=
  match dict_get String.eqb tokens coord_name with
  | Some s => dict_set String.eqb tokens coord_name (set_add t s)
  | None => dict_set String.eqb tokens coord_name [t]
  end.

Definition alt_tokens (h : loc -> list (string * value))
    (datas : dict name DataArray)
  : dict string (list string) :=
  fold_left
    (fun tokens dataset =>
       fold_left
         (fun tokens cv =>
            if negb (dataset_is_projection_coords h (v_attrs (snd cv)))
               && negb (in_dims (fst cv) dataset)
            then add_token tokens (fst cv) (tokenize (v_data (snd cv)))
            else tokens)
         (da_coords dataset) tokens)
    (dict_values datas) [].

Definition not_unique_msg (coord_name : string) : string :=
  ("Cannot pretty-format " ++ str1 dquote ++ coord_name ++ str1 dquote
   ++ " coordinates because they are not unique among the given datasets")%string.

(** The body of the inner loop of [make_alt_coords_unique]: the coordinate
    [coord_name] of one array gets the name of the array in front. *)
Definition prepend_name (coord_name : string) (new_datas : dict name DataArray)
    (nd : name * DataArray) : M (dict name DataArray) :=
  let ds_name := fst nd in
  let dataset := snd nd in
  if in_coords coord_name dataset then
    cur <- of_option (dget new_datas ds_name) KeyError ;;
    renamed <- lift (da_rename_coord cur coord_name
                       (name_str ds_name ++ "_" ++ coord_name)) ;;
    ret (dset new_datas ds_name renamed)
  else ret new_datas.

(** The body of the outer loop. *)
Definition prepend_names (datas : dict name DataArray) (pretty : bool)
    (new_datas : dict name DataArray) (cu : string * bool)
  : M (dict name DataArray) :=
  let coord_name := fst cu in
  let unique := snd cu in
  if negb pretty || negb unique then
    (if pretty then warn (not_unique_msg coord_name) else ret tt) ;;;
    for_fold datas new_datas (prepend_name coord_name)
  else ret new_datas.

Definition make_alt_coords_unique (datas : dict name DataArray) (pretty : bool)
  : M (dict name DataArray) :=
  h <- get_heap ;;
  let tokens := alt_tokens h datas in
  let coords_unique :=
    map (fun ct => (fst ct, Nat.eqb (length (snd ct)) 1)) tokens in
  for_fold coords_unique datas (prepend_names datas pretty).

(** *** The attribute encoder *)

(** [json_float f] is the JSON text of the float with bit pattern [f]. *)
Variable json_float : Z -> string.

Definition bool_str (b : bool) : string := if b then "True" else "False".

Definition lower_char (c : ascii) : ascii :=
  let n := nat_of_ascii c in
  if ((65 <=? n)%nat && (n <=? 90)%nat)%bool then ascii_of_nat (n + 32) else c.

Fixpoint lower (s : string) : string :=
  match s with
  | EmptyString => EmptyString
  | String c s' => String (lower_char c) (lower s')
  end.

(** [str(item)] of an element of a numpy array. *)
Definition np_str (item : value) : string :=
  match item with
  | VNpBool b | VBool b => bool_str b
  | _ => py_str item
  end.

(** [ndarray.tolist()] *)
Fixpoint tolist (v : value) : value :=
  match v with
  | VNdarray _ _ items => VList (map tolist items)
  | VNpVoid fields => VTuple (map tolist fields)
  | VNpBool b => VBool b
  | VNpInt z => VInt z
  | VNpFloat f => VFloat f
  | _ => v
  end.

(** [AttributeEncoder._encode] *)
Definition _encode (obj : value) : value :=
  match obj with
  | VBool b | VNpBool b => VStr (lower (bool_str b))
  | VInt _ | VFloat _ | VStr _ => obj
  | VNpInt z => VInt z
  | VNpFloat f => VFloat f
  | VNpVoid fields => VTuple fields
  | VNdarray _ _ _ => tolist obj
  | _ => VStr (py_str obj)
  end.

(** [AttributeEncoder.default] *)
Fixpoint default (obj : value) : value :=
  match obj with
  | VDict d => VDict (map (fun kv => let '(key, val) := kv in (key, default val)) d)
  | VList l | VTuple l | VNdarray _ _ l => VList (map default l)
  | _ => _encode obj
  end.

(** **** [json.dumps]

    The text that [json.dumps(o, cls=AttributeEncoder)] produces with the
    defaults of the standard library: separators [", "] and [": "], and every
    character outside the printable ASCII range escaped. *)

Definition hex_digit (n : nat) : ascii :=
  if (n <? 10)%nat then ascii_of_nat (48 + n) else ascii_of_nat (87 + n).

Definition backslash : ascii := ascii_of_nat 92.

Definition escape_char (c : ascii) : string :=
  let n := nat_of_ascii c in
  if Nat.eqb n 34 then String backslash (str1 dquote)
  else if Nat.eqb n 92 then String backslash (str1 backslash)
  else if Nat.eqb n 10 then String backslash "n"
  else if Nat.eqb n 13 then String backslash "r"
  else if Nat.eqb n 9 then String backslash "t"
  else if Nat.eqb n 8 then String backslash "b"
  else if Nat.eqb n 12 then String backslash "f"
  else if ((32 <=? n)%nat && (n <=? 126)%nat)%bool then str1 c
  else String backslash
         (String "u" (String "0" (String "0"
            (String (hex_digit (n / 16)) (str1 (hex_digit (n mod 16))))))).

Fixpoint escape (s : string) : string :=
  match s with
  | EmptyString => EmptyString
  | String c s' => (escape_char c ++ escape s')%string
  end.

Definition encode_basestring_ascii (s : string) : string :=
  String dquote (escape s ++ str1 dquote).

Definition int_repr (z : Z) : string := NilZero.string_of_int (Z.to_int z).

Fixpoint map_res {A B} (f : A -> Res B) (l : list A) : Res (list B) :=
  match l with
  | [] => Returns []
  | a :: l' =>
      match f a with
      | Returns b =>
          match map_res f l' with
          | Returns bs => Returns (b :: bs)
          | Raises e => Raises e
          end
      | Raises e => Raises e
      end
  end.

(** One level of [JSONEncoder.iterencode]: what the encoder prints by
    itself, [dflt] taking the objects it does not know. *)
Fixpoint iterencode_with (dflt : value -> Res string) (o : value) : Res string :=
  match o with
  | VStr s => Returns (encode_basestring_ascii s)
  | VNone => Returns "null"
  | VBool true => Returns "true"
  | VBool false => Returns "false"
  | VInt z => Returns (int_repr z)
  | VFloat f | VNpFloat f => Returns (json_float f)
  | VList l | VTuple l =>
      match map_res (iterencode_with dflt) l with
      | Returns parts => Returns ("[" ++ str_join ", " parts ++ "]")%string
      | Raises e => Raises e
      end
  | VDict d =>
      match map_res (fun kv =>
                       let '(key, val) := kv in
                       match iterencode_with dflt val with
                       | Returns s =>
                           Returns (encode_basestring_ascii key ++ ": " ++ s)%string
                       | Raises e => Raises e
                       end) d with
      | Returns parts => Returns ("{" ++ str_join ", " parts ++ "}")%string
      | Raises e => Raises e
      end
  | _ => dflt o
  end.

(** [iterencode]: an object the encoder does not know is replaced by
    [default] of it and encoded in turn; [fuel] bounds how often. *)
Fixpoint iterencode (fuel : nat) (o : value) : Res string :=
  match fuel with
  | O => Raises RecursionError
  | S fuel' => iterencode_with (fun o' => iterencode fuel' (default o')) o
  end.

Definition recursion_limit : nat := 1000.

Definition json_dumps (o : value) : Res string := iterencode recursion_limit o.

(** [s.strip(c)] for one character [c]. *)
Fixpoint lstrip (c : ascii) (s : string) : string :=
  match s with
  | String a s' => if Ascii.eqb a c then lstrip c s' else s
  | EmptyString => EmptyString
  end.

Fixpoint rstrip (c : ascii) (s : string) : string :=
  match s with
  | EmptyString => EmptyString
  | String a s' =>
      match rstrip c s' with
      | EmptyString => if Ascii.eqb a c then EmptyString else str1 a
      | r => String a r
      end
  end.

Definition strip (c : ascii) (s : string) : string := rstrip c (lstrip c s).

(** **** Encoding for netCDF *)

Definition is_ndarray (v : value) : bool :=
  match v with VNdarray _ _ _ => true | _ => false end.

Definition _encode_nc (obj : value) : Res value :=
  match obj with
  | VInt _ => Returns obj
  | VFloat _ | VStr _ | VNpInt _ | VNpFloat _ => Returns obj
  | VNdarray t structured items =>
      let is_plain_1d := negb structured && forallb (fun i => negb (is_ndarray i)) items in
      if is_plain_1d then
        if dtype_in t NC4_DTYPES then Returns obj
        else if dtype_eqb t bool_ then
          Returns (VList (map (fun s => VStr (lower (np_str s))) items))
        else Returns (tolist obj)
      else Raises ValueError
  | _ => Raises ValueError
  end.

Definition is_ascii_str (s : string) : bool :=
  forallb (fun c => (nat_of_ascii c <? 128)%nat) (list_ascii_of_string s).

(** The [try] of [_encode_python_objects]: the closest datatype, and on
    failure the JSON text without the quotes around it.  A byte string is
    decoded first; the model decodes ASCII only. *)
Definition encode_or_dump (obj : value) : Res value :=
  match _encode_nc obj with
  | Returns dump => Returns dump
  | Raises ValueError =>
      match (match obj with
             | VBytes s => if is_ascii_str s then Returns (VStr s) else Raises ValueError
             | _ => Returns obj
             end) with
      | Returns decoded =>
          match json_dumps decoded with
          | Returns text => Returns (VStr (strip dquote text))
          | Raises e => Raises e
          end
      | Raises e => Raises e
      end
  | Raises e => Raises e
  end.

Definition is_list_or_tuple (v : value) : bool :=
  match v with VList _ | VTuple _ => true | _ => false end.

(** [_encode_python_objects].  No value of the model has a [to_cf] method,
    so [encode_nc] always ends up here; the element-wise case calls
    [encode_nc] on elements that are not lists, for which the first test
    fails. *)
Definition _encode_python_objects (obj : value) : Res value :=
  match obj with
  | VList l | VTuple l =>
      if forallb (fun item => negb (is_list_or_tuple item)) l
      then match map_res encode_or_dump l with
           | Returns l' => Returns (VList l')
           | Raises e => Raises e
           end
      else encode_or_dump obj
  | _ => encode_or_dump obj
  end.

Definition encode_nc (obj : value) : Res value := _encode_python_objects obj.

(** [sorted(d.items())]: by key. *)
Fixpoint insert_item {V} (kv : string * V) (l : list (string * V))
  : list (string * V) :=
  match l with
  | [] => [kv]
  | kv' :: l' =>
      if String.leb (fst kv) (fst kv') then kv :: l
      else kv' :: insert_item kv l'
  end.

Definition sorted_items {V} (d : dict string V) : list (string * V) :=
  fold_right insert_item [] d.

Fixpoint encode_items (items : list (string * value)) : Res attrs_t :=
  match items with
  | [] => Returns []
  | (key, val) :: items' =>
      if is_not_None val then
        match encode_nc val with
        | Returns enc =>
            match encode_items items' with
            | Returns rest => Returns ((key, enc) :: rest)
            | Raises e => Raises e
            end
        | Raises e => Raises e
        end
      else encode_items items'
  end.

Definition encode_attrs_nc (attrs : attrs_t) : Res attrs_t :=
  match encode_items (sorted_items attrs) with
  | Returns encoded_attrs => Returns (dict_of_items String.eqb encoded_attrs)
  | Raises e => Raises e
  end.

(** *** The dataset transformer *)

(** Modelled from the spec: [satpy.writers.utils.flatten_dict] is not among
    the sources.  Nested mappings become flat keys, the keys on the way
    joined with an underscore; the flat items make the new dictionary in
    their order, a later item replacing an earlier one of the same key. *)
Fixpoint flatten_value (new_key : string) (v : value) : list (string * value) :=
  match v with
  | VDict d =>
      dict_of_items String.eqb
        ((fix items (d : list (string * value)) : list (string * value) :=
            match d with
            | [] => []
            | (k, x) :: d' =>
                (flatten_value
                   (if String.eqb new_key EmptyString then k
                    else new_key ++ "_" ++ k)%string x
                 ++ items d')%list
            end) d)
  | _ => [(new_key, v)]
  end.

Definition flatten_dict (d : attrs_t) : attrs_t :=
  dict_of_items String.eqb (flat_map (fun kv => flatten_value (fst kv) (snd kv)) d).

Definition head_char (s : string) : option ascii :=
  match s with String c _ => Some c | EmptyString => None end.

Definition invalid_name_msg (nm : string) : string :=
  ("Invalid NetCDF dataset name: " ++ nm ++ " starts with a digit.")%string.

(** [if numeric_name_prefix:] *)
Definition prefix_given (numeric_name_prefix : option string) : option string :=
  match numeric_name_prefix with
  | Some (String c p) => Some (String c p)
  | _ => None
  end.

Definition _handle_dataarray_name (original_name : value)
    (numeric_name_prefix : option string) : M (string * string) :=
  match original_name with
  | VStr nm =>
      c <- of_option (head_char nm) IndexError ;;
      if isdigit c then
        match prefix_given numeric_name_prefix with
        | Some p => ret (nm, (p ++ nm)%string)
        | None => warn (invalid_name_msg nm) ;;; ret (nm, nm)
        end
      else ret (nm, nm)
  | _ => raise TypeError
  end.

Definition _remove_satpy_attributes (new_data : DataArray) : M unit :=
  attrs <- read (da_attrs new_data) ;;
  let satpy_attrs := filter (startswith "_satpy") (dict_keys attrs) in
  for_each satpy_attrs (fun satpy_attr => attrs_pop (da_attrs new_data) satpy_attr) ;;;
  attrs_pop (da_attrs new_data) "_last_resampler".

Definition nat_in (n : nat) (l : list nat) : bool := existsb (Nat.eqb n) l.

Definition _add_time_dimension (new_data : DataArray) : M DataArray :=
  time <- of_option (coords_get new_data "time") KeyError ;;
  if negb (in_dims "time" new_data)
     && negb (nat_in (nd_size (v_data time)) (da_shape new_data))
  then lift (da_expand_dims new_data "time")
  else ret new_data.

Definition _encode_time (new_data : DataArray) (epoch : string) : M DataArray :=
  match coords_get new_data "time" with
  | Some time =>
      attrs_set (v_encoding time) "units" (VStr epoch) ;;;
      attrs_set (v_attrs time) "standard_name" (VStr "time") ;;;
      attrs_pop (v_attrs time) "bounds" ;;;
      _add_time_dimension new_data
  | None => ret new_data
  end.

(** What [_try_to_get_crs] may return besides [None]: a CRS, or the number
    that [item()] gives for a [crs] coordinate that holds none. *)
Inductive crs_like : Type :=
| IsCRS (c : CRS)
| IsNumber (z : Z).

Definition type_name (v : value) : string :=
  match v with
  | VNone => "NoneType" | VBool _ => "bool" | VInt _ => "int"
  | VFloat _ => "float" | VStr _ => "str" | VBytes _ => "bytes"
  | VList _ => "list" | VTuple _ => "tuple" | VDict _ => "dict"
  | VNpBool _ => "bool_" | VNpInt _ => "int64" | VNpFloat _ => "float64"
  | VNpVoid _ => "void" | VNdarray _ _ _ => "ndarray"
  | VDatetime _ => "datetime"
  | VArea (SwathDefinition _ _) => "SwathDefinition"
  | VArea (AreaDefinition _ _ _ _) => "AreaDefinition"
  | VDataArray _ => "DataArray"
  | VObj _ => "object"
  end.

(** [v.item()] *)
Definition item (v : Var) : Res crs_like :=
  match nd_crs (v_data v), nd_elems (v_data v) with
  | Some c, _ => Returns (IsCRS c)
  | None, [z] => Returns (IsNumber z)
  | None, _ => Raises ValueError
  end.

Definition _try_to_get_crs (new_data : DataArray) : M (option crs_like) :=
  attrs <- read (da_attrs new_data) ;;
  r <- match aget attrs "area" with
       | Some (VArea (AreaDefinition _ crs _ _)) => ret (Some (IsCRS crs))
       | Some area =>
           logger_warning ("Could not tell CRS from area of type "
                           ++ type_name area ++ ". Assuming projected CRS.") ;;;
           ret None
       | None => ret None
       end ;;
  match r with
  | Some c => ret (Some c)
  | None =>
      match coords_get new_data "crs" with
      | Some v => c <- lift (item v) ;; ret (Some c)
      | None => ret None
      end
  end.

Definition _try_get_units_from_coords (new_data : DataArray) : M (option value) :=
  x <- of_option (coords_get new_data "x") KeyError ;;
  ax <- read (v_attrs x) ;;
  match aget ax "units" with
  | Some u => ret (Some u)
  | None =>
      y <- of_option (coords_get new_data "y") KeyError ;;
      ay <- read (v_attrs y) ;;
      ret (aget ay "units")
  end.

(** [s.endswith(p)] *)
Definition endswith (p s : string) : bool :=
  let n := String.length s in
  let m := String.length p in
  (m <=? n)%nat && String.eqb (String.substring (n - m) m s) p.

Definition assume_projected : M bool :=
  logger_warning "Failed to tell if data are projected. Assuming yes." ;;;
  ret true.

(** The second half of [_is_projected], reached when no CRS was found. *)
Definition projected_by_units (new_data : DataArray) : M bool :=
  units <- _try_get_units_from_coords new_data ;;
  match units with
  | Some u =>
      if truthy u then
        match u with
        | VStr s =>
            if endswith "m" s then ret true
            else if startswith "degrees" s then ret false
            else assume_projected
        | _ => raise AttributeError
        end
      else assume_projected
  | None => assume_projected
  end.

Definition _is_projected (new_data : DataArray) : M bool :=
  crs <- _try_to_get_crs new_data ;;
  match crs with
  | Some (IsCRS c) => ret (is_projected c)
  | Some (IsNumber z) =>
      if Z.eqb z 0 then projected_by_units new_data
      else raise AttributeError
  | None => projected_by_units new_data
  end.

Definition set_xy_attrs (new_data : DataArray) (k standard_name units : string)
  : M unit :=
  match coords_get new_data k with
  | Some v =>
      attrs_set (v_attrs v) "standard_name" (VStr standard_name) ;;;
      attrs_set (v_attrs v) "units" (VStr units)
  | None => ret tt
  end.

Definition _encode_xy_coords_projected (new_data : DataArray) : M DataArray :=
  set_xy_attrs new_data "x" "projection_x_coordinate" "m" ;;;
  set_xy_attrs new_data "y" "projection_y_coordinate" "m" ;;;
  ret new_data.

Definition _encode_xy_coords_geographic (new_data : DataArray) : M DataArray :=
  set_xy_attrs new_data "x" "longitude" "degrees_east" ;;;
  set_xy_attrs new_data "y" "latitude" "degrees_north" ;;;
  ret new_data.

Definition _encode_coords (new_data : DataArray) : M DataArray :=
  if negb (in_coords "x" new_data || in_coords "y" new_data
           || in_coords "crs" new_data)
  then ret new_data
  else
    is_projected <- _is_projected new_data ;;
    new_data <- (if is_projected
                 then _encode_xy_coords_projected new_data
                 else _encode_xy_coords_geographic new_data) ;;
    if in_coords "crs" new_data
    then ret (da_drop_vars new_data "crs")
    else ret new_data.

Definition is_empty_list (v : value) : bool :=
  match v with VList [] => true | _ => false end.

Definition _cleanup_attrs (new_data : DataArray) : M unit :=
  attrs <- read (da_attrs new_data) ;;
  for_each attrs
    (fun kv =>
       let key := fst kv in
       let val := snd kv in
       (if negb (is_not_None val) then attrs_pop (da_attrs new_data) key
        else ret tt) ;;;
       (if String.eqb key "ancillary_variables" && is_empty_list val
        then attrs_pop (da_attrs new_data) key
        else ret tt)).

(** [[ds.attrs['name'] for ds in ancillary]] *)
Fixpoint ancillary_names (ancillary : list value) : M (list value) :=
  match ancillary with
  | [] => ret []
  | VDataArray ds :: rest =>
      attrs <- read (da_attrs ds) ;;
      nm <- of_option (aget attrs "name") KeyError ;;
      nms <- ancillary_names rest ;;
      ret (nm :: nms)
  | _ :: _ => raise AttributeError
  end.

(** [' '.join(anc)] *)
Fixpoint strings_of (vs : list value) : Res (list string) :=
  match vs with
  | [] => Returns []
  | VStr s :: vs' =>
      match strings_of vs' with
      | Returns ss => Returns (s :: ss)
      | Raises e => Raises e
      end
  | _ :: _ => Raises TypeError
  end.

Definition name_value (n : name) : value :=
  match n with Some s => VStr s | None => VNone end.

(** [da2cf] in four parts: the copy, the naming, the statements from there
    to the handling of [prerequisites], and the last three statements. *)

(** [if 'name' in new_data.attrs: ...]: the names that
    [_handle_dataarray_name] returned, if any, and [new_data]. *)
Definition da2cf_name (new_data : DataArray) (numeric_name_prefix : option string)
  : M (option (string * string) * DataArray) :=
  has_name <- attrs_mem (da_attrs new_data) "name" ;;
  if has_name then
    nm <- attrs_get (da_attrs new_data) "name" ;;
    attrs_pop (da_attrs new_data) "name" ;;;
    names <- _handle_dataarray_name
               (match nm with Some v => v | None => VNone end)
               numeric_name_prefix ;;
    ret (Some names, da_rename new_data (Some (snd names)))
  else ret (None, new_data).

(** From [_remove_satpy_attributes] to the [prerequisites]. *)
Definition da2cf_prepare (new_data : DataArray) (epoch : string)
    (exclude_attrs : list string) (compression : option attrs_t)
  : M DataArray :=
  _remove_satpy_attributes new_data ;;;
  new_data <- _encode_time new_data epoch ;;
  new_data <- _encode_coords new_data ;;
  for_each ("area" :: exclude_attrs)
    (fun key => attrs_pop (da_attrs new_data) key) ;;;
  attrs <- read (da_attrs new_data) ;;
  ancillary <- iter_value (match aget attrs "ancillary_variables" with
                           | Some v => v
                           | None => VList []
                           end) ;;
  anc <- ancillary_names ancillary ;;
  (match anc with
   | [] => ret tt
   | _ :: _ =>
       names <- lift (strings_of anc) ;;
       attrs_set (da_attrs new_data) "ancillary_variables"
         (VStr (str_join " " names))
   end) ;;;
  _cleanup_attrs new_data ;;;
  (match compression with
   | Some c =>
       enc <- read (da_encoding new_data) ;;
       store (da_encoding new_data) (dict_update String.eqb enc c)
   | None => ret tt
   end) ;;;
  attrs <- read (da_attrs new_data) ;;
  (if negb (amem attrs "long_name") && negb (amem attrs "standard_name")
   then attrs_set (da_attrs new_data) "long_name" (name_value (da_name new_data))
   else ret tt) ;;;
  attrs <- read (da_attrs new_data) ;;
  (match aget attrs "prerequisites" with
   | Some prerequisites =>
       prereqs <- iter_value prerequisites ;;
       attrs_set (da_attrs new_data) "prerequisites"
         (VList (map (fun prereq => VBytes (format_value prereq)) prereqs))
   | None => ret tt
   end) ;;;
  ret new_data.

(** The last statements: [original_name], the flattening and the encoding
    of the attributes.  A name that [_handle_dataarray_name] returned is not
    empty, which is why [original_name] is not tested by itself. *)
Definition da2cf_finish (names : option (string * string)) (new_data : DataArray)
    (flatten_attrs include_orig_name : bool) (numeric_name_prefix : option string)
  : M DataArray :=
  (match names, prefix_given numeric_name_prefix with
   | Some (original_name, nm), Some _ =>
       if include_orig_name && negb (String.eqb original_name nm)
       then attrs_set (da_attrs new_data) "original_name" (VStr original_name)
       else ret tt
   | _, _ => ret tt
   end) ;;;
  (if flatten_attrs then
     attrs <- read (da_attrs new_data) ;;
     store (da_attrs new_data) (flatten_dict attrs)
   else ret tt) ;;;
  attrs <- read (da_attrs new_data) ;;
  encoded <- lift (encode_attrs_nc attrs) ;;
  store (da_attrs new_data) encoded ;;;
  ret new_data.

Definition da2cf (dataarray : DataArray) (epoch : string) (flatten_attrs : bool)
    (exclude_attrs : list string) (compression : option attrs_t)
    (include_orig_name : bool) (numeric_name_prefix : option string)
  : M DataArray :=
  new_data <- da_copy dataarray ;;
  named <- da2cf_name new_data numeric_name_prefix ;;
  new_data <- da2cf_prepare (snd named) epoch exclude_attrs compression ;;
  da2cf_finish (fst named) new_data flatten_attrs include_orig_name
    numeric_name_prefix.

(** *** Grouping and collection *)

Variable utcnow : string.
Variable get_filename : attrs_t -> Res string.
(** The encoding resolver ([update_encoding] and its helpers) only prepares
    the arguments of a write; [save_datasets] takes its result as given. *)
Variable update_encoding :
  (loc -> list (string * value)) -> Dataset -> attrs_t -> option string ->
  Res (attrs_t * attrs_t).

(** Clears the environment of the module from a goal that does not name it. *)
Ltac env_free :=
  try clear update_encoding; try clear get_filename; try clear utcnow;
  try clear json_float; try clear pyproj_too_old; try clear py_str;
  try clear tokenize.

Definition dtype_str (t : dtype) : string :=
  match t with
  | int8 => "int8" | uint8 => "uint8" | int16 => "int16" | uint16 => "uint16"
  | int32 => "int32" | uint32 => "uint32" | int64 => "int64"
  | uint64 => "uint64" | float32 => "float32" | float64 => "float64"
  | string_ => "|S1" | bool_ => "bool" | datetime64 => "datetime64[ns]"
  | object_ => "object"
  end.

Definition _get_compression (compression : option attrs_t) : M attrs_t :=
  warn "The default behaviour of the CF writer will soon change to not compress data by default." ;;;
  match compression with
  | None => ret [("zlib", VBool true)]
  | Some c =>
      warn "The `compression` keyword will soon be deprecated. Please use the `encoding` of the DataArrays to tune compression from now on." ;;;
      ret c
  end.

Definition newline : string := str1 (ascii_of_nat 10).

Definition _set_history (attrs : attrs_t) : Res attrs_t :=
  let _history_create := ("Created by pytroll/satpy on " ++ utcnow)%string in
  match aget attrs "history" with
  | Some history =>
      match (match history with
             | VList l =>
                 match strings_of l with
                 | Returns ss => Returns (VStr (str_join EmptyString ss))
                 | Raises e => Raises e
                 end
             | _ => Returns history
             end) with
      | Returns (VStr h) =>
          Returns (aset attrs "history" (VStr (h ++ newline ++ _history_create)))
      | Returns _ => Raises TypeError
      | Raises e => Raises e
      end
  | None => Returns (aset attrs "history" (VStr _history_create))
  end.

Definition append_to (grouped : dict name (list DataArray)) (group_name : name)
    (d : DataArray) : dict name (list DataArray) :=
  match dict_get name_eqb grouped group_name with
  | Some l => dict_set name_eqb grouped group_name (l ++ [d])
  | None => dict_set name_eqb grouped group_name [d]
  end.

(** The first group that lists the name, if any. *)
Fixpoint group_of (groups : dict name (list string)) (nm : value) : option name :=
  match groups with
  | [] => None
  | (group_name, group_members) :: groups' =>
      match nm with
      | VStr s => if str_in s group_members then Some group_name
                  else group_of groups' nm
      | _ => group_of groups' nm
      end
  end.

Definition _get_groups (groups : option (dict name (list string)))
    (list_datarrays : list DataArray) : M (dict name (list DataArray)) :=
  match groups with
  | None => ret [(None, list_datarrays)]
  | Some groups =>
      for_fold list_datarrays []
        (fun grouped_dataarrays datarray =>
           match groups with
           | [] => ret grouped_dataarrays
           | _ :: _ =>
               attrs <- read (da_attrs datarray) ;;
               nm <- of_option (aget attrs "name") KeyError ;;
               match group_of groups nm with
               | Some group_name =>
                   ret (append_to grouped_dataarrays group_name datarray)
               | None => ret grouped_dataarrays
               end
           end)
  end.

(** [k in ds] and [ds[k]] for a dataset built from data arrays: the data
    variable of that name, or else a coordinate of that name. *)
Fixpoint first_coord (k : string) (vars : list (name * DataArray)) : option Var :=
  match vars with
  | [] => None
  | (_, d) :: vars' =>
      match coords_get d k with
      | Some v => Some v
      | None => first_coord k vars'
      end
  end.

Definition ds_getitem (ds : Dataset) (k : string) : option Var :=
  match dict_get name_eqb (ds_vars ds) (Some k) with
  | Some d => Some (da_var d)
  | None => first_coord k (ds_vars ds)
  end.

Definition ds_contains (ds : Dataset) (k : string) : bool :=
  match ds_getitem ds k with Some _ => true | None => false end.

Definition ds_setitem (ds : Dataset) (k : string) (d : DataArray) : Dataset :=
  mk_Dataset (dict_set name_eqb (ds_vars ds) (Some k) (da_rename d (Some k)))
             (ds_attrs ds).

Definition dtype_msg (t : dtype) : string :=
  ("Dtype " ++ dtype_str t ++ " not compatible with " ++ CF_VERSION ++ ".")%string.

(** The options of [da2cf] that [_collect_datasets] passes on. *)
Record options : Type := mk_options {
  epoch : string;
  flatten_attrs : bool;
  exclude_attrs : list string;
  include_lonlats : bool;
  pretty : bool;
  compression : option attrs_t;
  include_orig_name : bool;
  numeric_name_prefix : option string
}.

(** The options as [save_datasets] passes them on, [compression] being what
    [_get_compression] made of it. *)
Definition with_compression (o : options) (c : attrs_t) : options :=
  mk_options (epoch o) (flatten_attrs o) (exclude_attrs o) (include_lonlats o)
    (pretty o) (Some c) (include_orig_name o) (numeric_name_prefix o).

(** The state of the main loop of [_collect_datasets]. *)
Definition collected : Type := (dict name DataArray * list value * list value)%type.

Definition get_or_None (attrs : attrs_t) (k : string) : value :=
  match aget attrs k with Some v => v | None => VNone end.

(** The body of the loop over [new_datasets]. *)
Definition transform_one (o : options) (acc : collected) (new_ds : DataArray)
  : M collected :=
  let '(datas, start_times, end_times) := acc in
  attrs <- read (da_attrs new_ds) ;;
  let start_times := start_times ++ [get_or_None attrs "start_time"] in
  let end_times := end_times ++ [get_or_None attrs "end_time"] in
  new_var <- da2cf new_ds (epoch o) (flatten_attrs o) (exclude_attrs o)
               (compression o) (include_orig_name o) (numeric_name_prefix o) ;;
  ret (dset datas (da_name new_var) new_var, start_times, end_times).

(** The loop over the sorted collection: [datas], [start_times] and
    [end_times] as they stand before the coordinates are checked. *)
Definition transform_all (o : options) (ds_collection : dict string DataArray)
  : M collected :=
  h <- get_heap ;;
  let got_lonlats := has_projection_coords h ds_collection in
  for_fold (sorted_items ds_collection) ([], [], [])
    (fun acc kd =>
       let ds := snd kd in
       (if negb (dtype_in (nd_dtype (v_data (da_var ds))) CF_DTYPES)
        then warn (dtype_msg (nd_dtype (v_data (da_var ds))))
        else ret tt) ;;;
       ds <- da_copy ds ;;
       new_datasets <-
         try_except (area2cf ds (include_lonlats o) got_lonlats)
           (fun e => match e with
                     | KeyError => Some (ret [ds])
                     | _ => None
                     end) ;;
       for_fold new_datasets acc (transform_one o)).

(** The first loop of [_collect_datasets]. *)
Definition gather (datasets : list DataArray) : M (dict string DataArray) :=
  for_fold datasets []
    (fun ds_collection ds =>
       sub <- get_extra_ds recursion_limit ds None ;;
       ret (dict_update String.eqb ds_collection (fst sub))).

Definition _collect_datasets (datasets : list DataArray) (o : options)
  : M collected :=
  ds_collection <- gather datasets ;;
  acc <- transform_all o ds_collection ;;
  let '(datas, start_times, end_times) := acc in
  lift (assert_xy_unique datas) ;;;
  datas <- link_coords datas ;;
  datas <- make_alt_coords_unique datas (pretty o) ;;
  ret (datas, start_times, end_times).

Definition no_time_msg (group_name : name) : string :=
  ("No time dimension in datasets"
   ++ match group_name with
      | Some g => " of group " ++ g
      | None => EmptyString
      end
   ++ ", skipping time bounds creation.")%string.

(** The body of the loop over the groups in [collect_cf_datasets]. *)
Definition collect_group (o : options) (is_grouped : bool) (header_attrs : attrs_t)
    (grouped_datasets : dict name Dataset)
    (g : name * list DataArray) : M (dict name Dataset) :=
  let group_name := fst g in
  acc <- _collect_datasets (snd g) o ;;
  let '(dict_datarrays, start_times, end_times) := acc in
  let ds := mk_Dataset dict_datarrays
              (if negb is_grouped then header_attrs else []) in
  ds <- (match ds_getitem ds "time" with
         | Some _ =>
             time_bnds <- make_time_bounds start_times end_times ;;
             let ds := ds_setitem ds "time_bnds" time_bnds in
             time <- of_option (ds_getitem ds "time") KeyError ;;
             attrs_set (v_attrs time) "bounds" (VStr "time_bnds") ;;;
             attrs_set (v_attrs time) "standard_name" (VStr "time") ;;;
             ret ds
         | None =>
             logger_warning (no_time_msg group_name) ;;;
             ret ds
         end) ;;
  ret (dict_set name_eqb grouped_datasets group_name ds).

Definition collect_cf_datasets (list_dataarrays : list DataArray)
    (header_attrs : option attrs_t) (o : options)
    (groups : option (dict name (list string)))
  : M (dict name Dataset * attrs_t) :=
  match list_dataarrays with
  | [] => raise RuntimeError
  | _ :: _ =>
      header_attrs <-
        match header_attrs with
        | Some h =>
            lift (encode_attrs_nc (if flatten_attrs o then flatten_dict h else h))
        | None => ret []
        end ;;
      grouped_dataarrays <- _get_groups groups list_dataarrays ;;
      let is_grouped := (2 <=? length grouped_dataarrays)%nat in
      header_attrs <- lift (_set_history header_attrs) ;;
      let header_attrs :=
        if negb (amem header_attrs "Conventions") && negb is_grouped
        then aset header_attrs "Conventions" (VStr CF_VERSION)
        else header_attrs in
      grouped_datasets <-
        for_fold grouped_dataarrays []
          (collect_group o is_grouped header_attrs) ;;
      ret (grouped_datasets, header_attrs)
  end.

(** Writing happens in [save_datasets] alone: its state is the state of the
    interpreter and the list of the writes made so far. *)
Definition IO (A : Type) : Type :=
  World * list write_event -> Res A * (World * list write_event).

Definition run {A} (m : M A) : IO A :=
  fun s => (fst (m (fst s)), (snd (m (fst s)), snd s)).

(** [ds.to_netcdf(...)] *)
Definition to_netcdf (e : write_event) : IO unit :=
  fun s => (Returns tt, (fst s, snd s ++ [e])).

Definition io_bind {A B} (m : IO A) (k : A -> IO B) : IO B :=
  fun s => match m s with
           | (Returns a, s') => k a s'
           | (Raises e, s') => (Raises e, s')
           end.

Fixpoint io_for_each {A} (xs : list A) (body : A -> IO unit) : IO unit :=
  match xs with
  | [] => fun s => (Returns tt, s)
  | x :: xs' => io_bind (body x) (fun _ => io_for_each xs' body)
  end.

Definition resolve_filename (datasets : list DataArray) (filename : option string)
  : M string :=
  match filename with
  | Some (String c f) => ret (String c f)
  | _ =>
      first <- of_option (nth_error datasets 0) IndexError ;;
      attrs <- read (da_attrs first) ;;
      lift (get_filename attrs)
  end.

(** [CFWriter.save_datasets].  [filename] is [None] or a name;
    [to_netcdf_kwargs] are handed to the resolver and the writes. *)
Definition save_datasets (datasets : list DataArray) (filename : option string)
    (groups : option (dict name (list string))) (header_attrs : option attrs_t)
    (o : options) (to_netcdf_kwargs : attrs_t) : IO unit :=
  io_bind (run (_get_compression (compression o))) (fun compression =>
  io_bind (run (resolve_filename datasets filename)) (fun filename =>
  io_bind (run (collect_cf_datasets datasets header_attrs
                  (with_compression o compression) groups)) (fun gh =>
  let grouped_datasets := fst gh in
  let header_attrs := snd gh in
  let to_netcdf_kwargs :=
    apop (apop (apop to_netcdf_kwargs "overlay") "decorate") "config_files" in
  io_bind
    (match groups with
     | Some _ =>
         io_bind
           (to_netcdf (mk_write filename None "w" (mk_Dataset [] header_attrs)
                         (apop (apop to_netcdf_kwargs "encoding") "unlimited_dims")))
           (fun _ => run (ret "a"))
     | None => run (ret "w")
     end) (fun mode =>
  io_for_each grouped_datasets
    (fun gd =>
       io_bind (run get_heap) (fun h =>
       io_bind (run (lift (update_encoding h (snd gd) to_netcdf_kwargs
                             (numeric_name_prefix o)))) (fun enc =>
       to_netcdf (mk_write filename (fst gd) mode (snd gd) (fst enc))))))))).

(** *** Reading the JSON text back

    [json.loads] of the standard library, for checking what the encoder
    wrote: white space, the three literals, integers, strings with their
    escapes, arrays and objects.  Numbers with a fraction or an exponent and
    escapes of code points above 255 have no counterpart among the values
    here, and the reader gives up on them. *)

Definition is_ws (c : ascii) : bool :=
  let n := nat_of_ascii c in
  Nat.eqb n 32 || Nat.eqb n 9 || Nat.eqb n 10 || Nat.eqb n 13.

Fixpoint skip_ws (s : string) : string :=
  match s with
  | String c s' => if is_ws c then skip_ws s' else s
  | EmptyString => EmptyString
  end.
















(** ** Properties *)

(** *** Dictionaries *)

Section DictFacts.
Variables (K V : Type) (eqb : K -> K -> bool).
Hypothesis eqb_spec : forall a b, reflect (a = b) (eqb a b).

Lemma eqb_same k : eqb k k = true.
Proof. destruct (eqb_spec k k); congruence. Qed.

Lemma eqb_diff a b : a <> b -> eqb a b = false.
Proof. destruct (eqb_spec a b); congruence. Qed.

Lemma dict_get_In (d : dict K V) k v : dict_get eqb d k = Some v -> In (k, v) d.
Proof.
  induction d as [|[k' v'] d IH]; simpl; [discriminate|].
  destruct (eqb_spec k k') as [->|]; intros H.
  - injection H as ->. now left.
  - right. auto.
Qed.

Lemma dict_get_None (d : dict K V) k :
  dict_get eqb d k = None <-> ~ In k (dict_keys d).
Proof.
  induction d as [|[k' v'] d IH]; simpl; [tauto|].
  destruct (eqb_spec k k') as [->|n]; split; intros H.
  - discriminate.
  - exfalso. apply H. now left.
  - intros [E|I]; [congruence|]. now apply IH.
  - apply IH. tauto.
Qed.


Lemma In_dict_get (d : dict K V) k v :
  NoDup (dict_keys d) -> In (k, v) d -> dict_get eqb d k = Some v.
Proof.
  induction d as [|[k' v'] d IH]; simpl; [tauto|].
  intros ND [E|I].
  - injection E as -> ->. now rewrite eqb_same.
  - inversion ND as [|? ? N1 N2]; subst.
    destruct (eqb_spec k k') as [->|n]; [|auto].
    exfalso. apply N1. change k' with (fst (k', v)). now apply in_map.
Qed.

Lemma dict_get_set_eq (d : dict K V) k v : dict_get eqb (dict_set eqb d k v) k = Some v.
Proof.
  induction d as [|[k' v'] d IH]; simpl.
  - now rewrite eqb_same.
  - destruct (eqb_spec k k') as [->|n]; simpl.
    + now rewrite eqb_same.
    + now rewrite (eqb_diff n).
Qed.

Lemma dict_get_set_ne (d : dict K V) k k' v :
  k <> k' -> dict_get eqb (dict_set eqb d k v) k' = dict_get eqb d k'.
Proof.
  intros n. induction d as [|[k0 v0] d IH]; simpl.
  - rewrite eqb_diff; auto.
  - destruct (eqb_spec k k0) as [->|n0]; simpl.
    + rewrite !eqb_diff; auto.
    + now rewrite IH.
Qed.

Lemma dict_keys_set (d : dict K V) k v :
  dict_keys (dict_set eqb d k v) =
  if dict_mem eqb d k then dict_keys d else dict_keys d ++ [k].
Proof.
  unfold dict_mem. induction d as [|[k' v'] d IH]; simpl; [reflexivity|].
  destruct (eqb_spec k k') as [->|n]; simpl; [reflexivity|].
  rewrite IH. now destruct (dict_get eqb d k).
Qed.

Lemma dict_set_new (d : dict K V) k v :
  dict_get eqb d k = None -> dict_set eqb d k v = d ++ [(k, v)].
Proof.
  induction d as [|[k' v'] d IH]; simpl; [reflexivity|].
  destruct (eqb_spec k k'); [discriminate|]. intros H. now rewrite IH.
Qed.

Lemma NoDup_dict_set (d : dict K V) k v :
  NoDup (dict_keys d) -> NoDup (dict_keys (dict_set eqb d k v)).
Proof.
  intros ND. rewrite dict_keys_set. unfold dict_mem.
  destruct (dict_get eqb d k) eqn:E; [assumption|].
  apply dict_get_None in E.
  apply NoDup_app; [assumption|repeat constructor; simpl; tauto|].
  intros x Hx [<-|[]]. contradiction.
Qed.

Lemma In_keys_pop (d : dict K V) k k' :
  In k' (dict_keys (dict_pop eqb d k)) -> In k' (dict_keys d).
Proof.
  induction d as [|[k0 v0] d IH]; simpl; [tauto|].
  destruct (eqb k k0); simpl; tauto.
Qed.

Lemma NoDup_dict_pop (d : dict K V) k :
  NoDup (dict_keys d) -> NoDup (dict_keys (dict_pop eqb d k)).
Proof.
  induction d as [|[k0 v0] d IH]; simpl; [auto|].
  intros ND. inversion ND as [|? ? N1 N2]; subst.
  destruct (eqb k k0); simpl; [assumption|].
  constructor; [|auto]. intros I. apply N1. eapply In_keys_pop; eauto.
Qed.

Lemma dict_get_pop_eq (d : dict K V) k :
  NoDup (dict_keys d) -> dict_get eqb (dict_pop eqb d k) k = None.
Proof.
  induction d as [|[k0 v0] d IH]; simpl; [auto|].
  intros ND. inversion ND as [|? ? N1 N2]; subst.
  destruct (eqb_spec k k0) as [->|n]; simpl.
  - now apply dict_get_None.
  - rewrite (eqb_diff n). auto.
Qed.

Lemma dict_get_pop_ne (d : dict K V) k k' :
  k <> k' -> dict_get eqb (dict_pop eqb d k) k' = dict_get eqb d k'.
Proof.
  intros n. induction d as [|[k0 v0] d IH]; simpl; [auto|].
  destruct (eqb_spec k k0) as [->|n0]; simpl.
  - rewrite eqb_diff; auto.
  - now rewrite IH.
Qed.

Lemma NoDup_dict_update (d e : dict K V) :
  NoDup (dict_keys d) -> NoDup (dict_keys (dict_update eqb d e)).
Proof.
  unfold dict_update. revert d.
  induction e as [|[k v] e IH]; simpl; intros d ND; [assumption|].
  apply IH. now apply NoDup_dict_set.
Qed.

Lemma NoDup_dict_of_items (items : list (K * V)) :
  NoDup (dict_keys (dict_of_items eqb items)).
Proof. apply NoDup_dict_update. constructor. Qed.

Lemma dict_update_fresh (d e : dict K V) :
  NoDup (dict_keys (d ++ e)) -> dict_update eqb d e = d ++ e.
Proof.
  unfold dict_update. revert d.
  induction e as [|[k v] e IH]; simpl; intros d ND.
  - now rewrite app_nil_r.
  - assert (G : dict_get eqb d k = None).
    { apply dict_get_None. unfold dict_keys in ND. rewrite map_app in ND.
      simpl in ND. apply NoDup_remove_2 in ND. intros I. apply ND.
      apply in_or_app. now left. }
    rewrite dict_set_new by assumption.
    rewrite IH; rewrite <- app_assoc; simpl; auto.
Qed.

(** A list of items with every key once is the dictionary it makes. *)
Lemma dict_of_items_id (d : dict K V) :
  NoDup (dict_keys d) -> dict_of_items eqb d = d.
Proof. intros ND. unfold dict_of_items. now rewrite dict_update_fresh. Qed.
End DictFacts.

(** From here on a lemma depends on what its statement names, and on
    nothing else of the environment of the module. *)
Set Default Proof Using "Type".

Lemma name_eqb_spec (a b : name) : reflect (a = b) (name_eqb a b).
Proof.
  destruct a as [x|], b as [y|]; simpl; try (constructor; congruence).
  destruct (String.eqb_spec x y); constructor; congruence.
Qed.

Lemma str_in_In k l : str_in k l = true <-> In k l.
Proof.
  unfold str_in. rewrite existsb_exists. split.
  - intros [x [I E]]. apply String.eqb_eq in E. now subst.
  - intros I. exists k. split; [assumption|apply String.eqb_refl].
Qed.

(** *** The store *)

Lemma cell_NoDup h l : NoDup (dict_keys (cell h l)).
Proof. apply (NoDup_dict_of_items _ String.eqb_spec). Qed.

Lemma cell_upd_eq h l d : NoDup (dict_keys d) -> cell (upd h l d) l = d.
Proof.
  intros ND. unfold cell, upd. rewrite Nat.eqb_refl.
  now apply (dict_of_items_id _ String.eqb_spec).
Qed.

Lemma cell_upd_ne h l l' d : l' <> l -> cell (upd h l d) l' = cell h l'.
Proof.
  intros n. unfold cell, upd. apply Nat.eqb_neq in n. now rewrite n.
Qed.

Lemma NoDup_aset d k v : NoDup (dict_keys d) -> NoDup (dict_keys (aset d k v)).
Proof. apply (NoDup_dict_set _ String.eqb_spec). Qed.

Lemma NoDup_apop d k : NoDup (dict_keys d) -> NoDup (dict_keys (apop d k)).
Proof. apply NoDup_dict_pop. Qed.

(** *** Running a computation *)

Lemma bind_Returns {A B} (m : M A) (k : A -> M B) w b w' :
  bind m k w = (Returns b, w') ->
  exists a w1, m w = (Returns a, w1) /\ k a w1 = (Returns b, w').
Proof.
  unfold bind. destruct (m w) as [[a|e] w1]; intros H; [eauto|discriminate].
Qed.

Lemma bind_inv {A B} (m : M A) (k : A -> M B) w r w' :
  bind m k w = (r, w') ->
  (exists a w1, m w = (Returns a, w1) /\ k a w1 = (r, w'))
  \/ (exists e, m w = (Raises e, w') /\ r = Raises e).
Proof.
  unfold bind. destruct (m w) as [[a|e] w1]; intros H; [left; eauto|].
  injection H as <- <-. right. eauto.
Qed.

Lemma bind_step {A B} (m : M A) (k : A -> M B) w a w1 :
  m w = (Returns a, w1) -> bind m k w = k a w1.
Proof. unfold bind. now intros ->. Qed.

Lemma bind_raise {A B} (m : M A) (k : A -> M B) w e w1 :
  m w = (Raises e, w1) -> bind m k w = (Raises e, w1).
Proof. unfold bind. now intros ->. Qed.

(** A loop stops at the first turn that raises. *)
Lemma for_fold_cons_raise {A S} (x : A) xs (s : S) body w e w1 :
  body s x w = (Raises e, w1) -> for_fold (x :: xs) s body w = (Raises e, w1).
Proof. intros H. simpl. now apply bind_raise. Qed.

(** *** Lifting to [IO] *)

Lemma io_bind_run_raise {A B} (m : M A) (k : A -> IO B) w files e w1 :
  m w = (Raises e, w1) -> io_bind (run m) k (w, files) = (Raises e, (w1, files)).
Proof. intros H. unfold io_bind, run. simpl. now rewrite H. Qed.

Lemma io_bind_run_step {A B} (m : M A) (k : A -> IO B) w files a w1 :
  m w = (Returns a, w1) -> io_bind (run m) k (w, files) = k a (w1, files).
Proof. intros H. unfold io_bind, run. simpl. now rewrite H. Qed.

(** Nothing is written before the collection has returned: when it raises,
    [save_datasets] raises the same with the files as they were. *)
Lemma save_datasets_collect_raises datasets filename groups header_attrs o
    kwargs w files c w1 f w2 e w3 :
  _get_compression (compression o) w = (Returns c, w1) ->
  resolve_filename datasets filename w1 = (Returns f, w2) ->
  collect_cf_datasets datasets header_attrs (with_compression o c) groups w2
    = (Raises e, w3) ->
  save_datasets datasets filename groups header_attrs o kwargs (w, files)
    = (Raises e, (w3, files)).
Proof.
  intros H1 H2 H3. unfold save_datasets.
  erewrite io_bind_run_step by exact H1.
  erewrite io_bind_run_step by exact H2.
  erewrite io_bind_run_raise by exact H3. reflexivity.
Qed.

(** *** The empty input (C9) *)

(** C9.  With an empty list of arrays [collect_cf_datasets] raises
    [RuntimeError] at once: whatever the other arguments, nothing is
    returned, and the state is as it was (no warning, no dictionary
    touched). *)
Theorem collect_cf_datasets_empty header_attrs o groups w :
  collect_cf_datasets [] header_attrs o groups w = (Raises RuntimeError, w).
Proof. reflexivity. Qed.

(** *** Ancillary variables (C2) *)

(** Without a list of keys the loop of [get_extra_ds] does nothing. *)
Lemma get_extra_ds_loop_None fuel (ancillary : list value) coll w :
  for_fold ancillary (coll, None)
    (fun ck ds =>
       let ds_collection := fst ck in
       match snd ck with
       | Some (k :: ks) =>
           match ds with
           | VDataArray a =>
               if negb (name_in (da_name a) (k :: ks)) then
                 sub <- get_extra_ds fuel a (Some ((k :: ks) ++ [da_name a])) ;;
                 ret (dict_update String.eqb ds_collection (fst sub), snd sub)
               else ret ck
           | _ => raise AttributeError
           end
       | _ => ret ck
       end) w
  = (Returns (coll, None), w).
Proof. induction ancillary as [|ds rest IH]; simpl; [reflexivity|apply IH]. Qed.

(** Called as [get_extra_ds(dataset)], the function returns the dataset
    alone, whatever its [ancillary_variables] are. *)
Lemma get_extra_ds_None fuel dataset w ancillary s :
  iter_value (match aget (cell (heap w) (da_attrs dataset)) "ancillary_variables" with
              | Some v => v
              | None => VList []
              end) w = (Returns ancillary, w) ->
  aget (cell (heap w) (da_attrs dataset)) "name" = Some (VStr s) ->
  get_extra_ds (S fuel) dataset None w = (Returns ([(s, dataset)], None), w).
Proof.
  intros Hanc Hname. simpl. unfold bind at 1. unfold read at 1.
  unfold bind at 1. rewrite Hanc.
  unfold bind at 1. rewrite get_extra_ds_loop_None.
  unfold bind at 1. unfold read at 1.
  unfold bind at 1. rewrite Hname. reflexivity.
Qed.

(** An array [a] that declares the array [b] as its ancillary variable, and
    a store that holds their attributes. *)
Definition some_data : ndarray := mk_ndarray float32 [2; 2] [1; 2; 3; 4]%Z None.

Definition anc_b : DataArray :=
  mk_DataArray (Some "b") (mk_Var ["y"; "x"] some_data 2 3) [].

Definition anc_a : DataArray :=
  mk_DataArray (Some "a") (mk_Var ["y"; "x"] some_data 0 1) [].

Definition anc_world : World :=
  mk_World
    (fun l => match l with
              | 0 => [("name", VStr "a");
                      ("ancillary_variables", VList [VDataArray anc_b])]
              | 2 => [("name", VStr "b")]
              | _ => []
              end)
    4 [] [].

(** C2.  The collection step of [_collect_datasets] calls
    [get_extra_ds(ds)] with no list of keys, and the test [keys and ...]
    fails for every ancillary variable: for the array [a] above, which
    declares [b], the collection holds [a] alone.  The claim says that [b] is
    gathered as well. *)
Theorem gather_leaves_ancillary_out :
  gather [anc_a] anc_world = (Returns [("a", anc_a)], anc_world).
Proof. reflexivity. Qed.

(** With a list of keys that is not empty the same function does follow the
    declaration. *)
Example get_extra_ds_with_keys :
  fst (get_extra_ds 3 anc_a (Some [Some "a"]) anc_world)
  = Returns ([("b", anc_b); ("a", anc_a)], Some [Some "a"; Some "b"]).
Proof. reflexivity. Qed.

(** *** Time bounds (C10) *)

Definition is_None (v : value) : bool := negb (is_not_None v).

(** A start or end time as the readers set it: [None] or a datetime. *)
Definition None_or_datetime (v : value) : bool :=
  match v with VNone | VDatetime _ => true | _ => false end.

Lemma filter_all_None (xs : list value) :
  forallb is_None xs = true -> filter is_not_None xs = [].
Proof.
  induction xs as [|x xs IH]; simpl; [reflexivity|].
  intros H. apply andb_prop in H as [H1 H2]. unfold is_None in H1.
  apply negb_true_iff in H1. rewrite H1. auto.
Qed.

Lemma min_from_datetimes t (xs : list value) :
  forallb None_or_datetime xs = true ->
  exists t', min_from (VDatetime t) (filter is_not_None xs) = Returns (VDatetime t').
Proof.
  revert t. induction xs as [|x xs IH]; intros t H; simpl.
  - eauto.
  - simpl in H. apply andb_prop in H as [H1 H2].
    destruct x; simpl in *; try discriminate; [now apply IH|].
    destruct (Z.ltb _ t); now apply IH.
Qed.

(** The least of the times that are not [None] exists when there is one. *)
Lemma py_min_datetimes (xs : list value) :
  forallb None_or_datetime xs = true ->
  filter is_not_None xs = []
  \/ exists t, py_min (filter is_not_None xs) = Returns (VDatetime t).
Proof.
  induction xs as [|x xs IH]; intros H; simpl; [now left|].
  simpl in H. apply andb_prop in H as [H1 H2].
  destruct x; simpl in *; try discriminate; [now apply IH|].
  right. now apply min_from_datetimes.
Qed.

(** With no start time, or with start times and no end time,
    [make_time_bounds] raises the [ValueError] of [min]. *)
Lemma make_time_bounds_of_nothing start_times end_times w :
  forallb is_None start_times = true
  \/ (forallb None_or_datetime start_times = true
      /\ forallb is_None end_times = true) ->
  make_time_bounds start_times end_times w = (Raises ValueError, w).
Proof.
  intros [H|[H1 H2]]; unfold make_time_bounds.
  - now rewrite (filter_all_None _ H).
  - rewrite (filter_all_None _ H2).
    destruct (py_min_datetimes _ H1) as [E|[t E]]; rewrite E; reflexivity.
Qed.

Lemma for_fold_raises_at {A S} (pre post : list A) (x : A) (s s1 : S) body
    w w1 e w2 :
  for_fold pre s body w = (Returns s1, w1) ->
  body s1 x w1 = (Raises e, w2) ->
  for_fold (pre ++ x :: post) s body w = (Raises e, w2).
Proof.
  revert s w. induction pre as [|p pre IH]; intros s w H1 H2; simpl in *.
  - injection H1 as -> ->. now apply bind_raise.
  - apply bind_Returns in H1 as (s' & w' & Hb & Hf).
    erewrite bind_step by exact Hb. eauto.
Qed.

(** The header attributes as [collect_cf_datasets] leaves them when called
    without header attributes and without groups. *)
Definition default_header : attrs_t :=
  [("history", VStr ("Created by pytroll/satpy on " ++ utcnow));
   ("Conventions", VStr CF_VERSION)].

Lemma collect_cf_datasets_ungrouped d ds o w :
  collect_cf_datasets (d :: ds) None o None w =
  bind (collect_group o false default_header [] (None, d :: ds))
       (fun grouped_datasets => ret (grouped_datasets, default_header)) w.
Proof.
  unfold collect_cf_datasets, default_header. simpl.
  unfold bind, ret, lift. simpl. unfold bind, ret.
  destruct (collect_group _ _ _ _ _ _) as [[a|e] w']; reflexivity.
Qed.

(** C10.  Let [_collect_datasets] return the variables [datas] of a group
    with the start times [st] and the end times [et], where every start
    time is [None], or the start times are datetimes or [None] and every end
    time is [None].  If the dataset made of [datas] has a [time] variable,
    the processing of the group raises [ValueError] (there is nothing to take
    the minimum of), and with it [collect_cf_datasets] and [save_datasets],
    which has written nothing; if it has no [time] variable, the group is
    kept without time bounds and a line is logged. *)
Theorem time_bounds_of_no_times o is_grouped header_attrs grouped g w
    datas st et w1 :
  _collect_datasets (snd g) o w = (Returns (datas, st, et), w1) ->
  forallb is_None st = true
  \/ (forallb None_or_datetime st = true /\ forallb is_None et = true) ->
  let ds := mk_Dataset datas (if negb is_grouped then header_attrs else []) in
  collect_group o is_grouped header_attrs grouped g w =
    (if ds_contains ds "time"
     then (Raises ValueError, w1)
     else (Returns (dict_set name_eqb grouped (fst g) ds),
           mk_World (heap w1) (next w1) (warns w1)
             (logged w1 ++ [no_time_msg (fst g)])))
  /\ (ds_contains ds "time" = true ->
      forall pre post wg,
        for_fold pre [] (collect_group o is_grouped header_attrs) wg
          = (Returns grouped, w) ->
        for_fold (pre ++ g :: post) [] (collect_group o is_grouped header_attrs) wg
          = (Raises ValueError, w1))
  /\ (ds_contains ds "time" = true ->
      is_grouped = false -> header_attrs = default_header -> grouped = [] ->
      fst g = None -> snd g <> [] ->
      collect_cf_datasets (snd g) None o None w = (Raises ValueError, w1)
      /\ forall o0 filename kwargs w0 files c f wc,
           _get_compression (compression o0) w0 = (Returns c, wc) ->
           resolve_filename (snd g) filename wc = (Returns f, w) ->
           o = with_compression o0 c ->
           save_datasets (snd g) filename None None o0 kwargs (w0, files)
             = (Raises ValueError, (w1, files))).
Proof.
  intros Hc Ht ds.
  assert (G : collect_group o is_grouped header_attrs grouped g w =
    (if ds_contains ds "time"
     then (Raises ValueError, w1)
     else (Returns (dict_set name_eqb grouped (fst g) ds),
           mk_World (heap w1) (next w1) (warns w1)
             (logged w1 ++ [no_time_msg (fst g)])))).
  { unfold collect_group. erewrite bind_step by exact Hc.
    subst ds. cbv beta iota zeta. unfold ds_contains.
    destruct (ds_getitem (mk_Dataset datas _) "time") as [v|].
    - apply bind_raise. apply bind_raise.
      now apply make_time_bounds_of_nothing.
    - reflexivity. }
  split; [exact G|]. split.
  - intros Hin pre post wg Hpre.
    apply for_fold_raises_at with (s1 := grouped) (w1 := w); [assumption|].
    rewrite G. now rewrite Hin.
  - intros Hin -> -> -> Hg Hne. rewrite Hin in G.
    assert (C : collect_cf_datasets (snd g) None o None w = (Raises ValueError, w1)).
    { destruct g as [gn [|d l]]; cbn [fst snd] in *; [congruence|]. subst gn.
      rewrite collect_cf_datasets_ungrouped. now apply bind_raise. }
    split; [exact C|].
    intros o0 filename kwargs w0 files c f wc H1 H2 ->.
    eapply save_datasets_collect_raises; eauto.
Qed.

(** *** The uniqueness check (C1) *)

(** The fingerprint of the coordinate [k] of an array that has the
    dimension [k]. *)
Definition axis_token (k : string) (d : DataArray) : option string :=
  if in_dims k d then option_map tokenize (item_data d k) else None.

(** Two arrays of the group have different fingerprints for the axis [k]. *)
Definition fingerprints_differ (k : string) (datas : dict name DataArray) : Prop :=
  exists d1 d2 t1 t2,
    In d1 (dict_values datas) /\ In d2 (dict_values datas)
    /\ axis_token k d1 = Some t1 /\ axis_token k d2 = Some t2 /\ t1 <> t2.

(** All arrays of the group that have the dimension [k] carry the same
    coordinate data for it. *)
Definition same_axis_data (k : string) (datas : dict name DataArray) : Prop :=
  forall d1 d2,
    In d1 (dict_values datas) -> In d2 (dict_values datas) ->
    in_dims k d1 = true -> in_dims k d2 = true ->
    item_data d1 k = item_data d2 k.

Lemma set_add_In t s x : In x (set_add t s) <-> x = t \/ In x s.
Proof.
  unfold set_add. destruct (str_in t s) eqn:E.
  - apply str_in_In in E. split; [tauto|]. intros [->|]; assumption.
  - rewrite in_app_iff. simpl. split; intros H; intuition congruence.
Qed.

Lemma set_add_NoDup t s : NoDup s -> NoDup (set_add t s).
Proof.
  intros ND. unfold set_add. destruct (str_in t s) eqn:E; [assumption|].
  apply NoDup_app; [assumption|repeat constructor; simpl; tauto|].
  intros x Hx [<-|[]]. apply str_in_In in Hx. congruence.
Qed.

Lemma axis_tokens_step k datasets acc :
  fold_left
    (fun unique dataset =>
       if in_dims k dataset then
         match item_data dataset k with
         | Some a => set_add (tokenize a) unique
         | None => unique
         end
       else unique) datasets acc
  = fold_left (fun unique dataset =>
                 match axis_token k dataset with
                 | Some t => set_add t unique
                 | None => unique
                 end) datasets acc.
Proof.
  revert acc. induction datasets as [|d ds IH]; intros acc; simpl; [reflexivity|].
  rewrite IH. unfold axis_token.
  destruct (in_dims k d); [|reflexivity].
  destruct (item_data d k); reflexivity.
Qed.

Lemma tokens_In k datasets acc t :
  In t (fold_left (fun unique dataset =>
                     match axis_token k dataset with
                     | Some t => set_add t unique
                     | None => unique
                     end) datasets acc)
  <-> In t acc \/ exists d, In d datasets /\ axis_token k d = Some t.
Proof.
  revert acc. induction datasets as [|d ds IH]; intros acc; simpl.
  - split; [tauto|]. intros [H|[d [[] _]]]. assumption.
  - rewrite IH. destruct (axis_token k d) as [t'|] eqn:E.
    + rewrite set_add_In. split.
      * intros [[->|H]|[d' [I E']]]; eauto 6.
      * intros [H|[d' [[<-|I] E']]]; eauto 6.
        rewrite E in E'. injection E' as ->. auto.
    + split.
      * intros [H|[d' [I E']]]; eauto 6.
      * intros [H|[d' [[<-|I] E']]]; eauto 6. congruence.
Qed.

Lemma tokens_NoDup k datasets acc :
  NoDup acc ->
  NoDup (fold_left (fun unique dataset =>
                      match axis_token k dataset with
                      | Some t => set_add t unique
                      | None => unique
                      end) datasets acc).
Proof.
  revert acc. induction datasets as [|d ds IH]; intros acc ND; simpl; [assumption|].
  apply IH. destruct (axis_token k d); [now apply set_add_NoDup|assumption].
Qed.

Lemma axis_tokens_In k datasets t :
  In t (axis_tokens k datasets)
  <-> exists d, In d datasets /\ axis_token k d = Some t.
Proof.
  unfold axis_tokens. rewrite axis_tokens_step, tokens_In. simpl. tauto.
Qed.

Lemma axis_tokens_NoDup k datasets : NoDup (axis_tokens k datasets).
Proof.
  unfold axis_tokens. rewrite axis_tokens_step. apply tokens_NoDup. constructor.
Qed.

(** A list without repetition has more than one element exactly when it has
    two different ones. *)
Lemma more_than_one (l : list string) :
  NoDup l ->
  ((1 <? length l)%nat = true <-> exists a b, In a l /\ In b l /\ a <> b).
Proof. env_free.
  intros ND. rewrite Nat.ltb_lt. split.
  - destruct l as [|a [|b l]]; simpl; try lia. intros _.
    exists a, b. repeat split; auto.
    inversion ND as [|? ? N _]; subst. intros ->. apply N. now left.
  - intros (a & b & Ia & Ib & n).
    destruct l as [|x [|y l]]; simpl in *; try tauto; [|lia].
    intuition congruence.
Qed.

Lemma axis_tokens_differ k datas :
  (1 <? length (axis_tokens k (dict_values datas)))%nat = true
  <-> fingerprints_differ k datas.
Proof.
  rewrite (more_than_one (axis_tokens_NoDup k _)). unfold fingerprints_differ.
  split.
  - intros (a & b & Ia & Ib & n).
    apply axis_tokens_In in Ia as (d1 & I1 & E1).
    apply axis_tokens_In in Ib as (d2 & I2 & E2).
    exists d1, d2, a, b. auto.
  - intros (d1 & d2 & t1 & t2 & I1 & I2 & E1 & E2 & n).
    exists t1, t2. repeat split; [| |assumption]; apply axis_tokens_In; eauto.
Qed.

Lemma same_data_same_fingerprint k datas :
  same_axis_data k datas -> ~ fingerprints_differ k datas.
Proof.
  intros S (d1 & d2 & t1 & t2 & I1 & I2 & E1 & E2 & n).
  unfold axis_token in *.
  destruct (in_dims k d1) eqn:D1; [|discriminate].
  destruct (in_dims k d2) eqn:D2; [|discriminate].
  rewrite (S d1 d2 I1 I2 D1 D2) in E1. congruence.
Qed.

Lemma assert_xy_unique_raises datas :
  assert_xy_unique datas = Raises ValueError
  <-> fingerprints_differ "x" datas \/ fingerprints_differ "y" datas.
Proof. env_free.
  rewrite <- !axis_tokens_differ. unfold assert_xy_unique.
  destruct (1 <? length (axis_tokens "x" _))%nat;
    destruct (1 <? length (axis_tokens "y" _))%nat; simpl;
    intuition discriminate.
Qed.

Lemma assert_xy_unique_passes datas :
  assert_xy_unique datas = Returns tt
  <-> ~ (fingerprints_differ "x" datas \/ fingerprints_differ "y" datas).
Proof.
  rewrite <- assert_xy_unique_raises. unfold assert_xy_unique.
  destruct (_ || _); split; intros H; try discriminate; try reflexivity;
    try (exfalso; now apply H); intros H'; discriminate.
Qed.

Lemma collect_group_raises o is_grouped header_attrs grouped g w e w1 :
  _collect_datasets (snd g) o w = (Raises e, w1) ->
  collect_group o is_grouped header_attrs grouped g w = (Raises e, w1).
Proof. intros H. unfold collect_group. now apply bind_raise. Qed.

(** The check comes between the transformation of the arrays and the
    coordinate passes: when it fails, [_collect_datasets] raises in the state
    the transformation left. *)
Lemma _collect_datasets_not_unique datasets o w coll w1 datas st et w2 :
  gather datasets w = (Returns coll, w1) ->
  transform_all o coll w1 = (Returns (datas, st, et), w2) ->
  assert_xy_unique datas = Raises ValueError ->
  _collect_datasets datasets o w = (Raises ValueError, w2).
Proof.
  intros H1 H2 H3. unfold _collect_datasets.
  erewrite bind_step by exact H1. erewrite bind_step by exact H2.
  cbv beta iota. apply bind_raise. unfold lift. now rewrite H3.
Qed.

(** C1.  [assert_xy_unique] raises [ValueError] exactly when two arrays of
    the group have different fingerprints of their [x] coordinates, or of
    their [y] coordinates, the arrays without that dimension not counting;
    otherwise it returns.  It returns in particular when the arrays that
    have a dimension share its coordinate data.  In [_collect_datasets] a
    failure of the check is a [ValueError] of the whole collection, in any
    group; [save_datasets] then raises it with no file written. *)
Theorem xy_uniqueness datas :
  (assert_xy_unique datas = Raises ValueError
   <-> fingerprints_differ "x" datas \/ fingerprints_differ "y" datas)
  /\ (assert_xy_unique datas = Returns tt
      <-> ~ (fingerprints_differ "x" datas \/ fingerprints_differ "y" datas))
  /\ (same_axis_data "x" datas -> same_axis_data "y" datas ->
      assert_xy_unique datas = Returns tt)
  /\ (fingerprints_differ "x" datas \/ fingerprints_differ "y" datas ->
      forall datasets o w coll w1 st et w2,
        gather datasets w = (Returns coll, w1) ->
        transform_all o coll w1 = (Returns (datas, st, et), w2) ->
        _collect_datasets datasets o w = (Raises ValueError, w2)
        /\ (forall is_grouped header_attrs grouped gn pre post wg,
              for_fold pre [] (collect_group o is_grouped header_attrs) wg
                = (Returns grouped, w) ->
              for_fold (pre ++ (gn, datasets) :: post) []
                (collect_group o is_grouped header_attrs) wg
                = (Raises ValueError, w2))
        /\ (forall o0 filename kwargs w0 files c f wc,
              datasets <> [] ->
              _get_compression (compression o0) w0 = (Returns c, wc) ->
              resolve_filename datasets filename wc = (Returns f, w) ->
              o = with_compression o0 c ->
              save_datasets datasets filename None None o0 kwargs (w0, files)
                = (Raises ValueError, (w2, files)))).
Proof.
  split; [apply assert_xy_unique_raises|].
  split; [apply assert_xy_unique_passes|].
  split.
  - intros Sx Sy. apply assert_xy_unique_passes.
    intros [H|H];
      [exact (same_data_same_fingerprint Sx H)|exact (same_data_same_fingerprint Sy H)].
  - intros D datasets o w coll w1 st et w2 H1 H2.
    apply assert_xy_unique_raises in D.
    pose proof (_collect_datasets_not_unique _ _ _ H1 H2 D) as C.
    split; [exact C|]. split.
    + intros is_grouped header_attrs grouped gn pre post wg Hpre.
      eapply for_fold_raises_at; [exact Hpre|].
      now apply collect_group_raises.
    + intros o0 filename kwargs w0 files c f wc Hne Hc Hf ->.
      eapply save_datasets_collect_raises; eauto.
      destruct datasets as [|d ds]; [congruence|].
      rewrite collect_cf_datasets_ungrouped. apply bind_raise.
      now apply collect_group_raises.
Qed.

(** *** Copies *)

(** The store [w'] keeps what [w] holds below the address [n], and has not
    shrunk. *)
Definition stable (n : nat) (w w' : World) : Prop :=
  next w <= next w' /\ forall l, l < n -> heap w' l = heap w l.

Lemma stable_refl n w : stable n w w.
Proof. split; auto. Qed.

Lemma stable_trans n w1 w2 w3 : stable n w1 w2 -> stable n w2 w3 -> stable n w1 w3.
Proof.
  intros [L1 H1] [L2 H2]. split; [lia|].
  intros l Hl. rewrite H2, H1; auto.
Qed.

Lemma stable_le n m w w' : n <= m -> stable m w w' -> stable n w w'.
Proof. intros L [L1 H1]. split; [assumption|]. intros l Hl. apply H1. lia. Qed.

Lemma stable_cell n w w' l : stable n w w' -> l < n -> cell (heap w') l = cell (heap w) l.
Proof. intros [_ H] Hl. unfold cell. now rewrite H. Qed.


Lemma upd_ne h l l' d : l' <> l -> upd h l d l' = h l'.
Proof. intros n. unfold upd. apply Nat.eqb_neq in n. now rewrite n. Qed.

Lemma copy_var_spec v w :
  exists w',
    copy_var v w = (Returns (mk_Var (v_dims v) (v_data v) (next w) (S (next w))), w')
    /\ next w' = S (S (next w))
    /\ warns w' = warns w /\ logged w' = logged w
    /\ stable (next w) w w'
    /\ cell (heap w') (next w) = cell (heap w) (v_attrs v)
    /\ (v_encoding v < next w ->
        cell (heap w') (S (next w)) = cell (heap w) (v_encoding v)).
Proof.
  eexists. split; [reflexivity|]. cbn [next warns logged heap].
  repeat split; cbn [next warns logged heap]; try lia.
  - intros l Hl. rewrite !upd_ne by lia. reflexivity.
  - rewrite cell_upd_ne by lia. apply cell_upd_eq, cell_NoDup.
  - intros Hl. rewrite cell_upd_eq by apply cell_NoDup.
    apply cell_upd_ne. lia.
Qed.

(** What a copy of the coordinates is: the same names, dimensions and data,
    new dictionaries between the addresses [lo] and [hi], holding what the
    dictionaries of the original hold if these lie below [base]. *)
Definition copy_of (w w' : World) (base lo hi : nat) (kv kv' : string * Var) : Prop :=
  fst kv' = fst kv
  /\ v_dims (snd kv') = v_dims (snd kv)
  /\ v_data (snd kv') = v_data (snd kv)
  /\ lo <= v_attrs (snd kv') < hi
  /\ lo <= v_encoding (snd kv') < hi
  /\ v_attrs (snd kv') <> v_encoding (snd kv')
  /\ (v_attrs (snd kv) < base ->
      cell (heap w') (v_attrs (snd kv')) = cell (heap w) (v_attrs (snd kv)))
  /\ (v_encoding (snd kv) < base ->
      cell (heap w') (v_encoding (snd kv')) = cell (heap w) (v_encoding (snd kv))).

Lemma copy_coords_spec cs :
  forall w, exists cs' w',
    copy_coords cs w = (Returns cs', w')
    /\ warns w' = warns w /\ logged w' = logged w
    /\ stable (next w) w w'
    /\ Forall2 (copy_of w w' (next w) (next w) (next w')) cs cs'.
Proof.
  induction cs as [|[k v] cs IH]; intros w.
  - exists [], w. simpl. repeat split; auto. 
  - destruct (copy_var_spec v w) as (w1 & E1 & N1 & W1 & L1 & S1 & A1 & C1).
    destruct (IH w1) as (cs' & w2 & E2 & W2 & L2 & S2 & F2).
    exists ((k, mk_Var (v_dims v) (v_data v) (next w) (S (next w))) :: cs'), w2.
    split.
    { simpl. erewrite bind_step by exact E1. erewrite bind_step by exact E2.
      reflexivity. }
    split; [congruence|]. split; [congruence|].
    assert (S12 : stable (next w) w w2).
    { eapply stable_trans; [exact S1|]. eapply stable_le; [|exact S2]. lia. }
    split; [exact S12|].
    destruct S2 as [Le2 H2].
    constructor.
    + unfold copy_of. cbn [fst snd v_dims v_data v_attrs v_encoding].
      repeat split; try lia.
      * intros Hl. unfold cell. rewrite H2 by lia. apply A1.
      * intros Hl. unfold cell. rewrite H2 by lia. now apply C1.
    + eapply Forall2_impl; [|exact F2].
      intros a b (F & D & Da & [La Ha] & [Le He] & Ne & Ca & Ce).
      unfold copy_of. repeat split; try assumption; try lia.
      * intros Hl. rewrite Ca by lia. apply (stable_cell S1). lia.
      * intros Hl. rewrite Ce by lia. apply (stable_cell S1). lia.
Qed.

Lemma da_copy_spec d w :
  exists cs' w',
    da_copy d w
      = (Returns (mk_DataArray (da_name d)
                    (mk_Var (da_dims d) (v_data (da_var d)) (next w) (S (next w)))
                    cs'), w')
    /\ warns w' = warns w /\ logged w' = logged w
    /\ stable (next w) w w'
    /\ S (S (next w)) <= next w'
    /\ cell (heap w') (next w) = cell (heap w) (da_attrs d)
    /\ (da_encoding d < next w ->
        cell (heap w') (S (next w)) = cell (heap w) (da_encoding d))
    /\ Forall2 (copy_of w w' (next w) (S (S (next w))) (next w')) (da_coords d) cs'.
Proof.
  destruct (copy_var_spec (da_var d) w) as (w1 & E1 & N1 & W1 & L1 & S1 & A1 & C1).
  destruct (copy_coords_spec (da_coords d) w1) as (cs' & w2 & E2 & W2 & L2 & S2 & F2).
  exists cs', w2. split.
  { unfold da_copy. erewrite bind_step by exact E1.
    erewrite bind_step by exact E2. reflexivity. }
  split; [congruence|]. split; [congruence|].
  split. { eapply stable_trans; [exact S1|]. eapply stable_le; [|exact S2]. lia. }
  destruct S2 as [Le2 H2].
  split; [lia|].
  split. { unfold cell. rewrite H2 by lia. apply A1. }
  split. { intros Hl. unfold cell. rewrite H2 by lia. now apply C1. }
  rewrite N1 in F2. eapply Forall2_impl; [|exact F2].
  intros a b (F & D & Da & La & Le & Ne & Ca & Ce).
  unfold copy_of. repeat split; try assumption; try lia.
  - intros Hl. rewrite Ca by lia. apply (stable_cell S1). lia.
  - intros Hl. rewrite Ce by lia. apply (stable_cell S1). lia.
Qed.




(** *** Geolocation (C3) *)













(** *** What a computation writes *)

(** [change ok w w']: [w'] comes from [w] by warnings, log lines, new
    dictionaries, and updates of dictionaries that [ok] allows, [ok l old
    new] saying that the dictionary at [l] may go from [old] to [new]. *)
Section Changes.
Variable ok : loc -> attrs_t -> attrs_t -> Prop.

Inductive change : World -> World -> Prop :=
| ch_refl w : change w w
| ch_warn w msg :
    change w (mk_World (heap w) (next w) (warns w ++ [msg]) (logged w))
| ch_log w msg :
    change w (mk_World (heap w) (next w) (warns w) (logged w ++ [msg]))
| ch_store w l d :
    ok l (cell (heap w) l) d -> NoDup (dict_keys d) ->
    change w (mk_World (upd (heap w) l d) (next w) (warns w) (logged w))
| ch_alloc w d :
    NoDup (dict_keys d) ->
    change w (mk_World (upd (heap w) (next w) d) (S (next w)) (warns w) (logged w))
| ch_trans w1 w2 w3 : change w1 w2 -> change w2 w3 -> change w1 w3.

(** [does m Q]: whatever the state, [m] changes it as [ok] allows, and
    what it returns satisfies [Q]. *)
Definition does {A} (m : M A) (Q : A -> Prop) : Prop :=
  forall w, change w (snd (m w)) /\ forall a, fst (m w) = Returns a -> Q a.

Lemma does_ret {A} (a : A) (Q : A -> Prop) : Q a -> does (ret a) Q.
Proof.
  intros H w. split; [apply ch_refl|]. simpl. intros a' E. now injection E as <-.
Qed.

Lemma does_raise {A} e (Q : A -> Prop) : does (raise e) Q.
Proof. intros w. split; [apply ch_refl|]. simpl. discriminate. Qed.

Lemma does_lift {A} (r : Res A) : does (lift r) (fun a => r = Returns a).
Proof. intros w. split; [apply ch_refl|]. simpl. auto. Qed.

Lemma does_of_option {A} (o : option A) e : does (of_option o e) (fun a => o = Some a).
Proof.
  destruct o; simpl.
  - apply does_ret. reflexivity.
  - apply does_raise.
Qed.

Lemma does_weaken {A} (m : M A) (P Q : A -> Prop) :
  does m P -> (forall a, P a -> Q a) -> does m Q.
Proof. intros H I w. destruct (H w) as [C R]. split; auto. Qed.

Lemma does_bind {A B} (m : M A) (k : A -> M B) (P : A -> Prop) (Q : B -> Prop) :
  does m P -> (forall a, P a -> does (k a) Q) -> does (bind m k) Q.
Proof.
  intros Hm Hk w. destruct (Hm w) as [C R]. unfold bind.
  destruct (m w) as [[a|e] w1]; simpl in *.
  - destruct (Hk a (R a eq_refl) w1) as [C' R'].
    split; [eapply ch_trans; eauto|assumption].
  - split; [assumption|discriminate].
Qed.

Lemma does_read l : does (read l) (fun d => NoDup (dict_keys d)).
Proof.
  intros w. split; [apply ch_refl|]. simpl. intros a E. injection E as <-.
  apply cell_NoDup.
Qed.

Lemma does_get_heap : does get_heap (fun _ => True).
Proof. intros w. split; [apply ch_refl|]. auto. Qed.

Lemma does_warn msg : does (warn msg) (fun _ => True).
Proof. intros w. split; [apply ch_warn|]. auto. Qed.

Lemma does_logger_warning msg : does (logger_warning msg) (fun _ => True).
Proof. intros w. split; [apply ch_log|]. auto. Qed.

Lemma does_alloc d : NoDup (dict_keys d) -> does (alloc d) (fun _ => True).
Proof. intros ND w. split; [now apply ch_alloc|]. auto. Qed.

(** Replacing the dictionary at [l] by a function [f] of it. *)
Lemma does_modify l (f : attrs_t -> attrs_t) :
  (forall old, NoDup (dict_keys old) ->
               ok l old (f old) /\ NoDup (dict_keys (f old))) ->
  does (d <- read l ;; store l (f d)) (fun _ => True).
Proof.
  intros H w. split; [|auto]. simpl.
  destruct (H (cell (heap w) l) (cell_NoDup _ _)). now apply ch_store.
Qed.

Lemma does_attrs_set l k v :
  (forall old, NoDup (dict_keys old) -> ok l old (aset old k v)) ->
  does (attrs_set l k v) (fun _ => True).
Proof.
  intros H. apply does_modify. intros old ND. split; [auto|now apply NoDup_aset].
Qed.

Lemma does_attrs_pop l k :
  (forall old, NoDup (dict_keys old) -> ok l old (apop old k)) ->
  does (attrs_pop l k) (fun _ => True).
Proof.
  intros H. apply does_modify. intros old ND. split; [auto|now apply NoDup_apop].
Qed.

Lemma does_attrs_mem l k : does (attrs_mem l k) (fun _ => True).
Proof. intros w. split; [apply ch_refl|]. auto. Qed.

Lemma does_attrs_get l k : does (attrs_get l k) (fun _ => True).
Proof. intros w. split; [apply ch_refl|]. auto. Qed.

Lemma does_for_each {A} (xs : list A) (body : A -> M unit) :
  (forall x, In x xs -> does (body x) (fun _ => True)) ->
  does (for_each xs body) (fun _ => True).
Proof.
  induction xs as [|x xs IH]; intros H; simpl.
  - now apply does_ret.
  - eapply does_bind; [apply H; now left|]. intros _ _. apply IH.
    intros y Hy. apply H. now right.
Qed.

Lemma does_for_fold {A S} (xs : list A) (body : S -> A -> M S)
    (Inv : S -> Prop) s :
  Inv s ->
  (forall s x, Inv s -> In x xs -> does (body s x) Inv) ->
  does (for_fold xs s body) Inv.
Proof.
  revert s. induction xs as [|x xs IH]; intros s Hs H; simpl.
  - now apply does_ret.
  - eapply does_bind; [apply H; [assumption|now left]|].
    intros s' Hs'. apply IH; [assumption|].
    intros s0 y H0 Hy. apply H; [assumption|now right].
Qed.

Lemma does_try_except {A} (m : M A) h (Q : A -> Prop) :
  does m Q -> (forall e k, h e = Some k -> does k Q) ->
  does (try_except m h) Q.
Proof.
  intros Hm Hh w. destruct (Hm w) as [C R]. unfold try_except.
  destruct (m w) as [[a|e] w1]; simpl in *; [auto|].
  destruct (h e) as [k|] eqn:E; simpl.
  - destruct (Hh e k E w1) as [C' R']. split; [eapply ch_trans; eauto|assumption].
  - split; [assumption|discriminate].
Qed.

(** Read-only consequences of a change. *)
Lemma change_next w w' : change w w' -> next w <= next w'.
Proof. induction 1; simpl; lia. Qed.

Lemma change_warns w w' : change w w' -> exists ws, warns w' = warns w ++ ws.
Proof.
  induction 1; simpl; try (exists []; now rewrite app_nil_r); eauto.
  destruct IHchange1 as [a Ha], IHchange2 as [b Hb].
  exists (a ++ b). rewrite Hb, Ha. now rewrite app_assoc.
Qed.
End Changes.

Lemma change_impl (ok ok' : loc -> attrs_t -> attrs_t -> Prop) w w' :
  (forall l old new, ok l old new -> ok' l old new) ->
  change ok w w' -> change ok' w w'.
Proof.
  intros H. induction 1; try (constructor; auto; fail).
  eapply ch_trans; eauto.
Qed.

(** A change that writes at or above [n] only keeps the store below [n]. *)
Lemma change_stable (ok : loc -> attrs_t -> attrs_t -> Prop) n w w' :
  (forall l old new, ok l old new -> n <= l) ->
  change ok w w' -> n <= next w -> stable n w w'.
Proof.
  intros H. induction 1; intros Hn.
  - apply stable_refl.
  - split; simpl; auto.
  - split; simpl; auto.
  - split; simpl; [lia|]. intros l' Hl'. apply upd_ne.
    specialize (H _ _ _ H0). lia.
  - split; simpl; [lia|]. intros l' Hl'. apply upd_ne. lia.
  - pose proof (change_next H0_). eapply stable_trans; eauto.
    apply IHchange2. lia.
Qed.

(** *** What [da2cf] does to the copy *)

Definition simple (v : value) : bool :=
  match v with VDict _ => false | _ => true end.

(** Every entry of [new] is an entry of [old] or holds no mapping. *)
Definition benign (old new : attrs_t) : Prop :=
  forall k v, In (k, v) new -> In (k, v) old \/ simple v = true.

Lemma In_aset d k v k' v' :
  In (k', v') (aset d k v) -> (k', v') = (k, v) \/ In (k', v') d.
Proof.
  unfold aset. induction d as [|[k0 v0] d IH]; simpl.
  - intros [E|[]]. left. congruence.
  - destruct (String.eqb_spec k k0) as [->|n]; simpl.
    + intros [E|I]; [left; congruence|right; now right].
    + intros [E|I]; [right; now left|]. destruct (IH I); auto.
Qed.

Lemma In_apop d k kv : In kv (apop d k) -> In kv d.
Proof. env_free.
  unfold apop. induction d as [|[k0 v0] d IH]; simpl; [tauto|].
  destruct (String.eqb k k0); simpl; intuition.
Qed.

Lemma benign_aset d k v : simple v = true -> benign d (aset d k v).
Proof.
  intros S k' v' I. apply In_aset in I as [E|I]; [|now left].
  injection E as -> ->. now right.
Qed.

Lemma benign_apop d k : benign d (apop d k).
Proof. intros k' v' I. left. eapply In_apop; eauto. Qed.

Section Prepare.
(** The addresses of the dictionaries of the copy, that of its encoding
    among them. *)
Variable L : list loc.
Variable enc : loc.

Definition ok_prepare (l : loc) (old new : attrs_t) : Prop :=
  In l L /\ (l = enc \/ benign old new).

(** The dictionaries of [nd] are among those of the copy. *)
Definition within (nd : DataArray) : Prop :=
  In (da_attrs nd) L /\ da_encoding nd = enc /\ In enc L
  /\ forall k v, In (k, v) (da_coords nd) ->
                 In (v_attrs v) L /\ In (v_encoding v) L.

(** [nd'] is [nd] up to its dimensions and coordinates. *)
Definition keeps (nd nd' : DataArray) : Prop :=
  within nd' /\ da_name nd' = da_name nd /\ da_attrs nd' = da_attrs nd.

Let does' {A} := @does ok_prepare A.

Lemma ok_set l k v :
  In l L -> simple v = true ->
  forall old, NoDup (dict_keys old) -> ok_prepare l old (aset old k v).
Proof. intros I S old _. split; [assumption|]. right. now apply benign_aset. Qed.

Lemma ok_pop l k :
  In l L -> forall old, NoDup (dict_keys old) -> ok_prepare l old (apop old k).
Proof. intros I old _. split; [assumption|]. right. apply benign_apop. Qed.

Lemma within_coord nd k v :
  within nd -> coords_get nd k = Some v -> In (v_attrs v) L /\ In (v_encoding v) L.
Proof.
  intros (_ & _ & _ & H) G. apply (H k).
  now apply (dict_get_In _ String.eqb_spec).
Qed.

Lemma does__handle_dataarray_name nm p :
  does' (_handle_dataarray_name nm p) (fun _ => True).
Proof.
  unfold _handle_dataarray_name. destruct nm; try apply does_raise.
  eapply does_bind; [apply does_of_option|]. intros c _.
  destruct (isdigit c); [|now apply does_ret].
  destruct (prefix_given p); [now apply does_ret|].
  eapply does_bind; [apply does_warn|]. intros _ _. now apply does_ret.
Qed.

Lemma does__remove_satpy_attributes nd :
  within nd -> does' (_remove_satpy_attributes nd) (fun _ => True).
Proof.
  intros (I & _). unfold _remove_satpy_attributes.
  eapply does_bind; [apply does_read|]. intros attrs _.
  eapply does_bind.
  - apply does_for_each. intros x _. apply does_attrs_pop. now apply ok_pop.
  - intros _ _. apply does_attrs_pop. now apply ok_pop.
Qed.

Lemma keeps_refl nd : within nd -> keeps nd nd.
Proof. intros H. split; [exact H|split; reflexivity]. Qed.

Lemma In_coords_set (cs : list (string * Var)) k v k' v' :
  In (k', v') (dict_set String.eqb cs k v) -> (k', v') = (k, v) \/ In (k', v') cs.
Proof.
  induction cs as [|[k0 v0] cs IH]; simpl.
  - intros [E|[]]. left. congruence.
  - destruct (String.eqb_spec k k0) as [->|n]; simpl.
    + intros [E|I]; [left; congruence|right; now right].
    + intros [E|I]; [right; now left|]. destruct (IH I); auto.
Qed.

Lemma In_coords_pop (cs : list (string * Var)) k kv :
  In kv (dict_pop String.eqb cs k) -> In kv cs.
Proof.
  induction cs as [|[k0 v0] cs IH]; simpl; [tauto|].
  destruct (String.eqb k k0); simpl; intuition.
Qed.

Lemma keeps_expand_dims nd nd' k :
  within nd -> da_expand_dims nd k = Returns nd' -> keeps nd nd'.
Proof.
  intros W. pose proof W as (I & E & Ie & C). unfold da_expand_dims.
  destruct (in_dims k nd); [discriminate|].
  destruct (coords_get nd k) as [c|] eqn:G.
  - destruct (v_dims c); [|discriminate]. intros H. injection H as <-.
    destruct (within_coord _ W G) as [Ia Ien].
    split; [|split; reflexivity].
    split; [exact I|]. split; [exact E|]. split; [exact Ie|].
    cbn [da_coords]. intros k' v' H.
    apply In_coords_set in H as [H|H]; [|now apply (C k')].
    injection H as -> ->. cbn. auto.
  - intros H. injection H as <-. split; [|split; reflexivity].
    split; [exact I|]. split; [exact E|]. split; [exact Ie|]. exact C.
Qed.

Lemma does__encode_time nd epoch :
  within nd -> does' (_encode_time nd epoch) (keeps nd).
Proof.
  intros W. unfold _encode_time.
  destruct (coords_get nd "time") as [time|] eqn:G.
  2:{ apply does_ret. now apply keeps_refl. }
  destruct (within_coord _ W G) as [Ia Ie].
  eapply does_bind; [apply does_attrs_set; now apply ok_set|]. intros _ _.
  eapply does_bind; [apply does_attrs_set; now apply ok_set|]. intros _ _.
  eapply does_bind; [apply does_attrs_pop; now apply ok_pop|]. intros _ _.
  unfold _add_time_dimension.
  eapply does_bind; [apply does_of_option|]. intros t _.
  destruct (_ && _).
  - eapply does_weaken; [apply does_lift|]. intros nd' H.
    now apply (keeps_expand_dims _ W H).
  - apply does_ret. now apply keeps_refl.
Qed.

Lemma does__is_projected nd : does' (_is_projected nd) (fun _ => True).
Proof.
  assert (U : does' (projected_by_units nd) (fun _ => True)).
  { unfold projected_by_units, _try_get_units_from_coords, assume_projected.
    eapply does_bind with (P := fun _ => True).
    - eapply does_bind; [apply does_of_option|]. intros x _.
      eapply does_bind; [apply does_read|]. intros ax _.
      destruct (aget ax "units").
      + apply does_ret. exact I.
      + eapply does_bind; [apply does_of_option|]. intros y _.
        eapply does_bind; [apply does_read|]. intros ay _.
        apply does_ret. exact I.
    - intros units _.
      assert (A : does' (logger_warning "Failed to tell if data are projected. Assuming yes." ;;; ret true) (fun _ => True)).
      { eapply does_bind; [apply does_logger_warning|]. intros _ _. now apply does_ret. }
      destruct units as [u|]; [|exact A].
      destruct (truthy u); [|exact A].
      destruct u; try apply does_raise.
      destruct (endswith "m" s); [now apply does_ret|].
      destruct (startswith "degrees" s); [now apply does_ret|exact A]. }
  unfold _is_projected, _try_to_get_crs.
  eapply does_bind with (P := fun _ => True).
  - eapply does_bind; [apply does_read|]. intros attrs _.
    eapply does_bind with (P := fun _ => True).
    + destruct (aget attrs "area") as [area|]; [|now apply does_ret].
      assert (A : forall s, does' (logger_warning s ;;; ret None)
                              (fun _ : option crs_like => True)).
      { intros s. eapply does_bind; [apply does_logger_warning|].
        intros _ _. now apply does_ret. }
      destruct area; try apply A.
      destruct a; [apply A|now apply does_ret].
    + intros r _. destruct r; [now apply does_ret|].
      destruct (coords_get nd "crs"); [|now apply does_ret].
      eapply does_bind; [apply does_lift|]. intros c _. now apply does_ret.
  - intros crs _. destruct crs as [[c|z]|]; [now apply does_ret| |exact U].
    destruct (Z.eqb z 0); [exact U|apply does_raise].
Qed.

Lemma does_set_xy_attrs nd k sn u :
  within nd -> does' (set_xy_attrs nd k sn u) (fun _ => True).
Proof.
  intros W. unfold set_xy_attrs. destruct (coords_get nd k) as [v|] eqn:G.
  - destruct (within_coord _ W G) as [Ia Ie].
    eapply does_bind; [apply does_attrs_set; now apply ok_set|]. intros _ _.
    apply does_attrs_set; now apply ok_set.
  - now apply does_ret.
Qed.

Lemma keeps_drop_vars nd k : within nd -> keeps nd (da_drop_vars nd k).
Proof.
  intros (I & E & Ie & C). split; [|split; reflexivity].
  split; [exact I|]. split; [exact E|]. split; [exact Ie|].
  cbn [da_coords da_drop_vars]. intros k' v' H.
  apply In_coords_pop in H. now apply (C k').
Qed.

Lemma does__encode_coords nd : within nd -> does' (_encode_coords nd) (keeps nd).
Proof.
  intros W. unfold _encode_coords.
  destruct (negb _); [apply does_ret; now apply keeps_refl|].
  eapply does_bind; [apply does__is_projected|]. intros p _.
  eapply does_bind with (P := fun nd' => nd' = nd).
  - unfold _encode_xy_coords_projected, _encode_xy_coords_geographic.
    destruct p;
      (eapply does_bind; [now apply does_set_xy_attrs|]; intros _ _;
       eapply does_bind; [now apply does_set_xy_attrs|]; intros _ _;
       now apply does_ret).
  - intros nd' ->. destruct (in_coords "crs" nd); apply does_ret.
    + now apply keeps_drop_vars.
    + now apply keeps_refl.
Qed.

Lemma does__cleanup_attrs nd : within nd -> does' (_cleanup_attrs nd) (fun _ => True).
Proof.
  intros (I & _). unfold _cleanup_attrs.
  eapply does_bind; [apply does_read|]. intros attrs _.
  apply does_for_each. intros [key val] _. cbn [fst snd].
  eapply does_bind with (P := fun _ => True).
  - destruct (negb _); [apply does_attrs_pop; now apply ok_pop|now apply does_ret].
  - intros _ _.
    destruct (_ && _); [apply does_attrs_pop; now apply ok_pop|now apply does_ret].
Qed.

Lemma does_ancillary_names l : does' (ancillary_names l) (fun _ => True).
Proof.
  induction l as [|v l IH]; simpl; [now apply does_ret|].
  destruct v; try apply does_raise.
  eapply does_bind; [apply does_read|]. intros attrs _.
  eapply does_bind; [apply does_of_option|]. intros nm _.
  eapply does_bind; [apply IH|]. intros nms _. now apply does_ret.
Qed.

Lemma does_iter_value v : does' (iter_value v) (fun _ => True).
Proof. destruct v; simpl; try apply does_raise; now apply does_ret. Qed.

Lemma keeps_trans a b c : keeps a b -> keeps b c -> keeps a c.
Proof.
  intros (W1 & N1 & A1) (W2 & N2 & A2).
  split; [exact W2|split; congruence].
Qed.

Lemma does_da2cf_name nd prefix :
  within nd ->
  does' (da2cf_name nd prefix)
    (fun r => within (snd r) /\ da_attrs (snd r) = da_attrs nd
              /\ da_name (snd r) = match fst r with
                                    | Some names => Some (snd names)
                                    | None => da_name nd
                                    end).
Proof.
  intros W. pose proof W as (I & E & Ie & C). unfold da2cf_name.
  eapply does_bind; [apply does_attrs_mem|]. intros has_name _.
  destruct has_name.
  - eapply does_bind; [apply does_attrs_get|]. intros nm _.
    eapply does_bind; [apply does_attrs_pop; now apply ok_pop|]. intros _ _.
    eapply does_bind; [apply does__handle_dataarray_name|]. intros names _.
    apply does_ret. split; [exact W|]. split; reflexivity.
  - apply does_ret. split; [exact W|]. split; reflexivity.
Qed.

(** [da2cf_prepare] writes to the dictionaries of the array it is given
    only, and but for the encoding adds no mapping to any. *)
Lemma does_da2cf_prepare nd epoch exclude_attrs compression :
  within nd ->
  does' (da2cf_prepare nd epoch exclude_attrs compression) (keeps nd).
Proof.
  intros W. pose proof W as (I & E & Ie & C). unfold da2cf_prepare.
  eapply does_bind; [now apply does__remove_satpy_attributes|]. intros _ _.
  eapply does_bind; [now apply does__encode_time|]. intros nd2 K2.
  pose proof K2 as (W2 & N2 & A2).
  eapply does_bind; [now apply does__encode_coords|]. intros nd3 K3.
  pose proof K3 as (W3 & N3 & A3).
  pose proof W3 as (I3 & E3 & _ & C3).
  eapply does_bind.
  { apply does_for_each. intros key _. apply does_attrs_pop. now apply ok_pop. }
  intros _ _.
  eapply does_bind; [apply does_read|]. intros attrs _.
  eapply does_bind; [apply does_iter_value|]. intros ancillary _.
  eapply does_bind; [apply does_ancillary_names|]. intros anc _.
  eapply does_bind with (P := fun _ => True).
  { destruct anc; [now apply does_ret|].
    eapply does_bind; [apply does_lift|]. intros names _.
    apply does_attrs_set. now apply ok_set. }
  intros _ _.
  eapply does_bind; [now apply does__cleanup_attrs|]. intros _ _.
  eapply does_bind with (P := fun _ => True).
  { destruct compression as [c|]; [|now apply does_ret].
    apply does_modify with (f := fun d => dict_update String.eqb d c).
    intros old ND. split.
    - split; [rewrite E3; assumption|]. left. assumption.
    - now apply (NoDup_dict_update _ String.eqb_spec). }
  intros _ _.
  eapply does_bind; [apply does_read|]. intros attrs1 _.
  eapply does_bind with (P := fun _ => True).
  { destruct (_ && _); [|now apply does_ret].
    apply does_attrs_set. apply ok_set; [assumption|].
    now destruct (da_name nd3). }
  intros _ _.
  eapply does_bind; [apply does_read|]. intros attrs2 _.
  eapply does_bind with (P := fun _ => True).
  { destruct (aget attrs2 "prerequisites"); [|now apply does_ret].
    eapply does_bind; [apply does_iter_value|]. intros prereqs _.
    apply does_attrs_set. now apply ok_set. }
  intros _ _. apply does_ret. eapply keeps_trans; eassumption.
Qed.
End Prepare.

Lemma does_store (ok : loc -> attrs_t -> attrs_t -> Prop) l d :
  (forall old, ok l old d) -> NoDup (dict_keys d) ->
  does ok (store l d) (fun _ => True).
Proof. intros H ND w. split; [now apply ch_store|]. auto. Qed.

Lemma encode_attrs_nc_NoDup attrs encoded :
  encode_attrs_nc attrs = Returns encoded -> NoDup (dict_keys encoded).
Proof.
  unfold encode_attrs_nc. destruct (encode_items _); [|discriminate].
  intros H. injection H as <-. apply (NoDup_dict_of_items _ String.eqb_spec).
Qed.

(** The last statements write the attributes of [new_data] and nothing
    else, and return [new_data]. *)
Lemma does_da2cf_finish names nd flatten include_orig prefix :
  does (fun l _ _ => l = da_attrs nd)
    (da2cf_finish names nd flatten include_orig prefix) (fun r => r = nd).
Proof.
  unfold da2cf_finish.
  eapply does_bind with (P := fun _ => True).
  { destruct names as [[o n]|]; [|now apply does_ret].
    destruct (prefix_given prefix); [|now apply does_ret].
    destruct (_ && _); [|now apply does_ret].
    apply does_attrs_set. reflexivity. }
  intros _ _.
  eapply does_bind with (P := fun _ => True).
  { destruct flatten; [|now apply does_ret].
    apply does_modify with (f := flatten_dict). intros old _.
    split; [reflexivity|apply (NoDup_dict_of_items _ String.eqb_spec)]. }
  intros _ _.
  eapply does_bind; [apply does_read|]. intros attrs _.
  eapply does_bind; [apply does_lift|]. intros encoded E.
  eapply does_bind.
  - apply does_store; [reflexivity|]. cbv beta in E.
    eapply encode_attrs_nc_NoDup. exact E.
  - intros _ _. now apply does_ret.
Qed.

(** The addresses of the dictionaries of an array. *)
Definition locs_of (nd : DataArray) : list loc :=
  da_attrs nd :: da_encoding nd
  :: flat_map (fun kv => [v_attrs (snd kv); v_encoding (snd kv)]) (da_coords nd).

Lemma within_locs_of nd : within (locs_of nd) (da_encoding nd) nd.
Proof.
  unfold within, locs_of. split; [now left|]. split; [reflexivity|].
  split; [right; now left|].
  intros k v H. split; right; right; apply in_flat_map; exists (k, v);
    (split; [assumption|simpl; auto]).
Qed.

(** The dictionaries of copied coordinates lie at or above [lo]. *)
Lemma copy_locs_fresh (cs cs' : list (string * Var)) w w' base lo hi :
  Forall2 (copy_of w w' base lo hi) cs cs' ->
  forall l, In l (flat_map (fun kv => [v_attrs (snd kv); v_encoding (snd kv)]) cs') ->
            lo <= l.
Proof.
  induction 1 as [|a b cs cs' H F IH]; simpl; [tauto|].
  destruct H as (_ & _ & _ & [Ha _] & [He _] & _).
  intros l [<-|[<-|I]]; auto.
Qed.

(** C8.  Whatever the array and the options, and whether [da2cf] returns or
    raises, every dictionary that was in the store before the call holds
    afterwards what it held before: the attributes and the encoding of the
    array passed in and of its coordinates, and those of any array its
    attributes refer to.  ([da2cf] works on the dictionaries of the copy,
    which are new; the array itself, its name, dimensions and coordinates,
    is a value that no statement assigns to.) *)
Theorem da2cf_leaves_store dataarray epoch flatten_attrs exclude_attrs
    compression include_orig_name numeric_name_prefix w :
  let w' := snd (da2cf dataarray epoch flatten_attrs exclude_attrs compression
                   include_orig_name numeric_name_prefix w) in
  next w <= next w' /\ forall l, l < next w -> heap w' l = heap w l.
Proof.
  cbv zeta. change (stable (next w) w
    (snd (da2cf dataarray epoch flatten_attrs exclude_attrs compression
            include_orig_name numeric_name_prefix w))).
  destruct (da_copy_spec dataarray w) as (cs' & w1 & E1 & _ & _ & S1 & N1 & _ & _ & F1).
  set (nd := mk_DataArray (da_name dataarray)
               (mk_Var (da_dims dataarray) (v_data (da_var dataarray))
                  (next w) (S (next w))) cs') in *.
  assert (HL : forall l, In l (locs_of nd) -> next w <= l).
  { intros l [<-|[<-|I]]; cbn; try lia.
    pose proof (copy_locs_fresh F1 _ I). lia. }
  assert (Hok : forall l (old new : attrs_t),
             ok_prepare (locs_of nd) (da_encoding nd) l old new -> next w <= l).
  { intros l old new [I _]. now apply HL. }
  assert (Le1 : next w <= next w1) by (destruct S1; assumption).
  unfold da2cf. erewrite bind_step by exact E1.
  pose proof (within_locs_of nd) as W.
  destruct (does_da2cf_name numeric_name_prefix W w1) as [C2 R2].
  pose proof (@change_stable _ _ _ _ Hok C2 Le1) as S2.
  pose proof (change_next C2) as Le2.
  unfold bind at 1.
  destruct (da2cf_name nd numeric_name_prefix w1) as [[named|e] w2];
    cbn [fst snd] in *; [|eapply stable_trans; eauto].
  destruct (R2 _ eq_refl) as (W2 & A2 & _).
  destruct (does_da2cf_prepare epoch exclude_attrs compression W2 w2) as [C3 R3].
  assert (Le12 : next w <= next w2) by lia.
  pose proof (@change_stable _ _ _ _ Hok C3 Le12) as S3.
  pose proof (change_next C3) as Le3.
  unfold bind at 1.
  destruct (da2cf_prepare (snd named) epoch exclude_attrs compression w2)
    as [[nd3|e] w3]; cbn [fst snd] in *;
    [|eapply stable_trans; [exact S1|eapply stable_trans; eauto]].
  destruct (R3 _ eq_refl) as (W3 & _ & A3).
  destruct (does_da2cf_finish (fst named) nd3 flatten_attrs include_orig_name
              numeric_name_prefix w3) as [C4 _].
  assert (Hok4 : forall l (old new : attrs_t), l = da_attrs nd3 -> next w <= l).
  { intros l _ _ ->. rewrite A3, A2. cbn. lia. }
  assert (Le13 : next w <= next w3) by lia.
  pose proof (@change_stable _ _ _ _ Hok4 C4 Le13) as S4.
  eapply stable_trans; [exact S1|]. eapply stable_trans; [exact S2|].
  eapply stable_trans; [exact S3|exact S4].
Qed.

(** *** Names that start with a digit (C4) *)

Lemma length_append (a b : string) :
  String.length (a ++ b) = String.length a + String.length b.
Proof. induction a as [|c a IH]; simpl; [reflexivity|now rewrite IH]. Qed.

Lemma eqb_prepend_false (p nm : string) :
  p <> EmptyString -> String.eqb nm (p ++ nm) = false.
Proof.
  intros Hp. apply String.eqb_neq. intros E.
  apply (f_equal String.length) in E. rewrite length_append in E.
  destruct p; [congruence|]. simpl in E. lia.
Qed.

Lemma prefix_given_nonempty prefix p : prefix_given prefix = Some p -> p <> EmptyString.
Proof.
  destruct prefix as [[|c s]|]; simpl; try discriminate.
  intros H. injection H as <-. discriminate.
Qed.

(** No attribute but [original_name] itself flattens to the key
    [original_name]. *)
Definition entries_ok (attrs : attrs_t) : Prop :=
  forall k v, In (k, v) attrs -> k <> "original_name" ->
              ~ In "original_name" (dict_keys (flatten_value k v)).

Lemma flatten_simple k v : simple v = true -> flatten_value k v = [(k, v)].
Proof. destruct v; simpl; try reflexivity. discriminate. Qed.

Lemma entries_ok_benign old new : entries_ok old -> benign old new -> entries_ok new.
Proof.
  intros H B k v I n. destruct (B k v I) as [I'|S]; [now apply H|].
  rewrite (flatten_simple k _ S). simpl. intros [E|[]]. congruence.
Qed.

Lemma benign_refl d : benign d d.
Proof. intros k v I. now left. Qed.

Lemma benign_trans a b c : benign a b -> benign b c -> benign a c.
Proof.
  intros H1 H2 k v I. destruct (H2 k v I) as [I'|S]; [|now right]. now apply H1.
Qed.

(** Under [ok_prepare] the attributes at an address other than that of the
    encoding gain no mapping. *)
Lemma change_benign L enc l0 w w' :
  l0 <> enc -> change (ok_prepare L enc) w w' -> l0 < next w ->
  benign (cell (heap w) l0) (cell (heap w') l0).
Proof.
  intros Hne. induction 1; intros Hl; simpl; try apply benign_refl.
  - destruct (Nat.eq_dec l l0) as [->|n].
    + rewrite cell_upd_eq by assumption. destruct H as [_ [E|B]]; [congruence|exact B].
    + rewrite cell_upd_ne by congruence. apply benign_refl.
  - rewrite cell_upd_ne by lia. apply benign_refl.
  - pose proof (change_next H). eapply benign_trans; [apply IHchange1; assumption|].
    apply IHchange2. lia.
Qed.

(** **** What the encoding of the attributes keeps *)

Lemma In_insert_item {V} (kv x : string * V) l :
  In x (insert_item kv l) <-> x = kv \/ In x l.
Proof.
  induction l as [|y l IH]; simpl; [intuition|].
  destruct (String.leb (fst kv) (fst y)); simpl; [intuition|].
  rewrite IH. intuition.
Qed.

Lemma In_sorted_items {V} (d : dict string V) x : In x (sorted_items d) <-> In x d.
Proof.
  unfold sorted_items. induction d as [|y d IH]; simpl; [tauto|].
  rewrite In_insert_item, IH. intuition.
Qed.

Lemma NoDup_insert_item {V} (kv : string * V) l :
  NoDup (dict_keys (insert_item kv l)) <-> NoDup (dict_keys (kv :: l)).
Proof.
  induction l as [|y l IH]; simpl; [tauto|].
  destruct (String.leb (fst kv) (fst y)); simpl; [tauto|].
  split; intros H.
  - inversion H as [|? ? N1 N2]; subst. apply IH in N2. simpl in N2.
    inversion N2 as [|? ? M1 M2]; subst.
    constructor.
    + simpl. intros [E|I]; [|contradiction].
      apply N1. unfold dict_keys. apply in_map_iff.
      exists kv. split; [congruence|]. apply In_insert_item. now left.
    + constructor; [|assumption]. intros I. apply N1.
      unfold dict_keys in *. apply in_map_iff in I as (z & Ez & Iz).
      apply in_map_iff. exists z. split; [assumption|].
      apply In_insert_item. now right.
  - inversion H as [|? ? N1 N2]; subst. inversion N2 as [|? ? M1 M2]; subst.
    constructor.
    + intros I. unfold dict_keys in I. apply in_map_iff in I as (z & Ez & Iz).
      apply In_insert_item in Iz as [->|Iz].
      * apply N1. simpl. now left.
      * apply M1. unfold dict_keys. apply in_map_iff. eauto.
    + apply IH. simpl. constructor; [|assumption].
      intros I. apply N1. simpl. now right.
Qed.

Lemma NoDup_sorted_items {V} (d : dict string V) :
  NoDup (dict_keys d) -> NoDup (dict_keys (sorted_items d)).
Proof.
  unfold sorted_items. induction d as [|y d IH]; simpl; [auto|].
  intros H. apply NoDup_insert_item. simpl.
  inversion H as [|? ? N1 N2]; subst. constructor; [|auto].
  intros I. apply N1. unfold dict_keys in *. apply in_map_iff in I as (z & Ez & Iz).
  apply in_map_iff. exists z. split; [assumption|]. now apply In_sorted_items.
Qed.

Lemma encode_nc_str s : encode_nc (VStr s) = Returns (VStr s).
Proof. reflexivity. Qed.

Lemma encode_items_keys items res :
  encode_items items = Returns res ->
  forall k, In k (dict_keys res) -> In k (dict_keys items).
Proof.
  revert res. induction items as [|[k0 v0] items IH]; simpl; intros res H k.
  - injection H as <-. tauto.
  - destruct (is_not_None v0).
    + destruct (encode_nc v0); [|discriminate].
      destruct (encode_items items); [|discriminate].
      injection H as <-. simpl. intros [E|I]; [now left|right; eauto].
    + intros I. right. eauto.
Qed.

Lemma encode_items_NoDup items res :
  encode_items items = Returns res -> NoDup (dict_keys items) -> NoDup (dict_keys res).
Proof.
  revert res. induction items as [|[k0 v0] items IH]; simpl; intros res H ND.
  - injection H as <-. constructor.
  - inversion ND as [|? ? N1 N2]; subst. destruct (is_not_None v0); [|auto].
    destruct (encode_nc v0); [|discriminate].
    destruct (encode_items items) eqn:E; [|discriminate].
    injection H as <-. simpl. constructor; [|auto].
    intros I. apply N1. eapply encode_items_keys; eauto.
Qed.

Lemma encode_items_str items res k s :
  encode_items items = Returns res -> In (k, VStr s) items -> In (k, VStr s) res.
Proof. env_free.
  revert res. induction items as [|[k0 v0] items IH]; simpl; intros res H I; [tauto|].
  destruct I as [E|I].
  - injection E as -> ->. simpl in H.
    destruct (encode_items items); [|discriminate]. injection H as <-. now left.
  - destruct (is_not_None v0); [|auto].
    destruct (encode_nc v0); [|discriminate].
    destruct (encode_items items); [|discriminate].
    injection H as <-. right. auto.
Qed.

(** A string attribute is in the encoded attributes as it is. *)
Lemma encode_attrs_nc_str attrs encoded k s :
  encode_attrs_nc attrs = Returns encoded -> NoDup (dict_keys attrs) ->
  aget attrs k = Some (VStr s) -> aget encoded k = Some (VStr s).
Proof.
  unfold encode_attrs_nc. destruct (encode_items _) as [res|] eqn:E; [|discriminate].
  intros H ND G. injection H as <-.
  pose proof (encode_items_NoDup _ E (NoDup_sorted_items _ ND)) as NDr.
  rewrite (dict_of_items_id _ String.eqb_spec) by assumption.
  apply (In_dict_get _ String.eqb_spec); [assumption|].
  eapply encode_items_str; [exact E|]. apply In_sorted_items.
  now apply (dict_get_In _ String.eqb_spec).
Qed.

(** **** What the flattening keeps *)

Lemma dict_get_app {V} (a b : list (string * V)) k :
  dict_get String.eqb (a ++ b) k =
  match dict_get String.eqb a k with
  | Some v => Some v
  | None => dict_get String.eqb b k
  end.
Proof.
  induction a as [|[k0 v0] a IH]; simpl; [reflexivity|].
  destruct (String.eqb k k0); [reflexivity|apply IH].
Qed.

(** In [dict(items)] a key has the value of its last item. *)
Lemma dict_get_update {V} (e d : list (string * V)) k :
  dict_get String.eqb (dict_update String.eqb d e) k =
  match dict_get String.eqb (List.rev e) k with
  | Some v => Some v
  | None => dict_get String.eqb d k
  end.
Proof.
  unfold dict_update. revert d. induction e as [|[k0 v0] e IH]; intros d; simpl.
  - reflexivity.
  - rewrite IH, dict_get_app. destruct (dict_get String.eqb (List.rev e) k); [reflexivity|].
    simpl. destruct (String.eqb_spec k k0) as [->|n].
    + apply (dict_get_set_eq _ String.eqb_spec).
    + apply (dict_get_set_ne _ String.eqb_spec). congruence.
  Qed.

Lemma dict_of_items_unique {V} (items : list (string * V)) k v :
  In (k, v) items -> (forall v', In (k, v') items -> v' = v) ->
  dict_get String.eqb (dict_of_items String.eqb items) k = Some v.
Proof.
  intros I U. unfold dict_of_items. rewrite dict_get_update.
  destruct (dict_get String.eqb (List.rev items) k) as [v'|] eqn:G.
  - apply (dict_get_In _ String.eqb_spec) in G. apply in_rev in G.
    now rewrite (U _ G).
  - exfalso. apply (dict_get_None _ String.eqb_spec) in G. apply G.
    unfold dict_keys. apply in_map_iff. exists (k, v). split; [reflexivity|].
    now apply in_rev in I.
Qed.

Lemma flatten_dict_original_name attrs nm :
  NoDup (dict_keys attrs) -> entries_ok attrs ->
  aget attrs "original_name" = Some (VStr nm) ->
  aget (flatten_dict attrs) "original_name" = Some (VStr nm).
Proof.
  intros ND Ok G. unfold flatten_dict, aget in *.
  pose proof (dict_get_In _ String.eqb_spec _ _ G) as I.
  apply dict_of_items_unique.
  - apply in_flat_map. exists ("original_name", VStr nm). split; [assumption|].
    simpl. now left.
  - intros v' Iv. apply in_flat_map in Iv as ([k0 v0] & I0 & If). simpl in If.
    destruct (String.eqb_spec k0 "original_name") as [->|n].
    + rewrite (In_dict_get _ String.eqb_spec _ _ _ ND I0) in G.
      injection G as ->. simpl in If. destruct If as [E|[]]. congruence.
    + exfalso. apply (Ok k0 v0 I0 n). unfold dict_keys. apply in_map_iff.
      exists ("original_name", v'). auto.
Qed.

(** **** The naming, on a name that starts with a digit *)

Lemma attrs_mem_run l k w : attrs_mem l k w = (Returns (amem (cell (heap w) l) k), w).
Proof. reflexivity. Qed.

Lemma attrs_get_run l k w : attrs_get l k w = (Returns (aget (cell (heap w) l) k), w).
Proof. reflexivity. Qed.

Lemma attrs_pop_run l k w :
  attrs_pop l k w
  = (Returns tt, mk_World (upd (heap w) l (apop (cell (heap w) l) k))
                   (next w) (warns w) (logged w)).
Proof. reflexivity. Qed.

Lemma attrs_set_run l k v w :
  attrs_set l k v w
  = (Returns tt, mk_World (upd (heap w) l (aset (cell (heap w) l) k v))
                   (next w) (warns w) (logged w)).
Proof. reflexivity. Qed.

Lemma da2cf_name_digit nd prefix w nm c :
  aget (cell (heap w) (da_attrs nd)) "name" = Some (VStr nm) ->
  head_char nm = Some c -> isdigit c = true ->
  let new_name := match prefix_given prefix with
                  | Some p => (p ++ nm)%string
                  | None => nm
                  end in
  exists w1,
    da2cf_name nd prefix w
      = (Returns (Some (nm, new_name), da_rename nd (Some new_name)), w1)
    /\ next w1 = next w
    /\ cell (heap w1) (da_attrs nd) = apop (cell (heap w) (da_attrs nd)) "name"
    /\ (prefix_given prefix = None -> In (invalid_name_msg nm) (warns w1)).
Proof.
  intros G Hc Hd new_name. subst new_name.
  assert (Hmem : amem (cell (heap w) (da_attrs nd)) "name" = true).
  { unfold amem, dict_mem. unfold aget in G. now rewrite G. }
  set (w0 := mk_World (upd (heap w) (da_attrs nd)
                         (apop (cell (heap w) (da_attrs nd)) "name"))
                      (next w) (warns w) (logged w)).
  assert (C0 : cell (heap w0) (da_attrs nd) = apop (cell (heap w) (da_attrs nd)) "name").
  { apply cell_upd_eq. apply NoDup_apop, cell_NoDup. }
  unfold da2cf_name.
  rewrite (bind_step _ _ w (attrs_mem_run (da_attrs nd) "name" w)). rewrite Hmem.
  rewrite (bind_step _ _ w (attrs_get_run (da_attrs nd) "name" w)). rewrite G.
  rewrite (bind_step _ _ w (attrs_pop_run (da_attrs nd) "name" w)). fold w0.
  unfold _handle_dataarray_name. rewrite Hc. cbn [of_option].
  destruct (prefix_given prefix) as [p|].
  - exists w0. split.
    { unfold bind at 1. unfold bind at 1. unfold ret at 1. rewrite Hd. reflexivity. }
    split; [reflexivity|]. split; [exact C0|discriminate].
  - exists (mk_World (heap w0) (next w0) (warns w0 ++ [invalid_name_msg nm]) (logged w0)).
    split.
    { unfold bind at 1. unfold bind at 1. unfold ret at 1. rewrite Hd. reflexivity. }
    cbn [heap next warns logged]. split; [reflexivity|]. split; [exact C0|].
    intros _. apply in_or_app. right. now left.
Qed.

(** **** The last statements, when they return *)

Definition with_original_name (names : option (string * string))
    (include_orig_name : bool) (numeric_name_prefix : option string)
    (attrs : attrs_t) : attrs_t :=
  match names, prefix_given numeric_name_prefix with
  | Some (original_name, nm), Some _ =>
      if include_orig_name && negb (String.eqb original_name nm)
      then aset attrs "original_name" (VStr original_name)
      else attrs
  | _, _ => attrs
  end.

Lemma with_original_name_NoDup names include_orig prefix attrs :
  NoDup (dict_keys attrs) ->
  NoDup (dict_keys (with_original_name names include_orig prefix attrs)).
Proof.
  intros ND. unfold with_original_name.
  destruct names as [[o n]|]; [|assumption].
  destruct (prefix_given prefix); [|assumption].
  destruct (_ && _); [now apply NoDup_aset|assumption].
Qed.

Lemma flatten_dict_NoDup attrs : NoDup (dict_keys (flatten_dict attrs)).
Proof. apply (NoDup_dict_of_items _ String.eqb_spec). Qed.

Lemma da2cf_finish_spec names nd flatten include_orig prefix w r w' :
  da2cf_finish names nd flatten include_orig prefix w = (Returns r, w') ->
  let attrs := with_original_name names include_orig prefix
                 (cell (heap w) (da_attrs nd)) in
  r = nd /\ warns w' = warns w
  /\ encode_attrs_nc (if flatten then flatten_dict attrs else attrs)
     = Returns (cell (heap w') (da_attrs nd)).
Proof.
  intros H attrs. unfold da2cf_finish in H.
  assert (E1 : exists w1,
             (match names, prefix_given prefix with
              | Some (original_name, nm), Some _ =>
                  if include_orig && negb (String.eqb original_name nm)
                  then attrs_set (da_attrs nd) "original_name" (VStr original_name)
                  else ret tt
              | _, _ => ret tt
              end) w = (Returns tt, w1)
             /\ warns w1 = warns w /\ cell (heap w1) (da_attrs nd) = attrs).
  { subst attrs. unfold with_original_name.
    assert (R : exists w1, ret tt w = (Returns tt, w1) /\ warns w1 = warns w
                           /\ cell (heap w1) (da_attrs nd) = cell (heap w) (da_attrs nd))
      by (exists w; auto).
    destruct names as [[o n]|]; [|exact R].
    destruct (prefix_given prefix); [|exact R].
    destruct (_ && _); [|exact R].
    eexists. split; [reflexivity|]. cbn [heap next warns logged snd].
    split; [reflexivity|]. apply cell_upd_eq. apply NoDup_aset, cell_NoDup. }
  destruct E1 as (w1 & E1 & W1 & C1). erewrite bind_step in H by exact E1.
  assert (ND : NoDup (dict_keys attrs)).
  { rewrite <- C1. apply cell_NoDup. }
  assert (E2 : exists w2,
             (if flatten
              then attrs0 <- read (da_attrs nd) ;;
                   store (da_attrs nd) (flatten_dict attrs0)
              else ret tt) w1 = (Returns tt, w2)
             /\ warns w2 = warns w1
             /\ cell (heap w2) (da_attrs nd)
                = if flatten then flatten_dict attrs else attrs).
  { destruct flatten.
    - eexists. split; [reflexivity|]. cbn [heap next warns logged snd].
      split; [reflexivity|]. rewrite C1. apply cell_upd_eq, flatten_dict_NoDup.
    - exists w1. auto. }
  destruct E2 as (w2 & E2 & W2 & C2). erewrite bind_step in H by exact E2.
  unfold bind at 1 in H. unfold read at 1 in H. rewrite C2 in H.
  unfold bind at 1 in H. unfold lift at 1 in H.
  destruct (encode_attrs_nc _) as [encoded|e] eqn:E3; [|discriminate].
  unfold bind, store, ret in H. injection H as <- <-.
  cbn [heap next warns logged]. split; [reflexivity|]. split; [congruence|].
  f_equal. symmetry. apply cell_upd_eq. eapply encode_attrs_nc_NoDup; eauto.
Qed.

(** C4, amended.  An array whose [name] attribute starts with a digit, and
    for which [da2cf] returns: if a numeric name prefix is configured, the
    name of the returned variable is the prefix followed by the original
    name, and if the original name is to be kept, the attribute
    [original_name] of the returned variable is the original name provided
    that the attributes are not flattened or that no other attribute
    flattens to the key [original_name]; if no prefix is configured, the
    name is unchanged and the warning has been emitted. *)
Theorem da2cf_numeric_name dataarray epoch flatten_attrs exclude_attrs compression
    include_orig_name numeric_name_prefix w r w' nm c :
  aget (cell (heap w) (da_attrs dataarray)) "name" = Some (VStr nm) ->
  head_char nm = Some c -> isdigit c = true ->
  da2cf dataarray epoch flatten_attrs exclude_attrs compression
    include_orig_name numeric_name_prefix w = (Returns r, w') ->
  match prefix_given numeric_name_prefix with
  | Some p =>
      da_name r = Some (p ++ nm)%string
      /\ (include_orig_name = true ->
          flatten_attrs = false
          \/ entries_ok (cell (heap w) (da_attrs dataarray)) ->
          aget (cell (heap w') (da_attrs r)) "original_name" = Some (VStr nm))
  | None =>
      da_name r = Some nm /\ In (invalid_name_msg nm) (warns w')
  end.
Proof.
  intros G Hc Hd H.
  destruct (da_copy_spec dataarray w)
    as (cs' & w1 & E1 & W1 & L1 & S1 & N1 & A1 & _ & F1).
  unfold da2cf in H. erewrite bind_step in H by exact E1.
  set (nd := mk_DataArray (da_name dataarray)
               (mk_Var (da_dims dataarray) (v_data (da_var dataarray))
                  (next w) (S (next w))) cs') in *.
  assert (G1 : aget (cell (heap w1) (da_attrs nd)) "name" = Some (VStr nm)).
  { change (da_attrs nd) with (next w). now rewrite A1. }
  destruct (da2cf_name_digit nd numeric_name_prefix w1 G1 Hc Hd)
    as (w2 & E2 & N2 & C2 & Wn).
  erewrite bind_step in H by exact E2. cbn [fst snd] in H.
  set (new_name := match prefix_given numeric_name_prefix with
                   | Some p => (p ++ nm)%string
                   | None => nm
                   end) in *.
  set (nd2 := da_rename nd (Some new_name)) in *.
  apply bind_inv in H as [(nd3 & w3 & E3 & H)|(e & _ & Hr)]; [|discriminate].
  destruct (does_da2cf_prepare (L := locs_of nd2) (enc := da_encoding nd2)
              epoch exclude_attrs compression (within_locs_of nd2) w2) as [Ch K].
  rewrite E3 in Ch, K. cbn [fst snd] in Ch, K.
  destruct (K nd3 eq_refl) as (W3 & Nm3 & At3).
  apply da2cf_finish_spec in H as (-> & Ww & Enc).
  change (da_name nd2) with (Some new_name) in Nm3.
  change (da_attrs nd2) with (next w) in At3.
  change (da_attrs nd) with (next w) in C2.
  assert (B : benign (cell (heap w) (da_attrs dataarray)) (cell (heap w3) (next w))).
  { rewrite <- A1. eapply benign_trans; [apply benign_apop with (k := "name")|].
    rewrite <- C2. apply (@change_benign (locs_of nd2) (da_encoding nd2)).
    - change (da_encoding nd2) with (S (next w)). lia.
    - exact Ch.
    - lia. }
  subst new_name. destruct (prefix_given numeric_name_prefix) as [p|] eqn:Hp.
  - split; [exact Nm3|]. intros -> Hflat.
    rewrite At3 in Enc |- *. unfold with_original_name in Enc. rewrite Hp in Enc.
    rewrite (eqb_prepend_false nm (prefix_given_nonempty _ Hp)) in Enc.
    cbn [andb negb] in Enc.
    set (attrs := aset (cell (heap w3) (next w)) "original_name" (VStr nm)) in *.
    assert (ND : NoDup (dict_keys attrs)) by apply NoDup_aset, cell_NoDup.
    assert (Ga : aget attrs "original_name" = Some (VStr nm))
      by apply (dict_get_set_eq _ String.eqb_spec).
    destruct flatten_attrs.
    + destruct Hflat as [Hf|Hok]; [discriminate|].
      apply (encode_attrs_nc_str _ _ Enc (flatten_dict_NoDup attrs)).
      apply flatten_dict_original_name; [exact ND| |exact Ga].
      apply (entries_ok_benign Hok). eapply benign_trans; [exact B|].
      now apply benign_aset.
    + now apply (encode_attrs_nc_str _ _ Enc ND).
  - split; [exact Nm3|]. rewrite Ww.
    destruct (change_warns Ch) as (ws & ->). apply in_or_app. left. now apply Wn.
Qed.

(** *** Declared coordinates (C6) *)































(** *** Alternative coordinates (C5) *)

(** The name an alternative coordinate [k] of the array named [n] gets. *)
Definition alt_name (n : name) (k : string) : string :=
  (name_str n ++ "_" ++ k)%string.

Lemma alt_name_diff n k : String.eqb k (alt_name n k) = false.
Proof.
  apply String.eqb_neq. intros E. apply (f_equal String.length) in E.
  unfold alt_name in E. rewrite !length_append in E. simpl in E. lia.
Qed.

(** The name of the coordinate [k] once the coordinates [P] are renamed. *)
Definition prefixed (P : list string) (n : name) (k : string) : string :=
  if str_in k P then alt_name n k else k.

Lemma in_coords_In k d : in_coords k d = true <-> In k (map fst (da_coords d)).
Proof.
  unfold in_coords, dict_mem.
  pose proof (dict_get_None _ String.eqb_spec (da_coords d) k) as N.
  unfold dict_keys in N. destruct (dict_get String.eqb (da_coords d) k).
  - split; [|reflexivity]. intros _.
    destruct (in_dec string_dec k (map fst (da_coords d))) as [I|I]; [assumption|].
    apply N in I. discriminate I.
  - split; [discriminate|]. intros I. now apply N in I.
Qed.

(** [cur] is [d] with the coordinates [P] renamed. *)
Definition renamed_so_far (P : list string) (n : name) (d cur : DataArray) : Prop :=
  da_name cur = da_name d
  /\ map fst (da_coords cur) = map (prefixed P n) (map fst (da_coords d))
  /\ map (fun kv => v_data (snd kv)) (da_coords cur)
     = map (fun kv => v_data (snd kv)) (da_coords d)
  /\ v_data (da_var cur) = v_data (da_var d)
  /\ (forall p k, In p P -> in_coords p d = true -> in_coords k d = true ->
                  ~ In k P -> alt_name n p <> k).

Lemma renamed_so_far_nil n d : renamed_so_far [] n d d.
Proof.
  split; [reflexivity|]. split.
  { unfold prefixed. simpl. now rewrite map_id. }
  split; [reflexivity|]. split; [reflexivity|]. intros p k [].
Qed.

Lemma renamed_so_far_skip P n d cur k :
  renamed_so_far P n d cur -> in_coords k d = false ->
  renamed_so_far (k :: P) n d cur.
Proof.
  intros (Nm & Ks & Ds & Dv & Hi) Hk.
  split; [exact Nm|]. split.
  { rewrite Ks. apply map_ext_in. intros k0 I0. unfold prefixed. simpl.
    destruct (String.eqb_spec k0 k) as [->|ne]; [|reflexivity].
    apply in_coords_In in I0. congruence. }
  split; [exact Ds|]. split; [exact Dv|].
  intros p k' [<-|Ip] Hp Hk' Nk'; [congruence|].
  apply Hi; try assumption. intros I. apply Nk'. now right.
Qed.

Lemma renamed_so_far_step P n d cur cur' k :
  renamed_so_far P n d cur -> in_coords k d = true -> ~ In k P ->
  da_rename_coord cur k (alt_name n k) = Returns cur' ->
  renamed_so_far (k :: P) n d cur'.
Proof.
  intros (Nm & Ks & Ds & Dv & Hi) Hk Nk H. unfold da_rename_coord in H.
  destruct (negb (in_coords k cur || in_dims k cur)); [discriminate H|].
  rewrite alt_name_diff in H.
  destruct (in_coords (alt_name n k) cur || in_dims (alt_name n k) cur) eqn:Hnew;
    [discriminate H|].
  injection H as <-. apply orb_false_iff in Hnew as [Hnew _].
  assert (Fresh : ~ In (alt_name n k) (map (prefixed P n) (map fst (da_coords d)))).
  { rewrite <- Ks. intros I. apply in_coords_In in I. congruence. }
  split; [exact Nm|]. split.
  { cbn [da_coords]. rewrite map_map. cbn [fst].
    rewrite <- (map_map fst (fun k0 => if String.eqb k0 k then alt_name n k else k0)).
    rewrite Ks, map_map. apply map_ext_in. intros k0 I0.
    assert (H0 : in_coords k0 d = true) by now apply in_coords_In.
    unfold prefixed. simpl. destruct (str_in k0 P) eqn:E0.
    - rewrite orb_true_r. apply str_in_In in E0.
      destruct (String.eqb_spec (alt_name n k0) k) as [E|_]; [|reflexivity].
      now elim (Hi k0 k E0 H0 Hk Nk).
    - rewrite orb_false_r. now destruct (String.eqb_spec k0 k) as [->|]. }
  split. { cbn [da_coords]. rewrite map_map. cbn [snd rename_var_dims v_data]. exact Ds. }
  split; [exact Dv|].
  intros p k' [<-|Ip] Hp Hk' Nk'.
  - intros E. apply Fresh. rewrite E. apply in_map_iff. exists k'. split.
    + unfold prefixed. destruct (str_in k' P) eqn:E'; [|reflexivity].
      apply str_in_In in E'. elim Nk'. now right.
    + now apply in_coords_In.
  - apply Hi; try assumption. intros I. apply Nk'. now right.
Qed.

Lemma prepend_name_spec k nd n d w nd1 w1 :
  prepend_name k nd (n, d) w = (Returns nd1, w1) ->
  w1 = w /\ dict_keys nd1 = dict_keys nd
  /\ (forall m, m <> n -> dget nd1 m = dget nd m)
  /\ if in_coords k d
     then exists cur cur',
            dget nd n = Some cur
            /\ da_rename_coord cur k (alt_name n k) = Returns cur'
            /\ dget nd1 n = Some cur'
     else dget nd1 n = dget nd n.
Proof.
  unfold prepend_name. cbn [fst snd]. fold (alt_name n k).
  destruct (in_coords k d).
  - destruct (dget nd n) as [cur|] eqn:Hc; cbn [of_option];
      [|unfold bind, raise; discriminate].
    unfold bind, ret, lift.
    destruct (da_rename_coord cur k (alt_name n k)) as [cur'|e] eqn:Hr;
      [|discriminate].
    intros H. injection H as <- <-. split; [reflexivity|]. split.
    { unfold dset, dget in *. rewrite (dict_keys_set _ name_eqb_spec).
      unfold dict_mem. now rewrite Hc. }
    split. { intros m ne. unfold dset, dget.
             apply (dict_get_set_ne _ name_eqb_spec). congruence. }
    exists cur, cur'. split; [reflexivity|]. split; [exact Hr|].
    unfold dset, dget. apply (dict_get_set_eq _ name_eqb_spec).
  - unfold ret. intros H. injection H as <- <-. auto.
Qed.

(** The inner loop renames the coordinate [k] of every array that has it. *)
Lemma prepend_name_loop k items :
  forall nd w nd' w',
    NoDup (map fst items) ->
    for_fold items nd (prepend_name k) w = (Returns nd', w') ->
    w' = w /\ dict_keys nd' = dict_keys nd
    /\ forall m,
         (forall d, In (m, d) items -> in_coords k d = true ->
                    exists cur cur',
                      dget nd m = Some cur
                      /\ da_rename_coord cur k (alt_name m k) = Returns cur'
                      /\ dget nd' m = Some cur')
         /\ ((forall d, In (m, d) items -> in_coords k d = false) ->
             dget nd' m = dget nd m).
Proof.
  induction items as [|[n d] items IH]; intros nd w nd' w' ND H.
  - simpl in H. unfold ret in H. injection H as <- <-.
    split; [reflexivity|]. split; [reflexivity|]. intros m.
    split; [intros d []|reflexivity].
  - simpl in H. apply bind_inv in H as [(nd1 & w1 & E1 & H)|(e & _ & X)];
      [|discriminate X].
    apply prepend_name_spec in E1 as (-> & K1 & O1 & S1).
    inversion ND as [|? ? Nn ND']; subst.
    destruct (IH _ _ _ _ ND' H) as (-> & K2 & P2).
    split; [reflexivity|]. split; [congruence|]. intros m. split.
    + intros d0 [E|I] Hin.
      * injection E as <- <-. rewrite Hin in S1.
        destruct S1 as (cur & cur' & Hc & Hr & Hc').
        exists cur, cur'. split; [exact Hc|]. split; [exact Hr|].
        rewrite <- Hc'. apply P2. intros d1 I1. elim Nn.
        change n with (fst (n, d1)). now apply in_map.
      * assert (ne : m <> n).
        { intros ->. apply Nn. change n with (fst (n, d0)). now apply in_map. }
        destruct (P2 m) as [Pa _].
        destruct (Pa d0 I Hin) as (cur & cur' & Hc & Hr & Hc').
        exists cur, cur'. rewrite <- (O1 m ne). auto.
    + intros Hall. destruct (P2 m) as [_ Pb].
      rewrite Pb by (intros d0 I0; apply Hall; now right).
      destruct (name_eqb_spec m n) as [->|ne]; [|now apply O1].
      rewrite (Hall d (or_introl eq_refl)) in S1. exact S1.
Qed.

(** The state of the outer loop once the coordinates [P] are through. *)
Definition all_renamed (P : list string) (datas nd : dict name DataArray) : Prop :=
  dict_keys nd = dict_keys datas
  /\ forall n d, dget datas n = Some d ->
                 exists cur, dget nd n = Some cur /\ renamed_so_far P n d cur.

Lemma all_renamed_cons P datas nd nd' k w w' :
  NoDup (dict_keys datas) -> ~ In k P ->
  all_renamed P datas nd ->
  for_fold datas nd (prepend_name k) w = (Returns nd', w') ->
  all_renamed (k :: P) datas nd'.
Proof.
  intros ND Nk [K A] H.
  destruct (@prepend_name_loop k datas nd w nd' w' ND H) as (_ & K' & Pm).
  split; [congruence|]. intros n d Hd.
  destruct (A n d Hd) as (cur & Hc & R). destruct (Pm n) as [Pa Pb].
  pose proof (dict_get_In _ name_eqb_spec _ _ Hd) as I.
  destruct (in_coords k d) eqn:Hin.
  - destruct (Pa d I Hin) as (cur0 & cur' & Hc0 & Hr & Hc').
    rewrite Hc in Hc0. injection Hc0 as <-.
    exists cur'. split; [exact Hc'|]. eapply renamed_so_far_step; eauto.
  - exists cur. split.
    + rewrite Pb; [exact Hc|]. intros d0 I0.
      pose proof (In_dict_get _ name_eqb_spec _ _ _ ND I0) as Hd0.
      unfold dget in Hd. rewrite Hd in Hd0. now injection Hd0 as <-.
    + now apply renamed_so_far_skip.
Qed.

(** **** The fingerprints that are collected *)

(** [tokens] holds, by coordinate name, the fingerprints that [occ] gives:
    every set without repetition, and none empty. *)
Definition holds (occ : string -> string -> Prop)
    (tokens : dict string (list string)) : Prop :=
  NoDup (dict_keys tokens)
  /\ forall k, match dict_get String.eqb tokens k with
               | Some ts => NoDup ts /\ ts <> [] /\ forall t, In t ts <-> occ k t
               | None => forall t, ~ occ k t
               end.

Lemma holds_ext (occ occ' : string -> string -> Prop) tokens :
  (forall k t, occ k t <-> occ' k t) -> holds occ tokens -> holds occ' tokens.
Proof.
  intros E [ND H]. split; [exact ND|]. intros k. specialize (H k).
  destruct (dict_get String.eqb tokens k) as [ts|].
  - destruct H as (N & Ne & I). split; [exact N|]. split; [exact Ne|].
    intros t. now rewrite I.
  - intros t. now rewrite <- E.
Qed.

Lemma holds_add_token occ tokens k t :
  holds occ tokens ->
  holds (fun k' t' => occ k' t' \/ (k' = k /\ t' = t)) (add_token tokens k t).
Proof. env_free.
  intros [ND H]. unfold add_token.
  pose proof (H k) as Hk. destruct (dict_get String.eqb tokens k) as [ts|] eqn:G.
  - destruct Hk as (N & Ne & I). split; [now apply (NoDup_dict_set _ String.eqb_spec)|].
    intros k'. destruct (String.eqb_spec k k') as [<-|ne].
    + rewrite (dict_get_set_eq _ String.eqb_spec).
      split; [now apply set_add_NoDup|]. split.
      { intros E. assert (X : In t (set_add t ts)) by (apply set_add_In; now left).
        rewrite E in X. exact X. }
      intros t'. rewrite set_add_In, I. intuition.
    + rewrite (dict_get_set_ne _ String.eqb_spec) by assumption.
      specialize (H k'). destruct (dict_get String.eqb tokens k') as [ts'|].
      * destruct H as (N' & Ne' & I'). split; [exact N'|]. split; [exact Ne'|].
        intros t'. rewrite I'. intuition congruence.
      * intros t' [X|[X _]]; [now apply (H t')|congruence].
  - split; [now apply (NoDup_dict_set _ String.eqb_spec)|].
    intros k'. destruct (String.eqb_spec k k') as [<-|ne].
    + rewrite (dict_get_set_eq _ String.eqb_spec).
      split; [repeat constructor; simpl; tauto|]. split; [discriminate|].
      intros t'. simpl. split.
      * intros [<-|[]]. now right.
      * intros [X|[_ ->]]; [now elim (Hk t')|now left].
    + rewrite (dict_get_set_ne _ String.eqb_spec) by assumption.
      specialize (H k'). destruct (dict_get String.eqb tokens k') as [ts'|].
      * destruct H as (N' & Ne' & I'). split; [exact N'|]. split; [exact Ne'|].
        intros t'. rewrite I'. intuition congruence.
      * intros t' [X|[X _]]; [now apply (H t')|congruence].
Qed.

(** The coordinate [cv] of [dataset] is an alternative coordinate named [k]
    with the fingerprint [t]. *)
Definition alt_coord (h : loc -> list (string * value)) (dataset : DataArray)
    (cv : string * Var) (k t : string) : Prop :=
  fst cv = k
  /\ dataset_is_projection_coords h (v_attrs (snd cv)) = false
  /\ in_dims (fst cv) dataset = false
  /\ t = tokenize (v_data (snd cv)).

(** Some array of the group has an alternative coordinate [k] with the
    fingerprint [t]. *)
Definition occurs (h : loc -> list (string * value)) (datas : dict name DataArray)
    (k t : string) : Prop :=
  exists dataset cv,
    In dataset (dict_values datas) /\ In cv (da_coords dataset)
    /\ alt_coord h dataset cv k t.

Lemma holds_coords h dataset cs :
  forall occ tokens,
    holds occ tokens ->
    holds (fun k t => occ k t \/ exists cv, In cv cs /\ alt_coord h dataset cv k t)
      (fold_left
         (fun tokens cv =>
            if negb (dataset_is_projection_coords h (v_attrs (snd cv)))
               && negb (in_dims (fst cv) dataset)
            then add_token tokens (fst cv) (tokenize (v_data (snd cv)))
            else tokens)
         cs tokens).
Proof.
  induction cs as [|cv cs IH]; intros occ tokens H; simpl.
  - eapply holds_ext; [|exact H]. intros k t. split; [auto|].
    intros [X|(cv & [] & _)]. exact X.
  - destruct (dataset_is_projection_coords h (v_attrs (snd cv))) eqn:Ep;
      [|destruct (in_dims (fst cv) dataset) eqn:Ed]; cbn [negb andb].
    + eapply holds_ext; [|apply IH, H]. intros k t. split.
      * intros [X|(cv' & I & A)]; eauto.
      * intros [X|(cv' & [<-|I] & A)]; eauto.
        destruct A as (_ & A & _). congruence.
    + eapply holds_ext; [|apply IH, H]. intros k t. split.
      * intros [X|(cv' & I & A)]; eauto.
      * intros [X|(cv' & [<-|I] & A)]; eauto.
        destruct A as (_ & _ & A & _). congruence.
    + eapply holds_ext; [|apply IH, holds_add_token, H]. intros k t. split.
      * intros [[X|[-> ->]]|(cv' & I & A)]; eauto.
        right. exists cv. split; [now left|]. repeat split; assumption.
      * intros [X|(cv' & [<-|I] & A)]; eauto.
        left. right. destruct A as (A1 & _ & _ & A4). auto.
Qed.

Lemma holds_alt_tokens h datas : holds (occurs h datas) (alt_tokens h datas).
Proof.
  unfold alt_tokens, occurs.
  assert (G : forall ds occ tokens,
             holds occ tokens ->
             holds (fun k t => occ k t
                               \/ exists dataset cv,
                                    In dataset ds /\ In cv (da_coords dataset)
                                    /\ alt_coord h dataset cv k t)
               (fold_left
                  (fun tokens dataset =>
                     fold_left
                       (fun tokens cv =>
                          if negb (dataset_is_projection_coords h (v_attrs (snd cv)))
                             && negb (in_dims (fst cv) dataset)
                          then add_token tokens (fst cv) (tokenize (v_data (snd cv)))
                          else tokens)
                       (da_coords dataset) tokens)
                  ds tokens)).
  { induction ds as [|d ds IH]; intros occ tokens H; simpl.
    - eapply holds_ext; [|exact H]. intros k t. split; [auto|].
      intros [X|(d & cv & [] & _)]. exact X.
    - eapply holds_ext; [|apply IH, holds_coords, H]. intros k t. split.
      + intros [[X|(cv & I & A)]|(d' & cv & I & Ic & A)]; eauto 8.
      + intros [X|(d' & cv & [<-|I] & Ic & A)]; eauto 8. }
  eapply holds_ext; [|apply (G (dict_values datas) (fun _ _ => False) [])].
  - intros k t. split; [intros [[]|X]; exact X|auto].
  - split; [constructor|]. intros k. simpl. auto.
Qed.

Lemma prepend_names_loop datas pretty cus :
  forall P nd w nd' w',
    NoDup (dict_keys datas) -> NoDup (map fst cus) ->
    (forall k, In k (map fst cus) -> ~ In k P) ->
    all_renamed P datas nd ->
    for_fold cus nd (prepend_names datas pretty) w = (Returns nd', w') ->
    exists P',
      all_renamed P' datas nd'
      /\ forall k, In k P' <->
                   In k P \/ exists u, In (k, u) cus /\ negb pretty || negb u = true.
Proof.
  induction cus as [|[k u] cus IH]; intros P nd w nd' w' ND NDc Fr A H.
  - simpl in H. unfold ret in H. injection H as <- <-. exists P.
    split; [exact A|]. intros k. split; [auto|]. intros [X|(u & [] & _)]. exact X.
  - simpl in H. apply bind_inv in H as [(nd1 & w1 & E1 & H)|(e & _ & X)];
      [|discriminate X].
    inversion NDc as [|? ? Nk NDc']; subst.
    unfold prepend_names in E1. cbn [fst snd] in E1.
    destruct (negb pretty || negb u) eqn:Q.
    + apply bind_inv in E1 as [(x & w0 & _ & E1)|(e & _ & X)]; [|discriminate X].
      assert (A1 : all_renamed (k :: P) datas nd1).
      { eapply all_renamed_cons; eauto. apply Fr. now left. }
      assert (Fr1 : forall k0, In k0 (map fst cus) -> ~ In k0 (k :: P)).
      { intros k0 I0 [<-|X]; [contradiction|]. apply (Fr k0); [now right|exact X]. }
      destruct (IH (k :: P) _ _ _ _ ND NDc' Fr1 A1 H) as (P' & A' & I').
      exists P'. split; [exact A'|]. intros k0. rewrite I'. split.
      * intros [[<-|X]|(u0 & I0 & Q0)]; eauto.
        -- right. exists u. split; [now left|exact Q].
        -- right. exists u0. split; [now right|exact Q0].
      * intros [X|(u0 & [E|I0] & Q0)].
        -- left. now right.
        -- injection E as <- <-. left. now left.
        -- right. eauto.
    + unfold ret in E1. injection E1 as <- <-.
      assert (Fr1 : forall k0, In k0 (map fst cus) -> ~ In k0 P).
      { intros k0 I0. apply Fr. now right. }
      destruct (IH P _ _ _ _ ND NDc' Fr1 A H) as (P' & A' & I').
      exists P'. split; [exact A'|]. intros k0. rewrite I'. split.
      * intros [X|(u0 & I0 & Q0)]; eauto. right. exists u0. split; [now right|exact Q0].
      * intros [X|(u0 & [E|I0] & Q0)]; eauto.
        injection E as <- <-. congruence.
Qed.

Lemma single_iff (l : list string) :
  NoDup l -> l <> [] ->
  (negb (Nat.eqb (length l) 1) = true <-> exists a b, In a l /\ In b l /\ a <> b).
Proof.
  intros ND Ne. rewrite <- (more_than_one ND).
  destruct l as [|a [|b l]]; simpl; [congruence| |]; split; auto; discriminate.
Qed.

(** C5.  When [make_alt_coords_unique] returns, there is a set [P] of
    coordinate names such that: [P] holds the names of the alternative
    coordinates of the group (neither a dimension nor a longitude or
    latitude of their array) whose fingerprints differ between two arrays,
    and if [pretty] is off all names of alternative coordinates; the
    group has the same arrays under the same names, with the same data; and
    in every array every coordinate whose name is in [P] has the name of
    the array and an underscore in front, every other coordinate the name
    it had. *)
Theorem make_alt_coords_unique_spec datas pretty w new_datas w' :
  NoDup (dict_keys datas) ->
  make_alt_coords_unique datas pretty w = (Returns new_datas, w') ->
  exists P : list string,
    (forall k,
        In k P <->
        (exists t, occurs (heap w) datas k t)
        /\ (pretty = false
            \/ exists t1 t2, occurs (heap w) datas k t1
                             /\ occurs (heap w) datas k t2 /\ t1 <> t2))
    /\ dict_keys new_datas = dict_keys datas
    /\ forall n d,
         dget datas n = Some d ->
         exists d',
           dget new_datas n = Some d'
           /\ da_name d' = da_name d
           /\ map fst (da_coords d')
              = map (fun k => if str_in k P then alt_name n k else k)
                    (map fst (da_coords d))
           /\ map (fun kv => v_data (snd kv)) (da_coords d')
              = map (fun kv => v_data (snd kv)) (da_coords d)
           /\ v_data (da_var d') = v_data (da_var d).
Proof.
  intros ND H. unfold make_alt_coords_unique in H.
  rewrite (bind_step _ _ w (eq_refl : get_heap w = (Returns (heap w), w))) in H.
  pose proof (holds_alt_tokens (heap w) datas) as [NDt Ht].
  set (tokens := alt_tokens (heap w) datas) in *.
  set (cus := map (fun ct => (fst ct, Nat.eqb (length (snd ct)) 1)) tokens) in *.
  assert (Ek : map fst cus = dict_keys tokens).
  { unfold cus, dict_keys. rewrite map_map. reflexivity. }
  assert (A0 : all_renamed [] datas datas).
  { split; [reflexivity|]. intros n d Hd. exists d. split; [exact Hd|].
    apply renamed_so_far_nil. }
  destruct (@prepend_names_loop datas pretty cus [] datas w new_datas w')
    as (P & [K A] & I); try assumption.
  { now rewrite Ek. }
  { intros k _ []. }
  exists P. split; [|split; [exact K|]].
  - intros k. rewrite I. specialize (Ht k). split.
    + intros [[]|(u & Iu & Q)]. unfold cus in Iu. apply in_map_iff in Iu as ([k0 ts] & E & It).
      cbn [fst snd] in E. injection E as -> <-.
      rewrite (In_dict_get _ String.eqb_spec _ _ _ NDt It) in Ht.
      destruct Ht as (N & Ne & Io). split.
      * destruct ts as [|t ts]; [congruence|]. exists t. apply Io. now left.
      * destruct pretty; [right|now left]. cbn [negb orb] in Q.
        apply (single_iff N Ne) in Q as (a & b & Ia & Ib & ne).
        exists a, b. rewrite <- !Io. auto.
    + intros [[t Ot] Hq]. right.
      destruct (dict_get String.eqb tokens k) as [ts|] eqn:G; [|now elim (Ht t)].
      destruct Ht as (N & Ne & Io).
      exists (Nat.eqb (length ts) 1). split.
      * unfold cus. apply in_map_iff. exists (k, ts). split; [reflexivity|].
        now apply (dict_get_In _ String.eqb_spec).
      * destruct Hq as [->|(a & b & Oa & Ob & ne)]; [reflexivity|].
        apply orb_true_iff. right. apply (single_iff N Ne).
        exists a, b. rewrite !Io. auto.
  - intros n d Hd. destruct (A n d Hd) as (d' & Hd' & Nm & Ks & Ds & Dv & _).
    exists d'. auto.
Qed.

(** *** The JSON text of nested mappings and sequences (C7) *)

Fixpoint distinct (l : list string) : bool :=
  match l with
  | [] => true
  | k :: l' => negb (str_in k l') && distinct l'
  end.

(** The values JSON has, floats apart: [None], booleans, integers, strings,
    and lists, tuples and dictionaries of such. *)
Fixpoint native (v : value) : bool :=
  match v with
  | VNone | VBool _ | VInt _ | VStr _ => true
  | VList l | VTuple l => forallb native l
  | VDict d => forallb (fun kv => native (snd kv)) d && distinct (map fst d)
  | _ => false
  end.



(** The text of a value of JSON. *)
Fixpoint text_of (v : value) : string :=
  match v with
  | VStr s => encode_basestring_ascii s
  | VNone => "null"
  | VBool true => "true"
  | VBool false => "false"
  | VInt z => int_repr z
  | VList l | VTuple l => "[" ++ str_join ", " (map text_of l) ++ "]"
  | VDict d =>
      "{" ++ str_join ", "
               (map (fun kv => encode_basestring_ascii (fst kv) ++ ": "
                               ++ text_of (snd kv)) d)
          ++ "}"
  | _ => EmptyString
  end%string.


(** What may follow a value in a JSON text. *)
Definition delimited (rest : string) : bool :=
  match rest with
  | EmptyString => true
  | String c _ => Ascii.eqb c "," || Ascii.eqb c "]" || Ascii.eqb c "}"
  end.

Lemma distinct_NoDup l : distinct l = true -> NoDup l.
Proof.
  induction l as [|k l IH]; simpl; [constructor|].
  intros H. apply andb_true_iff in H as [N D]. constructor; [|auto].
  intros I. apply str_in_In in I. rewrite I in N. discriminate N.
Qed.

(** Induction on the values of JSON. *)
Lemma native_ind (P : value -> Prop) :
  P VNone -> (forall b, P (VBool b)) -> (forall z, P (VInt z)) ->
  (forall s, P (VStr s)) ->
  (forall l, forallb native l = true -> Forall P l -> P (VList l)) ->
  (forall l, forallb native l = true -> Forall P l -> P (VTuple l)) ->
  (forall d, forallb (fun kv => native (snd kv)) d = true ->
             NoDup (map fst d) ->
             Forall (fun kv => P (snd kv)) d -> P (VDict d)) ->
  forall v, native v = true -> P v.
Proof.
  intros HN HB HI HS HL HT HD. fix IH 1. intros v.
  destruct v; simpl; try discriminate; intros H;
    [exact HN|apply HB|apply HI|apply HS| | | ].
  - apply HL; [exact H|]. revert H. induction l as [|x l IHl]; simpl; intros H.
    + constructor.
    + apply andb_true_iff in H as [Hx Hl]. constructor; [now apply IH|now apply IHl].
  - apply HT; [exact H|]. revert H. induction l as [|x l IHl]; simpl; intros H.
    + constructor.
    + apply andb_true_iff in H as [Hx Hl]. constructor; [now apply IH|now apply IHl].
  - apply andb_true_iff in H as [H D]. apply HD; [exact H|now apply distinct_NoDup|].
    clear D. revert H. induction d as [|x d IHd]; simpl; intros H.
    + constructor.
    + apply andb_true_iff in H as [Hx Hd]. constructor; [now apply IH|now apply IHd].
Qed.

(** On a value of JSON the encoder never asks [default]. *)
Lemma iterencode_with_native dflt v :
  native v = true -> iterencode_with dflt v = Returns (text_of v).
Proof.
  revert v. apply native_ind; try reflexivity.
  - intros [|]; reflexivity.
  - intros l _ F. simpl.
    assert (E : map_res (iterencode_with dflt) l = Returns (map text_of l)).
    { induction F as [|x l Hx F IH]; simpl; [reflexivity|]. now rewrite Hx, IH. }
    now rewrite E.
  - intros l _ F. simpl.
    assert (E : map_res (iterencode_with dflt) l = Returns (map text_of l)).
    { induction F as [|x l Hx F IH]; simpl; [reflexivity|]. now rewrite Hx, IH. }
    now rewrite E.
  - intros d _ _ F. simpl.
    match goal with |- context [map_res ?f d] =>
      assert (E : map_res f d
                  = Returns (map (fun kv => encode_basestring_ascii (fst kv) ++ ": "
                                            ++ text_of (snd kv))%string d))
    end.
    { induction F as [|[k x] d Hx F IH]; simpl; [reflexivity|].
      simpl in Hx. now rewrite Hx, IH. }
    now rewrite E.
Qed.

(** **** Reading strings and literals back *)

Lemma append_assoc (a b c : string) : ((a ++ b) ++ c = a ++ (b ++ c))%string.
Proof. induction a as [|x a IH]; simpl; [reflexivity|now rewrite IH]. Qed.










(** **** Reading integers back *)

Lemma delimited_cases rest :
  delimited rest = true ->
  rest = EmptyString
  \/ exists r, rest = String "," r \/ rest = String "]" r \/ rest = String "}" r.
Proof.
  destruct rest as [|c r]; [now left|]. simpl. intros H. right. exists r.
  apply orb_true_iff in H as [H|H]; [apply orb_true_iff in H as [H|H]|];
    apply Ascii.eqb_eq in H; subst; auto.
Qed.



Lemma delimited_skip_ws rest : delimited rest = true -> skip_ws rest = rest.
Proof.
  intros H. destruct (delimited_cases _ H) as [->|(r & [->|[->| ->]])]; reflexivity.
Qed.









(** **** How a text starts, and how long it is *)











(** **** Reading arrays and objects back *)
















(** **** The quotes that are stripped *)



Lemma json_dumps_native v : native v = true -> json_dumps v = Returns (text_of v).
Proof.
  intros H. unfold json_dumps, recursion_limit.
  change (iterencode 1000 v)
    with (iterencode_with (fun o' => iterencode 999 (default o')) v).
  now apply iterencode_with_native.
Qed.




(** ** Further properties

    What the functions of the module do beyond the claims above. *)

(** *** [make_time_bounds] *)

(** [v] is a least element of [xs], as [<] between datetimes has it. *)
Definition least_datetime (t : Z) (xs : list value) : Prop :=
  In (VDatetime t) xs
  /\ forall u, In (VDatetime u) xs -> (t <= u)%Z.

Lemma min_from_least t (xs : list value) :
  forallb None_or_datetime xs = true ->
  exists m, min_from (VDatetime t) (filter is_not_None xs) = Returns (VDatetime m)
            /\ (m = t \/ In (VDatetime m) xs)
            /\ (m <= t)%Z
            /\ forall u, In (VDatetime u) xs -> (m <= u)%Z.
Proof. env_free.
  revert t. induction xs as [|x xs IH]; intros t H; simpl in *.
  - exists t. split; [reflexivity|]. split; [now left|]. split; [lia|]. intros u [].
  - apply andb_prop in H as [Hx H]. destruct x; try discriminate Hx; simpl.
    + destruct (IH t H) as (m & E & I & L & A). exists m.
      split; [exact E|]. split; [tauto|]. split; [exact L|].
      intros u [X|X]; [discriminate X|auto].
    + destruct (Z.ltb_spec t0 t).
      * destruct (IH t0 H) as (m & E & I & L & A). exists m.
        split; [exact E|]. split; [right; destruct I as [->|I]; auto|].
        split; [lia|]. intros u [X|X]; [injection X as <-; exact L|auto].
      * destruct (IH t H) as (m & E & I & L & A). exists m.
        split; [exact E|]. split; [tauto|]. split; [exact L|].
        intros u [X|X]; [injection X as <-; lia|auto].
Qed.

Lemma py_min_least (xs : list value) :
  forallb None_or_datetime xs = true -> existsb is_not_None xs = true ->
  exists m, py_min (filter is_not_None xs) = Returns (VDatetime m)
            /\ least_datetime m xs.
Proof. env_free.
  induction xs as [|x xs IH]; intros H E; simpl in *; [discriminate E|].
  apply andb_prop in H as [Hx H]. destruct x; try discriminate Hx; simpl in *.
  - destruct (IH H E) as (m & Em & I & A). exists m. split; [exact Em|].
    split; [now right|]. intros u [X|X]; [discriminate X|auto].
  - destruct (min_from_least t xs H) as (m & Em & I & L & A). exists m.
    split; [exact Em|]. split.
    + destruct I as [->|I]; [now left|now right].
    + intros u [X|X]; [injection X as <-; exact L|auto].
Qed.

(** The bounds of a group: when the start and the end times are datetimes
    or [None], with a datetime among each, [make_time_bounds] returns an
    array over [time] and [bnds_1d] that holds the earliest start time and
    the earliest end time, with new and empty dictionaries; nothing else
    changes. *)
Theorem make_time_bounds_spec (start_times end_times : list value) w :
  forallb None_or_datetime start_times = true ->
  forallb None_or_datetime end_times = true ->
  existsb is_not_None start_times = true ->
  existsb is_not_None end_times = true ->
  exists s e,
    least_datetime s start_times /\ least_datetime e end_times
    /\ make_time_bounds start_times end_times w
       = (Returns (mk_DataArray None
                     (mk_Var ["time"; "bnds_1d"]
                        (mk_ndarray datetime64 [1; 2] [s; e] None)
                        (next w) (S (next w)))
                     []),
          mk_World (upd (upd (heap w) (next w) []) (S (next w)) [])
            (S (S (next w))) (warns w) (logged w)).
Proof.
  intros Hs He Es Ee.
  destruct (py_min_least start_times Hs Es) as (s & E1 & L1).
  destruct (py_min_least end_times He Ee) as (e & E2 & L2).
  exists s, e. split; [exact L1|]. split; [exact L2|].
  unfold make_time_bounds. rewrite E1, E2. reflexivity.
Qed.


(** *** [_get_groups] *)

(** The array [d] goes to the group [g]: [g] is the first group of [groups]
    that lists the name of [d]. *)
Definition goes_to (groups : dict name (list string))
    (h : loc -> list (string * value)) (g : name) (d : DataArray) : bool :=
  match aget (cell h (da_attrs d)) "name" with
  | Some nm =>
      match group_of groups nm with
      | Some g' => name_eqb g' g
      | None => false
      end
  | None => false
  end.

Lemma dict_get_append_to grouped g d g' :
  dict_get name_eqb (append_to grouped g d) g'
  = if name_eqb g g'
    then Some (match dict_get name_eqb grouped g with
               | Some l => l ++ [d]
               | None => [d]
               end)
    else dict_get name_eqb grouped g'.
Proof.
  unfold append_to. destruct (name_eqb_spec g g') as [<-|ne].
  - destruct (dict_get name_eqb grouped g);
      now rewrite (dict_get_set_eq _ name_eqb_spec).
  - destruct (dict_get name_eqb grouped g);
      now rewrite (dict_get_set_ne _ name_eqb_spec).
Qed.

Lemma NoDup_append_to grouped g d :
  NoDup (dict_keys grouped) -> NoDup (dict_keys (append_to grouped g d)).
Proof.
  intros ND. unfold append_to.
  destruct (dict_get name_eqb grouped g); now apply (NoDup_dict_set _ name_eqb_spec).
Qed.

Lemma _get_groups_loop g0 groups (l : list DataArray) :
  forall acc w grouped w',
    for_fold l acc
      (fun grouped_dataarrays datarray =>
         attrs <- read (da_attrs datarray) ;;
         nm <- of_option (aget attrs "name") KeyError ;;
         match group_of (g0 :: groups) nm with
         | Some group_name =>
             ret (append_to grouped_dataarrays group_name datarray)
         | None => ret grouped_dataarrays
         end) w = (Returns grouped, w') ->
    w' = w
    /\ (NoDup (dict_keys acc) -> NoDup (dict_keys grouped))
    /\ forall g,
         dict_get name_eqb grouped g
         = match dict_get name_eqb acc g,
                 filter (goes_to (g0 :: groups) (heap w) g) l with
           | None, [] => None
           | None, m => Some m
           | Some a, m => Some (a ++ m)
           end.
Proof.
  induction l as [|d l IH]; intros acc w grouped w' H.
  - simpl in H. unfold ret in H. injection H as <- <-. split; [reflexivity|].
    split; [auto|]. intros g. simpl. destruct (dict_get name_eqb acc g); [|reflexivity].
    now rewrite app_nil_r.
  - cbn [for_fold] in H.
    apply bind_inv in H as [(acc1 & w1 & E1 & H)|(e & _ & X)]; [|discriminate X].
    rewrite (bind_step _ _ w (eq_refl : read (da_attrs d) w = (_, w))) in E1.
    destruct (aget (cell (heap w) (da_attrs d)) "name") as [nm|] eqn:Hn;
      cbn [of_option] in E1; [|discriminate E1].
    rewrite (bind_step _ _ w (eq_refl : ret nm w = (_, w))) in E1.
    destruct (group_of (g0 :: groups) nm) as [gn|] eqn:Hg;
      unfold ret in E1; injection E1 as <- <-;
      destruct (IH _ _ _ _ H) as (-> & ND & G); (split; [reflexivity|]).
    + split; [intros N; apply ND; now apply NoDup_append_to|].
      intros g. rewrite G, dict_get_append_to. cbn [filter].
      assert (Eg : goes_to (g0 :: groups) (heap w) g d = name_eqb gn g)
        by (unfold goes_to; now rewrite Hn, Hg).
      rewrite Eg.
      destruct (name_eqb_spec gn g) as [->|ne].
      * destruct (dict_get name_eqb acc g); [now rewrite <- app_assoc|reflexivity].
      * reflexivity.
    + split; [exact ND|]. intros g. rewrite G. cbn [filter].
      assert (Eg : goes_to (g0 :: groups) (heap w) g d = false)
        by (unfold goes_to; now rewrite Hn, Hg).
      now rewrite Eg.
Qed.

Lemma _get_groups_of_nothing (l : list DataArray) w :
  forall acc : dict name (list DataArray),
    for_fold l acc (fun grouped_dataarrays _ => ret grouped_dataarrays) w
    = (Returns acc, w).
Proof. induction l as [|d l IH]; intros acc; simpl; [reflexivity|apply IH]. Qed.

(** The groups that [_get_groups] makes, given an assignment: a group holds,
    in the order of the input, the arrays whose name it is the first to
    list; an array that no group lists is in none, and a group that gets no
    array does not exist.  Nothing is written. *)
Theorem _get_groups_spec groups (list_datarrays : list DataArray) w grouped w' :
  _get_groups (Some groups) list_datarrays w = (Returns grouped, w') ->
  w' = w /\ NoDup (dict_keys grouped)
  /\ forall g,
       dict_get name_eqb grouped g
       = match filter (goes_to groups (heap w) g) list_datarrays with
         | [] => None
         | members => Some members
         end.
Proof.
  unfold _get_groups. destruct groups as [|g0 groups].
  - intros H. rewrite _get_groups_of_nothing in H. injection H as <- <-.
    split; [reflexivity|]. split; [constructor|]. intros g.
    assert (F : filter (goes_to [] (heap w) g) list_datarrays = []).
    { induction list_datarrays as [|d l IH]; simpl; [reflexivity|].
      unfold goes_to at 1. simpl.
      destruct (aget (cell (heap w) (da_attrs d)) "name"); exact IH. }
    now rewrite F.
  - intros H. destruct (_get_groups_loop _ _ _ _ _ H) as (-> & ND & G).
    split; [reflexivity|]. split; [apply ND; constructor|].
    intros g. rewrite G. reflexivity.
Qed.


(** *** [collect_cf_datasets] *)

Lemma _get_groups_pure groups (l : list DataArray) w r w' :
  _get_groups groups l w = (r, w') -> w' = w.
Proof.
  unfold _get_groups. destruct groups as [groups|];
    [|unfold ret; now intros [= _ <-]].
  generalize (@nil (name * list DataArray)). revert w.
  induction l as [|d l IH]; intros w acc H.
  - simpl in H. unfold ret in H. now injection H as _ <-.
  - cbn [for_fold] in H.
    apply bind_inv in H as [(acc1 & w1 & E1 & H)|(e & E1 & _)].
    + apply IH in H. subst w'. destruct groups as [|g0 groups].
      * unfold ret in E1. now injection E1 as _ <-.
      * unfold bind, read, of_option, ret, raise in E1.
        destruct (aget (cell (heap w) (da_attrs d)) "name");
          [|discriminate E1].
        destruct (group_of (g0 :: groups) v); now injection E1 as _ <-.
    + destruct groups as [|g0 groups]; [discriminate E1|].
      unfold bind, read, of_option, ret, raise in E1.
      destruct (aget (cell (heap w) (da_attrs d)) "name");
        [|now injection E1 as _ <-].
      destruct (group_of (g0 :: groups) v); discriminate E1.
Qed.

Lemma _get_groups_NoDup groups (l : list DataArray) w ga w' :
  _get_groups groups l w = (Returns ga, w') -> NoDup (dict_keys ga).
Proof.
  destruct groups as [[|g0 groups]|]; unfold _get_groups.
  - rewrite _get_groups_of_nothing. intros [= <- _]. constructor.
  - intros H. destruct (_get_groups_loop _ _ _ _ _ H) as (_ & ND & _).
    apply ND. constructor.
  - unfold ret. intros [= <- _]. repeat constructor. simpl. tauto.
Qed.

(** What [collect_cf_datasets] does when it returns, step by step. *)
Lemma collect_cf_datasets_inv l ha o groups w grouped header w' :
  collect_cf_datasets l ha o groups w = (Returns (grouped, header), w') ->
  exists h0 ga h1,
    match ha with
    | Some h =>
        encode_attrs_nc (if flatten_attrs o then flatten_dict h else h) = Returns h0
    | None => h0 = []
    end
    /\ _get_groups groups l w = (Returns ga, w)
    /\ _set_history h0 = Returns h1
    /\ header = (if negb (amem h1 "Conventions") && negb (2 <=? length ga)%nat
                 then aset h1 "Conventions" (VStr CF_VERSION) else h1)
    /\ for_fold ga [] (collect_group o (2 <=? length ga)%nat header) w
       = (Returns grouped, w').
Proof.
  unfold collect_cf_datasets. destruct l as [|d l]; [discriminate|].
  intros H.
  apply bind_inv in H as [(h0 & w1 & E0 & H)|(e & _ & X)]; [|discriminate X].
  apply bind_inv in H as [(ga & w2 & Eg & H)|(e & _ & X)]; [|discriminate X].
  apply bind_inv in H as [(h1 & w3 & Eh & H)|(e & _ & X)]; [|discriminate X].
  apply bind_inv in H as [(gd & w4 & Ef & H)|(e & _ & X)]; [|discriminate X].
  unfold ret in H. injection H as <- <- <-.
  unfold lift in Eh. injection Eh as Eh <-.
  assert (w1 = w) as ->.
  { destruct ha; [unfold lift in E0|unfold ret in E0]; now injection E0. }
  pose proof (_get_groups_pure _ _ _ Eg) as ->.
  exists h0, ga, h1. repeat split; auto.
  destruct ha; [unfold lift in E0|unfold ret in E0]; now injection E0.
Qed.

(** A group that has been processed is stored under its name, with the
    header as its attributes if there are no groups, and none otherwise. *)
Lemma collect_group_inv o is_grouped header acc g w r w' :
  collect_group o is_grouped header acc g w = (Returns r, w') ->
  exists ds, r = dict_set name_eqb acc (fst g) ds
             /\ ds_attrs ds = (if negb is_grouped then header else []).
Proof.
  unfold collect_group. intros H.
  apply bind_inv in H as [([[dd st] et] & w1 & E1 & H)|(e & _ & X)];
    [|discriminate X].
  apply bind_inv in H as [(ds & w2 & E2 & H)|(e & _ & X)]; [|discriminate X].
  unfold ret in H. injection H as <- <-. exists ds. split; [reflexivity|].
  destruct (ds_getitem _ "time").
  - apply bind_inv in E2 as [(tb & w3 & _ & E2)|(e & _ & X)]; [|discriminate X].
    apply bind_inv in E2 as [(tm & w4 & _ & E2)|(e & _ & X)]; [|discriminate X].
    apply bind_inv in E2 as [(? & w5 & _ & E2)|(e & _ & X)]; [|discriminate X].
    apply bind_inv in E2 as [(? & w6 & _ & E2)|(e & _ & X)]; [|discriminate X].
    unfold ret in E2. injection E2 as <- <-. reflexivity.
  - apply bind_inv in E2 as [(? & w3 & _ & E2)|(e & _ & X)]; [|discriminate X].
    unfold ret in E2. injection E2 as <- <-. reflexivity.
Qed.

Lemma collect_groups_loop o is_grouped header (ga : dict name (list DataArray)) :
  forall acc w grouped w',
    for_fold ga acc (collect_group o is_grouped header) w = (Returns grouped, w') ->
    NoDup (dict_keys acc ++ dict_keys ga) ->
    dict_keys grouped = dict_keys acc ++ dict_keys ga
    /\ forall g ds, In (g, ds) grouped ->
         In (g, ds) acc
         \/ ds_attrs ds = (if negb is_grouped then header else []).
Proof.
  induction ga as [|[g l] ga IH]; intros acc w grouped w' H ND.
  - simpl in H. unfold ret in H. injection H as <- <-.
    simpl. rewrite app_nil_r. auto.
  - cbn [for_fold] in H.
    apply bind_inv in H as [(acc1 & w1 & E1 & H)|(e & _ & X)]; [|discriminate X].
    apply collect_group_inv in E1 as (ds0 & -> & A0). cbn [fst] in *.
    assert (Hn : dict_get name_eqb acc g = None).
    { apply (dict_get_None _ name_eqb_spec). intros I.
      simpl in ND. apply NoDup_remove_2 in ND. apply ND.
      apply in_or_app. now left. }
    rewrite (dict_set_new _ name_eqb_spec _ _ _ Hn) in H.
    apply IH in H.
    + destruct H as (K & A). split.
      * rewrite K. unfold dict_keys. rewrite map_app. simpl.
        now rewrite <- app_assoc.
      * intros g1 ds1 I. destruct (A _ _ I) as [I1|I1]; [|now right].
        apply in_app_or in I1 as [I1|[[= <- <-]|[]]]; auto.
    + unfold dict_keys in *. rewrite map_app. simpl. rewrite <- app_assoc.
      exact ND.
Qed.


Lemma _set_history_spec attrs attrs' :
  _set_history attrs = Returns attrs' ->
  exists p, aget attrs' "history"
            = Some (VStr (p ++ "Created by pytroll/satpy on " ++ utcnow))
            /\ forall k, k <> "history" -> aget attrs' k = aget attrs k.
Proof.
  unfold _set_history. destruct (aget attrs "history") as [history|].
  - intros H.
    destruct (match history with
              | VList l =>
                  match strings_of l with
                  | Returns ss => Returns (VStr (str_join EmptyString ss))
                  | Raises e => Raises e
                  end
              | _ => Returns history
              end) as [v|e]; [|discriminate H].
    destruct v; try discriminate H. injection H as <-.
    exists (s ++ newline)%string. unfold aget, aset. split.
    + rewrite (dict_get_set_eq _ String.eqb_spec). now rewrite append_assoc.
    + intros k ne. apply (dict_get_set_ne _ String.eqb_spec). congruence.
  - intros [= <-]. exists EmptyString. unfold aget, aset. split.
    + now rewrite (dict_get_set_eq _ String.eqb_spec).
    + intros k ne. apply (dict_get_set_ne _ String.eqb_spec). congruence.
Qed.

(** The global attributes that [collect_cf_datasets] hands out: the header
    it returns has a [history] that ends in the line of this run; when it
    returns fewer than two groups, every dataset carries the header as its
    attributes and the header names its [Conventions]; when it returns two
    groups or more, the datasets of the groups carry no attributes at all.
    Without groups there is one dataset, the one of the root. *)
Theorem collect_cf_datasets_attrs l ha o groups w grouped header w' :
  collect_cf_datasets l ha o groups w = (Returns (grouped, header), w') ->
  (exists p, aget header "history"
             = Some (VStr (p ++ "Created by pytroll/satpy on " ++ utcnow)))
  /\ (forall g ds, In (g, ds) grouped ->
        ds_attrs ds = if (2 <=? length grouped)%nat then [] else header)
  /\ ((length grouped < 2)%nat -> amem header "Conventions" = true)
  /\ (groups = None -> dict_keys grouped = [None]).
Proof.
  intros H. apply collect_cf_datasets_inv in H
    as (h0 & ga & h1 & _ & Eg & Eh & Ehd & Ef).
  pose proof (_get_groups_NoDup _ _ _ Eg) as ND.
  destruct (collect_groups_loop _ _ _ _ _ _ Ef ND) as (K & A).
  assert (L : length grouped = length ga).
  { unfold dict_keys in K. simpl in K.
    now rewrite <- (length_map fst grouped), K, length_map. }
  rewrite L. apply _set_history_spec in Eh as (p & Hp & Hk).
  split; [|split; [|split]].
  - exists p. rewrite Ehd.
    destruct (negb (amem h1 "Conventions") && negb (2 <=? length ga)%nat);
      [|exact Hp].
    unfold aget, aset in *.
    rewrite (dict_get_set_ne _ String.eqb_spec); [exact Hp|discriminate].
  - intros g ds I. destruct (A _ _ I) as [[]|E]. rewrite E.
    now destruct (2 <=? length ga)%nat.
  - intros Hl. apply Nat.leb_gt in Hl. rewrite Ehd, Hl.
    destruct (amem h1 "Conventions") eqn:Hc; simpl; [exact Hc|].
    unfold amem, aset, dict_mem.
    now rewrite (dict_get_set_eq _ String.eqb_spec).
  - intros ->. unfold _get_groups, ret in Eg. injection Eg as <-. exact K.
Qed.

(** Without a header of the caller, the header that [collect_cf_datasets]
    returns is the history line of this run, followed by the conventions
    when fewer than two groups are returned. *)
Theorem collect_cf_datasets_default_header l o groups w grouped header w' :
  collect_cf_datasets l None o groups w = (Returns (grouped, header), w') ->
  header = ("history", VStr ("Created by pytroll/satpy on " ++ utcnow))
           :: (if (2 <=? length grouped)%nat then []
               else [("Conventions", VStr CF_VERSION)]).
Proof.
  intros H. apply collect_cf_datasets_inv in H
    as (h0 & ga & h1 & -> & Eg & Eh & Ehd & Ef).
  pose proof (_get_groups_NoDup _ _ _ Eg) as ND.
  destruct (collect_groups_loop _ _ _ _ _ _ Ef ND) as (K & _).
  assert (L : length grouped = length ga).
  { unfold dict_keys in K. simpl in K.
    now rewrite <- (length_map fst grouped), K, length_map. }
  rewrite L. unfold _set_history in Eh. simpl in Eh. injection Eh as <-.
  rewrite Ehd. now destruct (2 <=? length ga)%nat.
Qed.


(** *** [save_datasets] *)












(** *** [encode_attrs_nc] *)

Lemma string_leb_trans (a b c : string) :
  (a <=? b)%string = true -> (b <=? c)%string = true -> (a <=? c)%string = true.
Proof. env_free.
  unfold String.leb. revert b c.
  induction a as [|x a IH]; intros [|y b] [|z c]; simpl; try congruence.
  destruct (Ascii.compare x y) eqn:Exy; [| |discriminate];
    (destruct (Ascii.compare y z) eqn:Eyz; [| |discriminate]).
  - apply Ascii.compare_eq_iff in Exy, Eyz. subst y z.
    unfold Ascii.compare. rewrite N.compare_refl. apply IH.
  - apply Ascii.compare_eq_iff in Exy. subst y. now rewrite Eyz.
  - apply Ascii.compare_eq_iff in Eyz. subst z. now rewrite Exy.
  - unfold Ascii.compare in *. rewrite N.compare_lt_iff in *.
    assert (L : (N_of_ascii x < N_of_ascii z)%N) by lia.
    apply N.compare_lt_iff in L. now rewrite L.
Qed.

Lemma string_leb_ltb (a b : string) :
  (a <=? b)%string = true -> a <> b -> (a <? b)%string = true.
Proof.
  unfold String.leb, String.ltb. intros H ne.
  destruct (String.compare a b) eqn:E; [|reflexivity|discriminate].
  now apply String.compare_eq_iff in E.
Qed.

(** The keys of a list of items are in ascending order. *)
Definition keys_ascend {V} (l : list (string * V)) : Prop :=
  StronglySorted (fun a b => (a <=? b)%string = true) (dict_keys l).

Lemma insert_item_ascend {V} (kv : string * V) l :
  keys_ascend l -> keys_ascend (insert_item kv l).
Proof.
  unfold keys_ascend. induction l as [|y l IH]; simpl; intros S.
  - repeat constructor.
  - inversion S as [|? ? S' F]. subst.
    destruct (fst kv <=? fst y)%string eqn:E; simpl.
    + constructor; [exact S|]. constructor; [exact E|].
      eapply Forall_impl; [|exact F]. intros k. now apply string_leb_trans.
    + constructor; [now apply IH|].
      apply Forall_forall. intros k I. unfold dict_keys in I.
      apply in_map_iff in I as (x & <- & I).
      apply In_insert_item in I as [->|I].
      * destruct (String.leb_total (fst kv) (fst y)); congruence.
      * rewrite Forall_forall in F. apply F. now apply in_map.
Qed.

Lemma sorted_items_ascend {V} (d : dict string V) : keys_ascend (sorted_items d).
Proof.
  unfold sorted_items. induction d as [|y d IH]; simpl.
  - constructor.
  - now apply insert_item_ascend.
Qed.

Lemma encode_items_ascend items res :
  encode_items items = Returns res -> keys_ascend items -> keys_ascend res.
Proof.
  unfold keys_ascend.
  revert res. induction items as [|[k0 v0] items IH]; simpl; intros res H S.
  - injection H as <-. constructor.
  - inversion S as [|? ? S' F]. subst. destruct (is_not_None v0); [|auto].
    destruct (encode_nc v0); [|discriminate].
    destruct (encode_items items) as [rest|] eqn:E; [|discriminate].
    injection H as <-. simpl. constructor; [auto|].
    apply Forall_forall. intros k I. rewrite Forall_forall in F. apply F.
    eapply encode_items_keys; eauto.
Qed.

Lemma ascend_strictly (l : list string) :
  StronglySorted (fun a b => (a <=? b)%string = true) l -> NoDup l ->
  StronglySorted (fun a b => (a <? b)%string = true) l.
Proof.
  induction 1 as [|a l S IH F]; intros ND; [constructor|].
  inversion ND as [|? ? N1 N2]. subst. constructor; [auto|].
  apply Forall_forall. intros k I. rewrite Forall_forall in F.
  apply string_leb_ltb; [auto|]. intros ->. contradiction.
Qed.

Lemma dict_get_sorted_items {V} (d : dict string V) k :
  NoDup (dict_keys d) ->
  dict_get String.eqb (sorted_items d) k = dict_get String.eqb d k.
Proof.
  intros ND. destruct (dict_get String.eqb d k) as [v|] eqn:G.
  - apply (In_dict_get _ String.eqb_spec); [now apply NoDup_sorted_items|].
    apply In_sorted_items. now apply (dict_get_In _ String.eqb_spec).
  - apply (dict_get_None _ String.eqb_spec).
    apply (dict_get_None _ String.eqb_spec) in G. intros I. apply G.
    unfold dict_keys in *. apply in_map_iff in I as (x & <- & I).
    apply in_map. now apply In_sorted_items.
Qed.

Lemma encode_items_get items res :
  encode_items items = Returns res -> NoDup (dict_keys items) ->
  forall k,
    match dict_get String.eqb items k with
    | Some v =>
        if is_not_None v
        then exists enc, encode_nc v = Returns enc
                         /\ dict_get String.eqb res k = Some enc
        else dict_get String.eqb res k = None
    | None => dict_get String.eqb res k = None
    end.
Proof.
  revert res. induction items as [|[k0 v0] items IH]; simpl; intros res H ND k.
  - now injection H as <-.
  - inversion ND as [|? ? N1 N2]. subst.
    destruct (String.eqb_spec k k0) as [->|ne].
    + destruct (is_not_None v0).
      * destruct (encode_nc v0) as [enc|]; [|discriminate].
        destruct (encode_items items); [|discriminate].
        injection H as <-. exists enc. simpl. now rewrite String.eqb_refl.
      * apply (dict_get_None _ String.eqb_spec). intros I. apply N1.
        eapply encode_items_keys; eauto.
    + destruct (is_not_None v0); [|now apply IH].
      destruct (encode_nc v0) as [enc|]; [|discriminate].
      destruct (encode_items items) as [rest|] eqn:E; [|discriminate].
      injection H as <-. simpl.
      destruct (String.eqb_spec k k0) as [->|_]; [contradiction|].
      now apply IH.
Qed.


(** What [encode_attrs_nc] returns for a dictionary: its keys are in
    strictly ascending order; an attribute that is [None] is left out; every
    other attribute is there with its value encoded by [encode_nc]; and no
    other key is there. *)
Theorem encode_attrs_nc_spec attrs encoded :
  NoDup (dict_keys attrs) ->
  encode_attrs_nc attrs = Returns encoded ->
  StronglySorted (fun a b => (a <? b)%string = true) (dict_keys encoded)
  /\ forall k,
       match aget attrs k with
       | Some v =>
           if is_not_None v
           then exists enc, encode_nc v = Returns enc /\ aget encoded k = Some enc
           else aget encoded k = None
       | None => aget encoded k = None
       end.
Proof.
  intros ND. unfold encode_attrs_nc.
  destruct (encode_items (sorted_items attrs)) as [res|] eqn:E; [|discriminate].
  intros H. injection H as <-.
  pose proof (NoDup_sorted_items _ ND) as NDs.
  pose proof (encode_items_NoDup _ E NDs) as NDr.
  rewrite (dict_of_items_id _ String.eqb_spec) by assumption. split.
  - apply ascend_strictly; [|exact NDr].
    change (keys_ascend res).
    eapply encode_items_ascend; [exact E|apply sorted_items_ascend].
  - intros k. pose proof (encode_items_get _ E NDs k) as G.
    unfold aget. now rewrite dict_get_sorted_items in G.
Qed.

(** [encode_attrs_nc] returns exactly when every attribute that is not
    [None] can be encoded: an attribute that is [None] never makes it fail. *)
Theorem encode_attrs_nc_returns attrs :
  (exists encoded, encode_attrs_nc attrs = Returns encoded)
  <-> (forall k v, In (k, v) attrs -> is_not_None v = true ->
         exists enc, encode_nc v = Returns enc).
Proof.
  assert (G : forall items,
             (exists res, encode_items items = Returns res)
             <-> (forall k v, In (k, v) items -> is_not_None v = true ->
                    exists enc, encode_nc v = Returns enc)).
  { induction items as [|[k0 v0] items IH]; simpl.
    - split; [intros _ k v []|eauto].
    - destruct (is_not_None v0) eqn:N.
      + destruct (encode_nc v0) as [enc|e0] eqn:C.
        * destruct (encode_items items) as [rest|e1].
          -- split; [|eauto]. intros _ k v [[= <- <-]|I] Nv; [eauto|].
             apply (proj1 IH) with (k := k); eauto.
          -- split; [intros [res X]; discriminate X|]. intros A.
             destruct (proj2 IH) as [res X]; [eauto|discriminate X].
        * split; [intros [res X]; discriminate X|]. intros A.
          destruct (A k0 v0) as [enc X]; auto. congruence.
      + rewrite IH. split; intros A k v.
        * intros [[= <- <-]|I] Nv; [congruence|eauto].
        * eauto. }
  unfold encode_attrs_nc. split.
  - intros [encoded H] k v I. apply (proj1 (G (sorted_items attrs))) with (k := k).
    + destruct (encode_items (sorted_items attrs)); [eauto|discriminate H].
    + now apply In_sorted_items.
  - intros A. destruct (proj2 (G (sorted_items attrs))) as [res ->]; [|eauto].
    intros k v I. apply (A k). now apply In_sorted_items.
Qed.


(** *** [encode_nc] *)





(** A character that JSON text holds as it is: printable ASCII other than
    the double quote and the backslash. *)
Definition plain_char (c : ascii) : bool :=
  let n := nat_of_ascii c in
  (32 <=? n)%nat && (n <=? 126)%nat && negb (Nat.eqb n 34) && negb (Nat.eqb n 92).

Definition plain_str (s : string) : bool :=
  forallb plain_char (list_ascii_of_string s).

Lemma escape_char_plain c : plain_char c = true -> escape_char c = str1 c.
Proof. env_free. destruct c as [[] [] [] [] [] [] [] []]; (reflexivity || discriminate). Qed.

Lemma plain_char_not_dquote c : plain_char c = true -> Ascii.eqb c dquote = false.
Proof. env_free. destruct c as [[] [] [] [] [] [] [] []]; (reflexivity || discriminate). Qed.

Lemma plain_char_ascii c : plain_char c = true -> (nat_of_ascii c <? 128)%nat = true.
Proof. env_free. destruct c as [[] [] [] [] [] [] [] []]; (reflexivity || discriminate). Qed.

Lemma escape_plain s : plain_str s = true -> escape s = s.
Proof.
  unfold plain_str. induction s as [|c s IH]; simpl; [reflexivity|].
  intros H. apply andb_true_iff in H as [Hc Hs].
  now rewrite (escape_char_plain _ Hc), IH.
Qed.

Lemma is_ascii_plain s : plain_str s = true -> is_ascii_str s = true.
Proof.
  unfold plain_str, is_ascii_str. induction s as [|c s IH]; simpl; [reflexivity|].
  intros H. apply andb_true_iff in H as [Hc Hs].
  now rewrite (plain_char_ascii _ Hc), IH.
Qed.

Lemma rstrip_plain s :
  plain_str s = true -> rstrip dquote (s ++ str1 dquote) = s.
Proof.
  unfold plain_str. induction s as [|c s IH]; [reflexivity|].
  cbn [list_ascii_of_string forallb]. intros H.
  apply andb_true_iff in H as [Hc Hs].
  change (String c s ++ str1 dquote)%string with (String c (s ++ str1 dquote)).
  cbn [rstrip]. rewrite (IH Hs). destruct s; [|reflexivity].
  now rewrite (plain_char_not_dquote _ Hc).
Qed.

Lemma strip_quoted_plain s :
  plain_str s = true -> strip dquote (encode_basestring_ascii s) = s.
Proof.
  intros H. unfold encode_basestring_ascii, strip. rewrite (escape_plain _ H).
  destruct s as [|c s]; [reflexivity|].
  assert (Hc : Ascii.eqb c dquote = false).
  { unfold plain_str in H. simpl in H. apply andb_true_iff in H as [Hc _].
    now apply plain_char_not_dquote. }
  change (lstrip dquote (String dquote (String c s ++ str1 dquote)))
    with (lstrip dquote (String c (s ++ str1 dquote))).
  cbn [lstrip]. rewrite Hc.
  change (String c (s ++ str1 dquote)) with (String c s ++ str1 dquote)%string.
  now apply rstrip_plain.
Qed.

(** A byte string of printable ASCII without double quote and backslash is
    encoded as the string of the same characters: it is decoded, written as
    JSON text, and the quotes around the text are stripped again. *)
Theorem encode_nc_bytes s :
  plain_str s = true -> encode_nc (VBytes s) = Returns (VStr s).
Proof.
  intros H. unfold encode_nc, _encode_python_objects, encode_or_dump.
  cbn [_encode_nc]. rewrite (is_ascii_plain _ H).
  rewrite (json_dumps_native (VStr s) eq_refl). cbn [text_of].
  now rewrite strip_quoted_plain.
Qed.


(** *** [da2cf] *)

(** The four parts of [da2cf], when it returns. *)
Lemma da2cf_inv dataarray epoch flatten exclude compression include_orig prefix
    w r w' :
  da2cf dataarray epoch flatten exclude compression include_orig prefix w
    = (Returns r, w') ->
  exists nd w1 named w2 nd3 w3,
    da_copy dataarray w = (Returns nd, w1)
    /\ da2cf_name nd prefix w1 = (Returns named, w2)
    /\ da2cf_prepare (snd named) epoch exclude compression w2 = (Returns nd3, w3)
    /\ da2cf_finish (fst named) nd3 flatten include_orig prefix w3 = (Returns r, w').
Proof.
  unfold da2cf. intros H.
  apply bind_inv in H as [(nd & w1 & E1 & H)|(e & _ & X)]; [|discriminate X].
  apply bind_inv in H as [(named & w2 & E2 & H)|(e & _ & X)]; [|discriminate X].
  apply bind_inv in H as [(nd3 & w3 & E3 & H)|(e & _ & X)]; [|discriminate X].
  eauto 12.
Qed.




Lemma da2cf_name_cases nd prefix w named w2 :
  da2cf_name nd prefix w = (Returns named, w2) ->
  match aget (cell (heap w) (da_attrs nd)) "name" with
  | None => named = (None, nd)
  | Some (VStr nm) =>
      exists c, head_char nm = Some c
                /\ (isdigit c = false
                    -> named = (Some (nm, nm), da_rename nd (Some nm)))
  | Some _ => True
  end.
Proof.
  unfold da2cf_name.
  rewrite (bind_step _ _ w (attrs_mem_run (da_attrs nd) "name" w)).
  unfold amem, dict_mem, aget.
  destruct (dict_get String.eqb (cell (heap w) (da_attrs nd)) "name")
    as [v|] eqn:G.
  - rewrite (bind_step _ _ w (attrs_get_run (da_attrs nd) "name" w)).
    unfold aget. rewrite G.
    rewrite (bind_step _ _ w (attrs_pop_run (da_attrs nd) "name" w)).
    destruct v; try exact (fun _ => I).
    unfold _handle_dataarray_name.
    destruct (head_char s) as [c|]; cbn [of_option].
    + intros H. exists c. split; [reflexivity|]. intros Hd. revert H.
      unfold bind at 1. unfold bind at 1. unfold ret at 1. rewrite Hd.
      unfold ret. now intros [= <- _].
    + unfold bind at 1. unfold bind at 1. unfold raise at 1. discriminate.
  - unfold ret. now intros [= <- _].
Qed.

(** The name of the array that [da2cf] returns, digits apart.  An array
    without a [name] attribute keeps the name it has, whatever it starts
    with: only the attribute is looked at.  An array whose [name] attribute
    is a string gets it as its name when it does not start with a digit;
    the string is not empty, for [da2cf] does not return for an empty
    name. *)
Theorem da2cf_plain_name dataarray epoch flatten exclude compression
    include_orig prefix w r w' :
  da2cf dataarray epoch flatten exclude compression include_orig prefix w
    = (Returns r, w') ->
  match aget (cell (heap w) (da_attrs dataarray)) "name" with
  | None => da_name r = da_name dataarray
  | Some (VStr nm) =>
      exists c, head_char nm = Some c
                /\ (isdigit c = false -> da_name r = Some nm)
  | Some _ => True
  end.
Proof.
  intros H.
  destruct (da_copy_spec dataarray w)
    as (cs' & w1' & E1 & _ & _ & _ & _ & A1 & _ & _).
  apply da2cf_inv in H
    as (nd & w1 & named & w2 & nd3 & w3 & E1' & E2 & E3 & E4).
  rewrite E1 in E1'. injection E1' as <- <-.
  set (nd := mk_DataArray (da_name dataarray)
               (mk_Var (da_dims dataarray) (v_data (da_var dataarray))
                  (next w) (S (next w))) cs') in *.
  apply da2cf_finish_spec in E4 as (-> & _ & _).
  destruct (does_da2cf_prepare (L := locs_of (snd named))
              (enc := da_encoding (snd named))
              epoch exclude compression (within_locs_of (snd named)) w2)
    as [_ K].
  rewrite E3 in K. cbn [fst] in K. destruct (K nd3 eq_refl) as (_ & Nm3 & _).
  apply da2cf_name_cases in E2. change (da_attrs nd) with (next w) in E2.
  rewrite A1 in E2.
  destruct (aget (cell (heap w) (da_attrs dataarray)) "name") as [v|].
  - destruct v; try exact I. destruct E2 as (c & Hc & Hn). exists c.
    split; [exact Hc|]. intros Hd. rewrite Nm3, (Hn Hd). reflexivity.
  - rewrite Nm3, E2. reflexivity.
Qed.

(** [da2cf] raises [IndexError] for an array whose [name] attribute is the
    empty string. *)
Theorem da2cf_empty_name dataarray epoch flatten exclude compression
    include_orig prefix w :
  aget (cell (heap w) (da_attrs dataarray)) "name" = Some (VStr EmptyString) ->
  fst (da2cf dataarray epoch flatten exclude compression include_orig prefix w)
  = Raises IndexError.
Proof.
  intros G.
  destruct (da_copy_spec dataarray w)
    as (cs' & w1 & E1 & _ & _ & _ & _ & A1 & _ & _).
  unfold da2cf. erewrite bind_step by exact E1.
  set (nd := mk_DataArray (da_name dataarray)
               (mk_Var (da_dims dataarray) (v_data (da_var dataarray))
                  (next w) (S (next w))) cs') in *.
  assert (G1 : aget (cell (heap w1) (da_attrs nd)) "name" = Some (VStr EmptyString)).
  { change (da_attrs nd) with (next w). now rewrite A1. }
  assert (R : exists w2, da2cf_name nd prefix w1 = (Raises IndexError, w2)).
  { unfold da2cf_name.
    rewrite (bind_step _ _ w1 (attrs_mem_run (da_attrs nd) "name" w1)).
    unfold amem, dict_mem. unfold aget in G1. rewrite G1.
    rewrite (bind_step _ _ w1 (attrs_get_run (da_attrs nd) "name" w1)).
    unfold aget. rewrite G1.
    rewrite (bind_step _ _ w1 (attrs_pop_run (da_attrs nd) "name" w1)).
    eexists. reflexivity. }
  destruct R as (w2 & R). erewrite bind_raise by exact R. reflexivity.
Qed.


(** **** The coordinates of the result *)

Lemma keys_pop (cs : list (string * Var)) k :
  NoDup (dict_keys cs) ->
  dict_keys (dict_pop String.eqb cs k)
  = filter (fun k' => negb (String.eqb k k')) (dict_keys cs).
Proof. env_free.
  induction cs as [|[k0 v0] cs IH]; simpl; [reflexivity|].
  intros ND. inversion ND as [|? ? N1 N2]. subst.
  destruct (String.eqb_spec k k0) as [->|ne]; simpl.
  - symmetry. apply forallb_filter_id. apply forallb_forall. intros x I.
    destruct (String.eqb_spec k0 x) as [->|_]; [contradiction|reflexivity].
  - now rewrite IH.
Qed.

Lemma keys_without (cs : list (string * Var)) k :
  dict_mem String.eqb cs k = false ->
  dict_keys cs = filter (fun k' => negb (String.eqb k k')) (dict_keys cs).
Proof. env_free.
  unfold dict_mem. intros H.
  assert (N : ~ In k (dict_keys cs)).
  { apply (dict_get_None _ String.eqb_spec).
    now destruct (dict_get String.eqb cs k). }
  symmetry. apply forallb_filter_id. apply forallb_forall. intros x I.
  destruct (String.eqb_spec k x) as [->|_]; [contradiction|reflexivity].
Qed.

Lemma copy_of_keys w w' base lo hi cs cs' :
  Forall2 (copy_of w w' base lo hi) cs cs' -> dict_keys cs' = dict_keys cs.
Proof.
  induction 1 as [|kv kv' cs cs' H F IH]; simpl; [reflexivity|].
  destruct H as (E & _). now rewrite E, IH.
Qed.

Lemma da2cf_name_coords nd prefix w named w2 :
  da2cf_name nd prefix w = (Returns named, w2) ->
  da_coords (snd named) = da_coords nd.
Proof.
  unfold da2cf_name.
  rewrite (bind_step _ _ w (attrs_mem_run (da_attrs nd) "name" w)).
  destruct (amem (cell (heap w) (da_attrs nd)) "name").
  - rewrite (bind_step _ _ w (attrs_get_run (da_attrs nd) "name" w)).
    rewrite (bind_step _ _ w (attrs_pop_run (da_attrs nd) "name" w)).
    intros H.
    apply bind_inv in H as [(names & w1 & _ & H)|(e & _ & X)]; [|discriminate X].
    unfold ret in H. now injection H as <- _.
  - unfold ret. now intros [= <- _].
Qed.

Lemma _encode_time_coords nd epoch w r w' :
  _encode_time nd epoch w = (Returns r, w') ->
  dict_keys (da_coords r) = dict_keys (da_coords nd).
Proof.
  unfold _encode_time. destruct (coords_get nd "time") as [time|] eqn:G.
  2:{ unfold ret. now intros [= <- _]. }
  intros H.
  apply bind_inv in H as [(? & w1 & _ & H)|(e & _ & X)]; [|discriminate X].
  apply bind_inv in H as [(? & w2 & _ & H)|(e & _ & X)]; [|discriminate X].
  apply bind_inv in H as [(? & w3 & _ & H)|(e & _ & X)]; [|discriminate X].
  unfold _add_time_dimension in H. rewrite G in H. cbn [of_option] in H.
  rewrite (bind_step _ _ w3 (eq_refl : ret time w3 = (_, w3))) in H.
  destruct (_ && _) eqn:C; [|unfold ret in H; now injection H as <- _].
  unfold lift in H. injection H as H _. unfold da_expand_dims in H.
  destruct (in_dims "time" nd); [discriminate|]. rewrite G in H.
  destruct (v_dims time); [|discriminate]. injection H as <-. cbn [da_coords].
  rewrite (dict_keys_set _ String.eqb_spec). unfold dict_mem.
  unfold coords_get in G. now rewrite G.
Qed.

Lemma _encode_coords_coords nd w r w' :
  NoDup (dict_keys (da_coords nd)) ->
  _encode_coords nd w = (Returns r, w') ->
  dict_keys (da_coords r)
  = filter (fun k => negb (String.eqb "crs" k)) (dict_keys (da_coords nd)).
Proof.
  intros ND. unfold _encode_coords.
  destruct (negb (in_coords "x" nd || in_coords "y" nd || in_coords "crs" nd))
    eqn:C.
  - unfold ret. intros [= <- _]. apply keys_without.
    apply negb_true_iff in C. apply orb_false_iff in C as [_ C]. exact C.
  - intros H.
    apply bind_inv in H as [(p & w1 & _ & H)|(e & _ & X)]; [|discriminate X].
    apply bind_inv in H as [(nd1 & w2 & E & H)|(e & _ & X)]; [|discriminate X].
    assert (nd1 = nd) as ->.
    { destruct p; unfold _encode_xy_coords_projected,
                         _encode_xy_coords_geographic in E;
        (apply bind_inv in E as [(? & ? & _ & E)|(e & _ & X)]; [|discriminate X]);
        (apply bind_inv in E as [(? & ? & _ & E)|(e & _ & X)]; [|discriminate X]);
        unfold ret in E; now injection E as <- _. }
    destruct (in_coords "crs" nd) eqn:I; unfold ret in H; injection H as <- _.
    + cbn [da_drop_vars da_coords]. now apply keys_pop.
    + now apply keys_without.
Qed.


(** What [da2cf_prepare] returns is what [_encode_coords] returned. *)
Lemma da2cf_prepare_inv nd epoch exclude compression w r w' :
  da2cf_prepare nd epoch exclude compression w = (Returns r, w') ->
  exists w1 nd2 w2 w3,
    _remove_satpy_attributes nd w = (Returns tt, w1)
    /\ _encode_time nd epoch w1 = (Returns nd2, w2)
    /\ _encode_coords nd2 w2 = (Returns r, w3).
Proof.
  unfold da2cf_prepare. intros H.
  apply bind_inv in H as [([] & w1 & E1 & H)|(e & _ & X)]; [|discriminate X].
  apply bind_inv in H as [(nd2 & w2 & E2 & H)|(e & _ & X)]; [|discriminate X].
  apply bind_inv in H as [(nd3 & w3 & E3 & H)|(e & _ & X)]; [|discriminate X].
  exists w1, nd2, w2, w3. split; [exact E1|]. split; [exact E2|].
  repeat (apply bind_inv in H as [(? & ? & _ & H)|(e & _ & X)];
          [|discriminate X]).
  unfold ret in H. injection H as <- _. exact E3.
Qed.

(** The coordinates of the array that [da2cf] returns are those of the
    array it was given, in their order, without the coordinate [crs]. *)
Theorem da2cf_coords dataarray epoch flatten exclude compression include_orig
    prefix w r w' :
  NoDup (dict_keys (da_coords dataarray)) ->
  da2cf dataarray epoch flatten exclude compression include_orig prefix w
    = (Returns r, w') ->
  dict_keys (da_coords r)
  = filter (fun k => negb (String.eqb "crs" k)) (dict_keys (da_coords dataarray)).
Proof.
  intros ND H.
  destruct (da_copy_spec dataarray w)
    as (cs' & w1' & E1 & _ & _ & _ & _ & _ & _ & F1).
  apply da2cf_inv in H
    as (nd & w1 & named & w2 & nd3 & w3 & E1' & E2 & E3 & E4).
  rewrite E1 in E1'. injection E1' as <- <-.
  apply da2cf_finish_spec in E4 as (-> & _ & _).
  apply da2cf_name_coords in E2. cbn [da_coords] in E2.
  apply da2cf_prepare_inv in E3 as (w4 & nd2 & w5 & w6 & _ & Et & Ec).
  apply _encode_time_coords in Et. rewrite E2 in Et.
  rewrite (copy_of_keys F1) in Et.
  apply _encode_coords_coords in Ec; [|now rewrite Et].
  now rewrite Ec, Et.
Qed.


(** *** [_encode_coords] *)

Lemma set_xy_attrs_spec nd k sn u w :
  exists w',
    set_xy_attrs nd k sn u w = (Returns tt, w')
    /\ match coords_get nd k with
       | Some v =>
           cell (heap w') (v_attrs v)
           = aset (aset (cell (heap w) (v_attrs v)) "standard_name" (VStr sn))
               "units" (VStr u)
           /\ forall l, l <> v_attrs v -> cell (heap w') l = cell (heap w) l
       | None => w' = w
       end.
Proof.
  unfold set_xy_attrs. destruct (coords_get nd k) as [v|].
  - rewrite (bind_step _ _ w (attrs_set_run _ _ _ w)). rewrite attrs_set_run.
    eexists. split; [reflexivity|]. cbn [heap].
    assert (N1 : NoDup (dict_keys (aset (cell (heap w) (v_attrs v))
                                     "standard_name" (VStr sn))))
      by apply NoDup_aset, cell_NoDup.
    split.
    + rewrite cell_upd_eq; [now rewrite cell_upd_eq|].
      apply NoDup_aset, cell_NoDup.
    + intros l ne. now rewrite !cell_upd_ne.
  - exists w. split; reflexivity.
Qed.

(** The area decides: an array with an [AreaDefinition] among its attributes
    gets the names and units of its [x] coordinate from the CRS of the
    area, those of a projection if the CRS is projected and longitude in
    degrees east otherwise, whatever units the coordinate had; the
    coordinate [crs] is dropped if there is one.  The [y] coordinate must
    have attributes of its own. *)
Theorem _encode_coords_area nd w area_id crs lons lats x :
  aget (cell (heap w) (da_attrs nd)) "area"
    = Some (VArea (AreaDefinition area_id crs lons lats)) ->
  coords_get nd "x" = Some x ->
  (forall y, coords_get nd "y" = Some y -> v_attrs y <> v_attrs x) ->
  exists w',
    _encode_coords nd w
      = (Returns (if in_coords "crs" nd then da_drop_vars nd "crs" else nd), w')
    /\ cell (heap w') (v_attrs x)
       = aset (aset (cell (heap w) (v_attrs x)) "standard_name"
                 (VStr (if is_projected crs then "projection_x_coordinate"
                        else "longitude")))
           "units" (VStr (if is_projected crs then "m" else "degrees_east")).
Proof.
  intros Ga Gx Hy. unfold _encode_coords.
  assert (Ix : in_coords "x" nd = true).
  { unfold in_coords, dict_mem. unfold coords_get in Gx. now rewrite Gx. }
  rewrite Ix. cbn [orb negb].
  assert (P : _is_projected nd w = (Returns (is_projected crs), w)).
  { assert (T : _try_to_get_crs nd w = (Returns (Some (IsCRS crs)), w)).
    { unfold _try_to_get_crs.
      rewrite (bind_step _ _ w (eq_refl : read (da_attrs nd) w = (_, w))).
      rewrite Ga. reflexivity. }
    unfold _is_projected. now rewrite (bind_step _ _ w T). }
  rewrite (bind_step _ _ w P).
  set (sx := if is_projected crs then "projection_x_coordinate" else "longitude").
  set (ux := if is_projected crs then "m" else "degrees_east").
  set (sy := if is_projected crs then "projection_y_coordinate" else "latitude").
  set (uy := if is_projected crs then "m" else "degrees_north").
  destruct (set_xy_attrs_spec nd "x" sx ux w) as (w1 & E1 & C1).
  destruct (set_xy_attrs_spec nd "y" sy uy w1) as (w2 & E2 & C2).
  rewrite Gx in C1. destruct C1 as [C1 _].
  assert (E : (if is_projected crs then _encode_xy_coords_projected nd
               else _encode_xy_coords_geographic nd) w = (Returns nd, w2)).
  { subst sx ux sy uy.
    destruct (is_projected crs);
      unfold _encode_xy_coords_projected, _encode_xy_coords_geographic;
      rewrite (bind_step _ _ w E1), (bind_step _ _ w1 E2); reflexivity. }
  rewrite (bind_step _ _ w E). exists w2. split.
  - destruct (in_coords "crs" nd); reflexivity.
  - destruct (coords_get nd "y") as [y|] eqn:Gy.
    + destruct C2 as [_ C2]. rewrite C2; [exact C1|].
      intros Heq. now apply (Hy y).
    + subst w2. exact C1.
Qed.


(** *** [_cleanup_attrs] and [_remove_satpy_attributes] *)

(** [w'] is [w] but for the dictionary at [l]. *)
Definition only_at (l : loc) (w w' : World) : Prop :=
  next w' = next w /\ warns w' = warns w /\ logged w' = logged w
  /\ forall l', l' <> l -> heap w' l' = heap w l'.

Lemma only_at_refl l w : only_at l w w.
Proof. repeat split. Qed.

Lemma only_at_trans l w1 w2 w3 : only_at l w1 w2 -> only_at l w2 w3 -> only_at l w1 w3.
Proof.
  intros (N1 & W1 & L1 & H1) (N2 & W2 & L2 & H2).
  repeat split; try congruence. intros l' ne. now rewrite H2, H1.
Qed.

Lemma only_at_store l w d :
  only_at l w (mk_World (upd (heap w) l d) (next w) (warns w) (logged w)).
Proof.
  repeat split. intros l' ne. cbn [heap]. unfold upd.
  apply Nat.eqb_neq in ne. now rewrite ne.
Qed.

Lemma apop_middle (F rest : attrs_t) k v :
  ~ In k (dict_keys F) -> apop (F ++ (k, v) :: rest) k = F ++ rest.
Proof. env_free.
  unfold apop. induction F as [|[k0 v0] F IH]; simpl; intros N.
  - now rewrite String.eqb_refl.
  - destruct (String.eqb_spec k k0) as [->|ne]; [tauto|].
    rewrite IH; [reflexivity|tauto].
Qed.

Lemma NoDup_keys_middle (F rest : attrs_t) kv :
  NoDup (dict_keys (F ++ kv :: rest)) ->
  ~ In (fst kv) (dict_keys F) /\ NoDup (dict_keys (F ++ rest)).
Proof. env_free.
  unfold dict_keys. rewrite !map_app. simpl. intros ND. split.
  - apply NoDup_remove_2 in ND. intros I. apply ND. apply in_or_app. now left.
  - now apply NoDup_remove_1 in ND.
Qed.

(** The attributes that [_cleanup_attrs] keeps. *)
Definition kept_by_cleanup (kv : string * value) : bool :=
  is_not_None (snd kv)
  && negb (String.eqb (fst kv) "ancillary_variables" && is_empty_list (snd kv)).

Lemma _cleanup_attrs_body l k v (F todo : attrs_t) w :
  cell (heap w) l = F ++ (k, v) :: todo ->
  exists w1,
    ((if negb (is_not_None v) then attrs_pop l k else ret tt) ;;;
     (if String.eqb k "ancillary_variables" && is_empty_list v
      then attrs_pop l k else ret tt)) w = (Returns tt, w1)
    /\ cell (heap w1) l = F ++ filter kept_by_cleanup [(k, v)] ++ todo
    /\ only_at l w w1.
Proof. env_free.
  intros C. pose proof (cell_NoDup (heap w) l) as ND. rewrite C in ND.
  destruct (NoDup_keys_middle _ _ _ ND) as [N ND']. cbn [fst] in N.
  assert (Pop : exists w1,
             attrs_pop l k w = (Returns tt, w1)
             /\ cell (heap w1) l = F ++ todo /\ only_at l w w1).
  { rewrite attrs_pop_run. eexists. split; [reflexivity|]. cbn [heap].
    rewrite C, apop_middle by assumption.
    split; [now apply cell_upd_eq|apply only_at_store]. }
  cbn [filter]. unfold kept_by_cleanup. cbn [fst snd].
  destruct (is_not_None v) eqn:Nv; cbn [negb andb].
  - rewrite (bind_step _ _ w (eq_refl : ret tt w = (_, w))).
    destruct (String.eqb k "ancillary_variables" && is_empty_list v);
      cbn [negb app].
    + exact Pop.
    + exists w. split; [reflexivity|]. split; [exact C|apply only_at_refl].
  - destruct Pop as (w1 & E1 & C1 & O1). rewrite (bind_step _ _ w E1).
    assert (Ev : is_empty_list v = false)
      by (destruct v; try reflexivity; discriminate).
    rewrite Ev, andb_false_r. exists w1. cbn [app]. auto.
Qed.

Lemma _cleanup_attrs_loop l (todo : attrs_t) :
  forall F w,
    cell (heap w) l = F ++ todo ->
    exists w',
      for_each todo
        (fun kv =>
           (if negb (is_not_None (snd kv)) then attrs_pop l (fst kv) else ret tt) ;;;
           (if String.eqb (fst kv) "ancillary_variables" && is_empty_list (snd kv)
            then attrs_pop l (fst kv) else ret tt)) w = (Returns tt, w')
      /\ cell (heap w') l = F ++ filter kept_by_cleanup todo
      /\ only_at l w w'.
Proof. env_free.
  induction todo as [|[k v] todo IH]; intros F w C.
  - exists w. simpl. repeat split. exact C.
  - destruct (_cleanup_attrs_body _ _ _ _ _ _ C) as (w1 & E1 & C1 & O1).
    cbn [for_each fst snd]. rewrite (bind_step _ _ w E1).
    rewrite app_assoc in C1.
    destruct (IH _ w1 C1) as (w' & E & C' & O). exists w'.
    split; [exact E|]. split; [|eapply only_at_trans; eauto].
    rewrite C', <- app_assoc.
    change ((k, v) :: todo) with ([(k, v)] ++ todo). now rewrite filter_app.
Qed.

(** [_cleanup_attrs] always returns, and leaves of the attributes of the
    array, in their order, those that are not [None], the attribute
    [ancillary_variables] only if it is not the empty list; no other
    dictionary is touched. *)
Theorem _cleanup_attrs_spec nd w :
  exists w',
    _cleanup_attrs nd w = (Returns tt, w')
    /\ cell (heap w') (da_attrs nd)
       = filter kept_by_cleanup (cell (heap w) (da_attrs nd))
    /\ only_at (da_attrs nd) w w'.
Proof.
  unfold _cleanup_attrs.
  rewrite (bind_step _ _ w (eq_refl : read (da_attrs nd) w = (_, w))).
  destruct (_cleanup_attrs_loop (da_attrs nd) (cell (heap w) (da_attrs nd)) [] w
              eq_refl) as (w' & E & C & O).
  exists w'. split; [exact E|]. split; [exact C|exact O].
Qed.


(** The attributes that [_remove_satpy_attributes] keeps. *)
Definition kept_by_satpy (kv : string * value) : bool :=
  negb (startswith "_satpy" (fst kv))
  && negb (String.eqb (fst kv) "_last_resampler").

Lemma apop_filter (d : attrs_t) k :
  NoDup (dict_keys d) ->
  apop d k = filter (fun kv => negb (String.eqb (fst kv) k)) d.
Proof. env_free.
  unfold apop. induction d as [|[k0 v0] d IH]; simpl; [reflexivity|].
  intros ND. inversion ND as [|? ? N1 N2]. subst. rewrite (String.eqb_sym k0 k).
  destruct (String.eqb_spec k k0) as [->|ne]; simpl.
  - symmetry. apply forallb_filter_id. apply forallb_forall. intros [k1 v1] I.
    simpl. destruct (String.eqb_spec k1 k0) as [->|_]; [|reflexivity].
    exfalso. apply N1. unfold dict_keys. apply in_map_iff. now exists (k0, v1).
  - now rewrite IH.
Qed.

Lemma filter_twice {A} (f g : A -> bool) (l : list A) :
  filter f (filter g l) = filter (fun x => g x && f x) l.
Proof.
  induction l as [|x l IH]; simpl; [reflexivity|].
  destruct (g x); simpl; [destruct (f x)|]; now rewrite IH.
Qed.

Lemma _remove_satpy_loop l (todo : attrs_t) :
  forall F w,
    cell (heap w) l = F ++ todo ->
    exists w',
      for_each (filter (startswith "_satpy") (dict_keys todo))
        (fun satpy_attr => attrs_pop l satpy_attr) w = (Returns tt, w')
      /\ cell (heap w') l
         = F ++ filter (fun kv => negb (startswith "_satpy" (fst kv))) todo
      /\ only_at l w w'.
Proof. env_free.
  induction todo as [|[k v] todo IH]; intros F w C.
  - exists w. simpl. repeat split. exact C.
  - pose proof (cell_NoDup (heap w) l) as ND. rewrite C in ND.
    destruct (NoDup_keys_middle _ _ _ ND) as [N ND']. cbn [fst] in N.
    cbn [dict_keys map filter fst].
    destruct (startswith "_satpy" k) eqn:S; cbn [negb for_each].
    + rewrite (bind_step _ _ w (attrs_pop_run l k w)).
      destruct (IH F (mk_World (upd (heap w) l (apop (cell (heap w) l) k))
                        (next w) (warns w) (logged w)))
        as (w' & E & C' & O).
      { cbn [heap]. rewrite C, apop_middle by assumption.
        now apply cell_upd_eq. }
      exists w'. split; [exact E|]. split; [exact C'|].
      eapply only_at_trans; [apply only_at_store|exact O].
    + destruct (IH (F ++ [(k, v)]) w) as (w' & E & C' & O).
      { now rewrite <- app_assoc. }
      exists w'. split; [exact E|]. split; [|exact O].
      now rewrite C', <- app_assoc.
Qed.

Lemma NoDup_filter_keys (f : string * value -> bool) (d : attrs_t) :
  NoDup (dict_keys d) -> NoDup (dict_keys (filter f d)).
Proof. env_free.
  induction d as [|[k v] d IH]; simpl; [auto|]. intros ND.
  inversion ND as [|? ? N1 N2]. subst. destruct (f (k, v)); [|auto].
  simpl. constructor; [|auto]. intros I. apply N1.
  unfold dict_keys in *. apply in_map_iff in I as (x & <- & I).
  apply filter_In in I as [I _]. now apply in_map.
Qed.

(** The loop of [_remove_satpy_attributes] and the statement after it. *)
Lemma _remove_satpy_attributes_run nd w :
  exists w',
    _remove_satpy_attributes nd w = (Returns tt, w')
    /\ cell (heap w') (da_attrs nd)
       = apop (filter (fun kv => negb (startswith "_satpy" (fst kv)))
                 (cell (heap w) (da_attrs nd))) "_last_resampler"
    /\ only_at (da_attrs nd) w w'.
Proof.
  unfold _remove_satpy_attributes.
  rewrite (bind_step _ _ w (eq_refl : read (da_attrs nd) w = (_, w))).
  destruct (_remove_satpy_loop (da_attrs nd) (cell (heap w) (da_attrs nd)) [] w
              eq_refl) as (w1 & E & C & O).
  rewrite (bind_step _ _ w E). rewrite attrs_pop_run.
  eexists. split; [reflexivity|]. cbn [heap]. split.
  - rewrite cell_upd_eq by apply NoDup_apop, cell_NoDup. now rewrite C.
  - eapply only_at_trans; [exact O|apply only_at_store].
Qed.

Lemma pop_last_resampler (d : attrs_t) :
  NoDup (dict_keys d) ->
  apop (filter (fun kv => negb (startswith "_satpy" (fst kv))) d)
    "_last_resampler"
  = filter kept_by_satpy d.
Proof. env_free.
  intros ND. rewrite apop_filter by now apply NoDup_filter_keys.
  now rewrite filter_twice.
Qed.

(** [_remove_satpy_attributes] always returns, and leaves of the attributes
    of the array, in their order, those whose name neither starts with
    [_satpy] nor is [_last_resampler]; no other dictionary is touched. *)
Theorem _remove_satpy_attributes_spec nd w :
  exists w',
    _remove_satpy_attributes nd w = (Returns tt, w')
    /\ cell (heap w') (da_attrs nd)
       = filter kept_by_satpy (cell (heap w) (da_attrs nd))
    /\ only_at (da_attrs nd) w w'.
Proof.
  destruct (_remove_satpy_attributes_run nd w) as (w' & E & C & O).
  exists w'. split; [exact E|]. split; [|exact O].
  rewrite C. apply pop_last_resampler, cell_NoDup.
Qed.


(** *** The attributes that [da2cf] writes *)

(** A computation that leaves the store as it is. *)
Definition quiet {A} (m : M A) : Prop :=
  forall w r w', m w = (r, w') -> heap w' = heap w.

Lemma quiet_ret {A} (a : A) : quiet (ret a).
Proof. intros w r w' H. now injection H as _ <-. Qed.

Lemma quiet_raise {A} e : quiet (@raise A e).
Proof. intros w r w' H. now injection H as _ <-. Qed.

Lemma quiet_lift {A} (x : Res A) : quiet (lift x).
Proof. intros w r w' H. now injection H as _ <-. Qed.

Lemma quiet_of_option {A} (o : option A) e : quiet (of_option o e).
Proof. destruct o; [apply quiet_ret|apply quiet_raise]. Qed.

Lemma quiet_read l : quiet (read l).
Proof. intros w r w' H. now injection H as _ <-. Qed.

Lemma quiet_logger_warning msg : quiet (logger_warning msg).
Proof. intros w r w' H. now injection H as _ <-. Qed.

Lemma quiet_bind {A B} (m : M A) (k : A -> M B) :
  quiet m -> (forall a, quiet (k a)) -> quiet (bind m k).
Proof.
  intros Hm Hk w r w'. unfold bind. destruct (m w) as [[a|e] w1] eqn:E.
  - intros H. rewrite (Hk a _ _ _ H). eapply Hm; eauto.
  - intros H. injection H as _ <-. eapply Hm; eauto.
Qed.

Lemma quiet__is_projected nd : quiet (_is_projected nd).
Proof.
  assert (Qa : quiet assume_projected).
  { apply quiet_bind; [apply quiet_logger_warning|intros; apply quiet_ret]. }
  assert (Qu : quiet (projected_by_units nd)).
  { unfold projected_by_units. apply quiet_bind.
    - unfold _try_get_units_from_coords.
      apply quiet_bind; [apply quiet_of_option|]. intros x.
      apply quiet_bind; [apply quiet_read|]. intros ax.
      destruct (aget ax "units"); [apply quiet_ret|].
      apply quiet_bind; [apply quiet_of_option|]. intros y.
      apply quiet_bind; [apply quiet_read|]. intros ay. apply quiet_ret.
    - intros [u|]; [|exact Qa]. destruct (truthy u); [|exact Qa].
      destruct u; try apply quiet_raise.
      destruct (endswith "m" s); [apply quiet_ret|].
      destruct (startswith "degrees" s); [apply quiet_ret|exact Qa]. }
  unfold _is_projected. apply quiet_bind.
  - unfold _try_to_get_crs. apply quiet_bind; [apply quiet_read|]. intros attrs.
    apply quiet_bind.
    + destruct (aget attrs "area") as [area|]; [|apply quiet_ret].
      assert (Ql : quiet (logger_warning
                            ("Could not tell CRS from area of type "
                             ++ type_name area ++ ". Assuming projected CRS.") ;;;
                          ret (@None crs_like))).
      { apply quiet_bind; [apply quiet_logger_warning|intros; apply quiet_ret]. }
      destruct area; try exact Ql. destruct a; [exact Ql|apply quiet_ret].
    + intros [c|]; [apply quiet_ret|].
      destruct (coords_get nd "crs"); [|apply quiet_ret].
      apply quiet_bind; [apply quiet_lift|intros; apply quiet_ret].
  - intros [[c|z]|]; [apply quiet_ret| |exact Qu].
    destruct (Z.eqb z 0); [exact Qu|apply quiet_raise].
Qed.

Lemma quiet_iter_value v : quiet (iter_value v).
Proof. destruct v; simpl; (apply quiet_ret || apply quiet_raise). Qed.

Lemma quiet_ancillary_names l : quiet (ancillary_names l).
Proof.
  induction l as [|v l IH]; simpl; [apply quiet_ret|].
  destruct v; try apply quiet_raise.
  apply quiet_bind; [apply quiet_read|]. intros attrs.
  apply quiet_bind; [apply quiet_of_option|]. intros nm.
  apply quiet_bind; [exact IH|]. intros nms. apply quiet_ret.
Qed.


(** The addresses of the dictionaries of the coordinates. *)
Definition coord_locs (nd : DataArray) : list loc :=
  flat_map (fun kv => [v_attrs (snd kv); v_encoding (snd kv)]) (da_coords nd).

Lemma coords_get_locs nd k v :
  coords_get nd k = Some v ->
  In (v_attrs v) (coord_locs nd) /\ In (v_encoding v) (coord_locs nd).
Proof. env_free.
  intros G. apply (dict_get_In _ String.eqb_spec) in G.
  unfold coord_locs. split; apply in_flat_map; exists (k, v); simpl; auto.
Qed.

(** [r] is [nd] up to its dimensions and coordinates, of which it has no
    new dictionary. *)
Definition same_var (nd r : DataArray) : Prop :=
  da_name r = da_name nd /\ da_attrs r = da_attrs nd
  /\ da_encoding r = da_encoding nd
  /\ incl (coord_locs r) (coord_locs nd).

Lemma same_var_refl nd : same_var nd nd.
Proof. repeat split. apply incl_refl. Qed.

Lemma same_var_trans a b c : same_var a b -> same_var b c -> same_var a c.
Proof.
  intros (N1 & A1 & E1 & I1) (N2 & A2 & E2 & I2).
  repeat split; try congruence. eapply incl_tran; eauto.
Qed.

Lemma _encode_time_frame nd epoch w r w' :
  _encode_time nd epoch w = (Returns r, w') ->
  same_var nd r
  /\ forall l, ~ In l (coord_locs nd) -> cell (heap w') l = cell (heap w) l.
Proof.
  unfold _encode_time. destruct (coords_get nd "time") as [time|] eqn:G.
  2:{ unfold ret. intros [= <- <-]. split; [apply same_var_refl|auto]. }
  destruct (coords_get_locs _ _ G) as [Ia Ie].
  rewrite (bind_step _ _ w (attrs_set_run _ _ _ w)).
  rewrite (bind_step _ _ _ (attrs_set_run _ _ _ _)).
  rewrite (bind_step _ _ _ (attrs_pop_run _ _ _)).
  unfold _add_time_dimension. rewrite G. cbn [of_option].
  match goal with |- bind (ret time) _ ?w0 = _ -> _ =>
    rewrite (bind_step _ _ w0 (eq_refl : ret time w0 = (_, w0))) end.
  intros H.
  assert (F : forall l, ~ In l (coord_locs nd) -> cell (heap w') l = cell (heap w) l).
  { intros l N.
    assert (l <> v_attrs time) by (intros ->; contradiction).
    assert (l <> v_encoding time) by (intros ->; contradiction).
    destruct (_ && _); [unfold lift in H|unfold ret in H];
      injection H as _ <-; cbn [heap]; now rewrite !cell_upd_ne. }
  split; [|exact F]. clear F.
  destruct (_ && _); [|unfold ret in H; injection H as <- _; apply same_var_refl].
  unfold lift in H. injection H as H _. unfold da_expand_dims in H.
  destruct (in_dims "time" nd); [discriminate|]. rewrite G in H.
  destruct (v_dims time); [|discriminate]. injection H as <-.
  repeat split. unfold coord_locs. cbn [da_coords]. intros l I.
  apply in_flat_map in I as ([k v] & I & Il).
  apply In_coords_set in I as [[= -> ->]|I].
  - cbn in Il. destruct Il as [<-|[<-|[]]]; assumption.
  - apply in_flat_map. now exists (k, v).
Qed.

Lemma _encode_coords_frame nd w r w' :
  _encode_coords nd w = (Returns r, w') ->
  same_var nd r
  /\ forall l, ~ In l (coord_locs nd) -> cell (heap w') l = cell (heap w) l.
Proof.
  unfold _encode_coords.
  destruct (negb (in_coords "x" nd || in_coords "y" nd || in_coords "crs" nd)).
  { unfold ret. intros [= <- <-]. split; [apply same_var_refl|auto]. }
  intros H.
  apply bind_inv in H as [(p & w1 & E1 & H)|(e & _ & X)]; [|discriminate X].
  apply quiet__is_projected in E1.
  apply bind_inv in H as [(nd1 & w2 & E2 & H)|(e & _ & X)]; [|discriminate X].
  assert (X : nd1 = nd
              /\ forall l, ~ In l (coord_locs nd) ->
                           cell (heap w2) l = cell (heap w1) l).
  { assert (G : forall sx ux sy uy,
               (set_xy_attrs nd "x" sx ux ;;; set_xy_attrs nd "y" sy uy ;;;
                ret nd) w1 = (Returns nd1, w2) ->
               nd1 = nd
               /\ forall l, ~ In l (coord_locs nd) ->
                            cell (heap w2) l = cell (heap w1) l).
    { intros sx ux sy uy E.
      destruct (set_xy_attrs_spec nd "x" sx ux w1) as (wa & Ea & Ca).
      destruct (set_xy_attrs_spec nd "y" sy uy wa) as (wb & Eb & Cb).
      rewrite (bind_step _ _ w1 Ea), (bind_step _ _ wa Eb) in E.
      unfold ret in E. injection E as <- <-. split; [reflexivity|].
      intros l N.
      assert (Hb : cell (heap wb) l = cell (heap wa) l).
      { destruct (coords_get nd "y") as [y|] eqn:Gy; [|now subst wb].
        destruct Cb as [_ Cb]. apply Cb. intros ->.
        now destruct (coords_get_locs _ _ Gy). }
      rewrite Hb.
      destruct (coords_get nd "x") as [x|] eqn:Gx; [|now subst wa].
      destruct Ca as [_ Ca]. apply Ca. intros ->.
      now destruct (coords_get_locs _ _ Gx). }
    destruct p; eapply G; exact E2. }
  destruct X as [-> F].
  assert (S : same_var nd r).
  { destruct (in_coords "crs" nd); unfold ret in H; injection H as <- _;
      [|apply same_var_refl].
    repeat split. unfold coord_locs. cbn [da_drop_vars da_coords]. intros l I.
    apply in_flat_map in I as (kv & I & Il). apply In_coords_pop in I.
    apply in_flat_map. now exists kv. }
  split; [exact S|]. intros l N. 
  assert (w' = w2) as ->
    by (destruct (in_coords "crs" nd); unfold ret in H; now injection H).
  rewrite (F l N). unfold cell. now rewrite E1.
Qed.


Lemma pop_each_run l (ks : list string) :
  forall w, exists w',
    for_each ks (fun key => attrs_pop l key) w = (Returns tt, w')
    /\ cell (heap w') l = fold_left apop ks (cell (heap w) l)
    /\ only_at l w w'.
Proof. env_free.
  induction ks as [|k ks IH]; intros w.
  - exists w. repeat split.
  - cbn [for_each]. rewrite (bind_step _ _ w (attrs_pop_run l k w)).
    destruct (IH (mk_World (upd (heap w) l (apop (cell (heap w) l) k))
                    (next w) (warns w) (logged w))) as (w' & E & C & O).
    exists w'. split; [exact E|]. split.
    + rewrite C. cbn [heap fold_left].
      now rewrite cell_upd_eq by apply NoDup_apop, cell_NoDup.
    + eapply only_at_trans; [apply only_at_store|exact O].
Qed.

Lemma only_at_cell l w w' l' : only_at l w w' -> l' <> l -> cell (heap w') l' = cell (heap w) l'.
Proof. intros (_ & _ & _ & H) ne. unfold cell. now rewrite H. Qed.

(** The attributes after the removals of [da2cf]. *)
Definition removed_attrs (exclude : list string) (attrs : attrs_t) : attrs_t :=
  fold_left apop ("area" :: exclude) (filter kept_by_satpy attrs).

(** [long_name], if neither it nor [standard_name] is there. *)
Definition with_long_name (n : name) (attrs : attrs_t) : attrs_t :=
  if negb (amem attrs "long_name") && negb (amem attrs "standard_name")
  then aset attrs "long_name" (name_value n)
  else attrs.

(** What [da2cf_prepare] leaves in the attributes and in the encoding of an
    array whose dictionaries are all different. *)
Lemma da2cf_prepare_attrs nd epoch exclude compression w r w' :
  ~ In (da_attrs nd) (coord_locs nd) ->
  ~ In (da_encoding nd) (coord_locs nd) ->
  da_attrs nd <> da_encoding nd ->
  da2cf_prepare nd epoch exclude compression w = (Returns r, w') ->
  same_var nd r
  /\ cell (heap w') (da_encoding nd)
     = match compression with
       | Some c => dict_update String.eqb (cell (heap w) (da_encoding nd)) c
       | None => cell (heap w) (da_encoding nd)
       end
  /\ exists a3 a6,
       let a2 := removed_attrs exclude (cell (heap w) (da_attrs nd)) in
       let a5 := with_long_name (da_name nd) (filter kept_by_cleanup a3) in
       (a3 = a2
        \/ exists s, amem a2 "ancillary_variables" = true
                     /\ a3 = aset a2 "ancillary_variables" (VStr s))
       /\ (a6 = a5
           \/ exists v, amem a5 "prerequisites" = true
                        /\ a6 = aset a5 "prerequisites" v)
       /\ cell (heap w') (da_attrs nd) = a6.
Proof.
  intros NA NE AE H. unfold da2cf_prepare in H.
  destruct (_remove_satpy_attributes_run nd w) as (w1 & E1 & C1 & O1).
  rewrite pop_last_resampler in C1 by apply cell_NoDup.
  rewrite (bind_step _ _ w E1) in H.
  apply bind_inv in H as [(nd2 & w2 & E2 & H)|(e & _ & X)]; [|discriminate X].
  destruct (_encode_time_frame _ _ _ E2) as (S2 & F2).
  apply bind_inv in H as [(nd3 & w3 & E3 & H)|(e & _ & X)]; [|discriminate X].
  destruct (_encode_coords_frame _ _ E3) as (S3 & F3).
  pose proof (same_var_trans S2 S3) as S23.
  destruct S2 as (_ & _ & _ & I2). destruct S23 as (N3 & A3 & En3 & I3).
  assert (F23 : forall l, ~ In l (coord_locs nd) ->
                          cell (heap w3) l = cell (heap w1) l).
  { intros l N. rewrite F3, F2; auto. }
  rewrite A3, En3, N3 in H.
  set (A := da_attrs nd) in *. set (E := da_encoding nd) in *.
  destruct (pop_each_run A ("area" :: exclude) w3) as (w4 & E4 & C4 & O4).
  rewrite (bind_step _ _ w3 E4) in H.
  rewrite (bind_step _ _ w4 (eq_refl : read A w4 = (_, w4))) in H.
  apply bind_inv in H as [(ancillary & w5 & E5 & H)|(e & _ & X)]; [|discriminate X].
  pose proof (quiet_iter_value _ _ E5) as H5.
  apply bind_inv in H as [(anc & w6 & E6 & H)|(e & _ & X)]; [|discriminate X].
  pose proof (quiet_ancillary_names _ _ E6) as H6.
  apply bind_inv in H as [([] & w7 & E7 & H)|(e & _ & X)]; [|discriminate X].
  assert (X8 : exists w8,
             _cleanup_attrs nd3 w7 = (Returns tt, w8)
             /\ cell (heap w8) (da_attrs nd3)
                = filter kept_by_cleanup (cell (heap w7) (da_attrs nd3))
             /\ only_at (da_attrs nd3) w7 w8).
  { unfold _cleanup_attrs.
    rewrite (bind_step _ _ w7 (eq_refl : read (da_attrs nd3) w7 = (_, w7))).
    exact (_cleanup_attrs_loop (da_attrs nd3) _ [] w7 eq_refl). }
  destruct X8 as (w8 & E8 & C8 & O8).
  rewrite A3 in C8, O8. fold A in C8, O8.
  rewrite (bind_step _ _ w7 E8) in H.
  apply bind_inv in H as [([] & w9 & E9 & H)|(e & _ & X)]; [|discriminate X].
  rewrite (bind_step _ _ w9 (eq_refl : read A w9 = (_, w9))) in H.
  apply bind_inv in H as [([] & w10 & E10 & H)|(e & _ & X)]; [|discriminate X].
  rewrite (bind_step _ _ w10 (eq_refl : read A w10 = (_, w10))) in H.
  apply bind_inv in H as [([] & w11 & E11 & H)|(e & _ & X)]; [|discriminate X].
  unfold ret in H. injection H as <- <-.
  split; [repeat split; assumption|].
  (* the attributes and the encoding, step by step *)
  assert (X4 : cell (heap w4) A = removed_attrs exclude (cell (heap w) A)
               /\ cell (heap w4) E = cell (heap w) E).
  { split.
    - rewrite C4, F23, C1 by assumption. reflexivity.
    - rewrite (only_at_cell O4), F23, (only_at_cell O1); auto. }
  destruct X4 as [XA4 XE4].
  assert (X6 : heap w6 = heap w4) by congruence.
  assert (X7 : (cell (heap w7) A = cell (heap w4) A
                \/ exists s, amem (cell (heap w4) A) "ancillary_variables" = true
                             /\ cell (heap w7) A
                                = aset (cell (heap w4) A) "ancillary_variables"
                                    (VStr s))
               /\ cell (heap w7) E = cell (heap w4) E).
  { destruct anc as [|a anc].
    - unfold ret in E7. injection E7 as <-. unfold cell. rewrite X6. auto.
    - apply bind_inv in E7 as [(names & w6' & El & E7)|(e & _ & X)];
        [|discriminate X].
      unfold lift in El. injection El as _ <-.
      rewrite attrs_set_run in E7. injection E7 as <-. cbn [heap]. split.
      + right. exists (str_join " " names).
        rewrite cell_upd_eq by apply NoDup_aset, cell_NoDup.
        unfold cell at 2 3. rewrite X6. fold (cell (heap w4) A). split; [|reflexivity].
        destruct (aget (cell (heap w4) A) "ancillary_variables") eqn:G.
        * unfold amem, dict_mem. unfold aget in G. now rewrite G.
        * unfold iter_value, ret in E5. injection E5 as <- _.
          unfold ancillary_names, ret in E6. discriminate E6.
      + rewrite cell_upd_ne by (subst A E; congruence).
        unfold cell. now rewrite X6. }
  destruct X7 as [XA7 XE7].
  assert (X9 : cell (heap w9) A = cell (heap w8) A
               /\ cell (heap w9) E
                  = match compression with
                    | Some c => dict_update String.eqb (cell (heap w8) E) c
                    | None => cell (heap w8) E
                    end).
  { destruct compression as [c|].
    - rewrite (bind_step _ _ w8 (eq_refl : read E w8 = (_, w8))) in E9.
      unfold store in E9. injection E9 as <-. cbn [heap]. split.
      + now rewrite cell_upd_ne by (subst A E; congruence).
      + apply cell_upd_eq. apply (NoDup_dict_update _ String.eqb_spec).
        apply cell_NoDup.
    - unfold ret in E9. injection E9 as <-. auto. }
  destruct X9 as [XA9 XE9].
  assert (X10 : cell (heap w10) A
                = with_long_name (da_name nd) (cell (heap w9) A)
                /\ cell (heap w10) E = cell (heap w9) E).
  { unfold with_long_name.
    destruct (negb (amem (cell (heap w9) A) "long_name")
              && negb (amem (cell (heap w9) A) "standard_name")).
    - rewrite attrs_set_run in E10. injection E10 as <-. cbn [heap]. split.
      + apply cell_upd_eq. apply NoDup_aset, cell_NoDup.
      + now rewrite cell_upd_ne by (subst A E; congruence).
    - unfold ret in E10. injection E10 as <-. auto. }
  destruct X10 as [XA10 XE10].
  assert (X11 : (cell (heap w11) A = cell (heap w10) A
                 \/ exists v, amem (cell (heap w10) A) "prerequisites" = true
                              /\ cell (heap w11) A
                                 = aset (cell (heap w10) A) "prerequisites" v)
                /\ cell (heap w11) E = cell (heap w10) E).
  { destruct (aget (cell (heap w10) A) "prerequisites") as [p|] eqn:G.
    - apply bind_inv in E11 as [(prereqs & w10' & Ei & E11)|(e & _ & X)];
        [|discriminate X].
      pose proof (quiet_iter_value _ _ Ei) as Hi.
      rewrite attrs_set_run in E11. injection E11 as <-. cbn [heap].
      unfold cell at 2 4. rewrite Hi. fold (cell (heap w10) A). split.
      + right. eexists. split.
        * unfold amem, dict_mem. unfold aget in G. now rewrite G.
        * apply cell_upd_eq. apply NoDup_aset, cell_NoDup.
      + now rewrite cell_upd_ne by (subst A E; congruence).
    - unfold ret in E11. injection E11 as <-. auto. }
  destruct X11 as [XA11 XE11].
  split.
  - rewrite XE11, XE10, XE9, (only_at_cell O8), XE7, XE4
      by (subst A E; congruence).
    reflexivity.
  - exists (cell (heap w7) A), (cell (heap w11) A). cbv zeta.
    rewrite <- XA4. split; [exact XA7|].
    rewrite <- C8, <- XA9, <- XA10. split; [exact XA11|reflexivity].
Qed.


Lemma quiet_warn msg : quiet (warn msg).
Proof. intros w r w' H. now injection H as _ <-. Qed.

Lemma quiet__handle_dataarray_name v prefix : quiet (_handle_dataarray_name v prefix).
Proof.
  destruct v; try apply quiet_raise. unfold _handle_dataarray_name.
  apply quiet_bind; [apply quiet_of_option|]. intros c.
  destruct (isdigit c); [|apply quiet_ret].
  destruct (prefix_given prefix); [apply quiet_ret|].
  apply quiet_bind; [apply quiet_warn|intros; apply quiet_ret].
Qed.

Lemma apop_absent (d : attrs_t) k : amem d k = false -> apop d k = d.
Proof. env_free.
  unfold amem, dict_mem, apop. induction d as [|[k0 v0] d IH]; simpl; [reflexivity|].
  destruct (String.eqb k k0); [discriminate|]. intros H. now rewrite IH.
Qed.

(** [da2cf_name] takes [name] out of the attributes and touches nothing
    else. *)
Lemma da2cf_name_attrs nd prefix w named w2 :
  da2cf_name nd prefix w = (Returns named, w2) ->
  da_var (snd named) = da_var nd /\ da_coords (snd named) = da_coords nd
  /\ cell (heap w2) (da_attrs nd) = apop (cell (heap w) (da_attrs nd)) "name"
  /\ forall l, l <> da_attrs nd -> cell (heap w2) l = cell (heap w) l.
Proof.
  unfold da2cf_name.
  rewrite (bind_step _ _ w (attrs_mem_run (da_attrs nd) "name" w)).
  destruct (amem (cell (heap w) (da_attrs nd)) "name") eqn:Hm.
  - rewrite (bind_step _ _ w (attrs_get_run (da_attrs nd) "name" w)).
    rewrite (bind_step _ _ w (attrs_pop_run (da_attrs nd) "name" w)).
    intros H.
    apply bind_inv in H as [(names & w1 & E & H)|(e & _ & X)]; [|discriminate X].
    apply quiet__handle_dataarray_name in E. cbn [heap] in E.
    unfold ret in H. injection H as <- <-. cbn [snd da_rename da_var da_coords].
    split; [reflexivity|]. split; [reflexivity|]. unfold cell. rewrite E.
    split.
    + apply cell_upd_eq. apply NoDup_apop, cell_NoDup.
    + intros l ne. now apply cell_upd_ne.
  - unfold ret. intros [= <- <-]. cbn [snd].
    rewrite (apop_absent _ _ Hm). auto.
Qed.

(** A computation that writes to the dictionary at [A] alone. *)
Definition only_writes (A : loc) {T} (m : M T) : Prop :=
  forall w r w', m w = (r, w') ->
                 forall l, l <> A -> cell (heap w') l = cell (heap w) l.

Lemma only_writes_quiet A {T} (m : M T) : quiet m -> only_writes A m.
Proof. intros Q w r w' H l _. unfold cell. now rewrite (Q _ _ _ H). Qed.

Lemma only_writes_bind A {T U} (m : M T) (k : T -> M U) :
  only_writes A m -> (forall a, only_writes A (k a)) -> only_writes A (bind m k).
Proof.
  intros Hm Hk w r w'. unfold bind. destruct (m w) as [[a|e] w1] eqn:E.
  - intros H l ne. rewrite (Hk a _ _ _ H l ne). eapply Hm; eauto.
  - intros H. injection H as _ <-. eapply Hm; eauto.
Qed.

Lemma only_writes_store A d : only_writes A (store A d).
Proof.
  intros w r w' H l ne. injection H as _ <-. cbn [heap]. now apply cell_upd_ne.
Qed.

Lemma only_writes_attrs_set A k v : only_writes A (attrs_set A k v).
Proof.
  apply only_writes_bind; [apply only_writes_quiet, quiet_read|].
  intros d. apply only_writes_store.
Qed.

Lemma da2cf_finish_frame names nd flatten include_orig prefix :
  only_writes (da_attrs nd) (da2cf_finish names nd flatten include_orig prefix).
Proof.
  unfold da2cf_finish. apply only_writes_bind.
  { assert (R : only_writes (da_attrs nd) (ret tt))
      by apply only_writes_quiet, quiet_ret.
    destruct names as [[o n]|]; [|exact R].
    destruct (prefix_given prefix); [|exact R].
    destruct (_ && _); [apply only_writes_attrs_set|exact R]. }
  intros _. apply only_writes_bind.
  { destruct flatten; [|apply only_writes_quiet, quiet_ret].
    apply only_writes_bind; [apply only_writes_quiet, quiet_read|].
    intros d. apply only_writes_store. }
  intros _. apply only_writes_bind; [apply only_writes_quiet, quiet_read|].
  intros attrs. apply only_writes_bind; [apply only_writes_quiet, quiet_lift|].
  intros encoded. apply only_writes_bind; [apply only_writes_store|].
  intros _. apply only_writes_quiet, quiet_ret.
Qed.

(** [da2cf] from the attributes and the encoding it is given to those it
    returns. *)
Lemma da2cf_run dataarray epoch flatten exclude compression include_orig prefix
    w r w' :
  da2cf dataarray epoch flatten exclude compression include_orig prefix w
    = (Returns r, w') ->
  exists names a3 a6,
    let a2 := removed_attrs exclude
                (apop (cell (heap w) (da_attrs dataarray)) "name") in
    let a5 := with_long_name (da_name r) (filter kept_by_cleanup a3) in
    let a7 := with_original_name names include_orig prefix a6 in
    (a3 = a2
     \/ exists s, amem a2 "ancillary_variables" = true
                  /\ a3 = aset a2 "ancillary_variables" (VStr s))
    /\ (a6 = a5
        \/ exists v, amem a5 "prerequisites" = true
                     /\ a6 = aset a5 "prerequisites" v)
    /\ NoDup (dict_keys a6)
    /\ encode_attrs_nc (if flatten then flatten_dict a7 else a7)
       = Returns (cell (heap w') (da_attrs r))
    /\ (da_encoding dataarray < next w ->
        cell (heap w') (da_encoding r)
        = match compression with
          | Some c =>
              dict_update String.eqb (cell (heap w) (da_encoding dataarray)) c
          | None => cell (heap w) (da_encoding dataarray)
          end).
Proof.
  intros H.
  destruct (da_copy_spec dataarray w)
    as (cs' & w1' & E1 & _ & _ & _ & _ & A1 & En1 & F1).
  apply da2cf_inv in H
    as (nd & w1 & named & w2 & nd3 & w3 & E1' & E2 & E3 & E4).
  rewrite E1 in E1'. injection E1' as <- <-.
  set (nd := mk_DataArray (da_name dataarray)
               (mk_Var (da_dims dataarray) (v_data (da_var dataarray))
                  (next w) (S (next w))) cs') in *.
  apply da2cf_name_attrs in E2 as (V2 & C2 & CA2 & F2).
  change (da_attrs nd) with (next w) in CA2, F2.
  assert (A2 : da_attrs (snd named) = next w) by (unfold da_attrs; now rewrite V2).
  assert (En2 : da_encoding (snd named) = S (next w))
    by (unfold da_encoding; now rewrite V2).
  assert (L2 : forall l, In l (coord_locs (snd named)) -> S (S (next w)) <= l).
  { unfold coord_locs. rewrite C2. cbn [nd da_coords].
    apply (copy_locs_fresh F1). }
  apply da2cf_prepare_attrs in E3 as ((N3 & A3 & En3 & _) & XE & a3 & a6 & R3 & R6 & CA).
  2:{ rewrite A2. intros I. apply L2 in I. lia. }
  2:{ rewrite En2. intros I. apply L2 in I. lia. }
  2:{ rewrite A2, En2. lia. }
  rewrite A2 in *. rewrite En2 in *.
  pose proof (@da2cf_finish_frame (fst named) nd3 flatten include_orig prefix
                _ _ _ E4) as F4.
  apply da2cf_finish_spec in E4 as (-> & _ & Enc).
  rewrite A3 in Enc, F4. rewrite A3, En3, N3.
  exists (fst named), a3, a6. cbv zeta in *.
  rewrite CA2, A1 in R3. split; [exact R3|].
  split; [exact R6|].
  split; [rewrite <- CA; apply cell_NoDup|].
  rewrite CA in Enc. split; [exact Enc|].
  intros Hl. rewrite F4, XE, F2 by lia. now rewrite (En1 Hl).
Qed.


(** The encoding of the array that [da2cf] returns is the encoding of the
    array it was given, updated with the compression if one is given: what
    the compression sets replaces what the array had under the same key. *)
Theorem da2cf_encoding dataarray epoch flatten exclude compression include_orig
    prefix w r w' :
  da_encoding dataarray < next w ->
  da2cf dataarray epoch flatten exclude compression include_orig prefix w
    = (Returns r, w') ->
  cell (heap w') (da_encoding r)
  = match compression with
    | Some c => dict_update String.eqb (cell (heap w) (da_encoding dataarray)) c
    | None => cell (heap w) (da_encoding dataarray)
    end.
Proof.
  intros Hl H.
  destruct (da2cf_run _ _ _ _ _ _ _ _ H) as (names & a3 & a6 & _ & _ & _ & _ & E).
  exact (E Hl).
Qed.

(** **** Attributes that are not there *)

Lemma absent_filter (f : string * value -> bool) (d : attrs_t) k :
  aget d k = None -> aget (filter f d) k = None.
Proof. env_free.
  unfold aget. intros H. apply (dict_get_None _ String.eqb_spec).
  apply (dict_get_None _ String.eqb_spec) in H. intros I. apply H.
  unfold dict_keys in *. apply in_map_iff in I as (x & <- & I).
  apply filter_In in I as [I _]. now apply in_map.
Qed.

Lemma filter_drops (f : string * value -> bool) (d : attrs_t) k :
  (forall v, f (k, v) = false) -> aget (filter f d) k = None.
Proof. env_free.
  unfold aget. intros H. apply (dict_get_None _ String.eqb_spec). intros I.
  unfold dict_keys in I. apply in_map_iff in I as ([k0 v] & E & I).
  simpl in E. subst k0. apply filter_In in I as [_ I]. rewrite H in I.
  discriminate I.
Qed.

Lemma absent_apop (d : attrs_t) k k' : aget d k = None -> aget (apop d k') k = None.
Proof. env_free.
  unfold aget, apop. intros H. apply (dict_get_None _ String.eqb_spec).
  apply (dict_get_None _ String.eqb_spec) in H. intros I. apply H.
  eapply In_keys_pop; eauto.
Qed.

Lemma absent_aset (d : attrs_t) k k' v :
  k' <> k -> aget d k = None -> aget (aset d k' v) k = None.
Proof. env_free.
  unfold aget, aset. intros ne H.
  now rewrite (dict_get_set_ne _ String.eqb_spec).
Qed.

Lemma absent_pops (ks : list string) k :
  forall d : attrs_t,
    NoDup (dict_keys d) ->
    aget d k = None \/ In k ks -> aget (fold_left apop ks d) k = None.
Proof. env_free.
  induction ks as [|k0 ks IH]; intros d ND [H|H]; simpl.
  - exact H.
  - destruct H.
  - apply IH; [now apply NoDup_apop|]. left. now apply absent_apop.
  - apply IH; [now apply NoDup_apop|]. destruct H as [->|H]; [|now right].
    left. unfold aget, apop. now apply (dict_get_pop_eq _ String.eqb_spec).
Qed.

Lemma NoDup_pops (ks : list string) :
  forall d : attrs_t, NoDup (dict_keys d) -> NoDup (dict_keys (fold_left apop ks d)).
Proof. env_free.
  induction ks as [|k0 ks IH]; intros d ND; simpl; [exact ND|].
  apply IH. now apply NoDup_apop.
Qed.

Lemma encode_attrs_nc_absent attrs encoded k :
  NoDup (dict_keys attrs) -> encode_attrs_nc attrs = Returns encoded ->
  aget attrs k = None -> aget encoded k = None.
Proof.
  intros ND. unfold encode_attrs_nc.
  destruct (encode_items (sorted_items attrs)) as [res|] eqn:E; [|discriminate].
  intros H G. injection H as <-.
  pose proof (NoDup_sorted_items _ ND) as NDs.
  pose proof (encode_items_NoDup _ E NDs) as NDr.
  rewrite (dict_of_items_id _ String.eqb_spec) by assumption.
  pose proof (encode_items_get _ E NDs k) as X.
  rewrite dict_get_sorted_items in X by assumption.
  unfold aget in *. now rewrite G in X.
Qed.


(** The attributes that [da2cf] takes out: the area, those the caller
    excludes, those of satpy and the name. *)
Definition taken_out (exclude : list string) (k : string) : Prop :=
  k = "area" \/ In k exclude \/ startswith "_satpy" k = true
  \/ k = "_last_resampler" \/ k = "name".

Lemma removed_attrs_absent exclude (d : attrs_t) k :
  NoDup (dict_keys d) ->
  taken_out exclude k -> aget (removed_attrs exclude (apop d "name")) k = None.
Proof. env_free.
  intros ND T. unfold removed_attrs.
  pose proof (@NoDup_apop d "name" ND) as ND0.
  apply absent_pops; [now apply NoDup_filter_keys|].
  destruct T as [-> | [I | [S | [-> | ->]]]].
  - right. now left.
  - right. now right.
  - left. apply filter_drops. intros v. unfold kept_by_satpy. cbn [fst].
    now rewrite S.
  - left. apply filter_drops. intros v. reflexivity.
  - left. apply absent_filter. unfold aget, apop.
    now apply (dict_get_pop_eq _ String.eqb_spec).
Qed.

Lemma amem_absent (d : attrs_t) k : aget d k = None -> amem d k = true -> False.
Proof. env_free. unfold amem, dict_mem, aget. intros ->. discriminate. Qed.

(** Without flattening, the array that [da2cf] returns has none of the
    attributes that are taken out: not [area], [name] or [_last_resampler],
    none whose name starts with [_satpy], and none that the caller excludes,
    with two exceptions: [long_name] and [original_name] are written after
    the exclusion, and may be there although excluded. *)
Theorem da2cf_attrs_removed dataarray epoch exclude compression include_orig
    prefix w r w' k :
  da2cf dataarray epoch false exclude compression include_orig prefix w
    = (Returns r, w') ->
  taken_out exclude k -> k <> "long_name" -> k <> "original_name" ->
  aget (cell (heap w') (da_attrs r)) k = None.
Proof.
  intros H T Nl No.
  destruct (da2cf_run _ _ _ _ _ _ _ _ H)
    as (names & a3 & a6 & R3 & R6 & ND6 & Enc & _).
  cbv zeta in *.
  pose proof (@removed_attrs_absent exclude _ k
                (cell_NoDup (heap w) (da_attrs dataarray)) T) as G2.
  assert (G3 : aget a3 k = None).
  { destruct R3 as [->|(s & M & ->)]; [exact G2|].
    apply absent_aset; [|exact G2]. intros <-. exact (amem_absent _ _ G2 M). }
  assert (G5 : aget (with_long_name (da_name r) (filter kept_by_cleanup a3)) k = None).
  { unfold with_long_name. destruct (_ && _); [|now apply absent_filter].
    apply absent_aset; [congruence|]. now apply absent_filter. }
  assert (G6 : aget a6 k = None).
  { destruct R6 as [->|(v & M & ->)]; [exact G5|].
    apply absent_aset; [|exact G5]. intros <-. exact (amem_absent _ _ G5 M). }
  eapply encode_attrs_nc_absent; [|exact Enc|].
  - now apply with_original_name_NoDup.
  - unfold with_original_name. destruct names as [[o n]|]; [|exact G6].
    destruct (prefix_given prefix); [|exact G6].
    destruct (_ && _); [|exact G6]. apply absent_aset; [congruence|exact G6].
Qed.

(** Without flattening, the array that [da2cf] returns with a name has a
    [long_name] or a [standard_name]: if neither is left after the cleaning
    of the attributes, the name of the array is written as its
    [long_name]. *)
Theorem da2cf_long_name dataarray epoch exclude compression include_orig
    prefix w r w' n :
  da2cf dataarray epoch false exclude compression include_orig prefix w
    = (Returns r, w') ->
  da_name r = Some n ->
  let attrs := cell (heap w') (da_attrs r) in
  amem attrs "long_name" || amem attrs "standard_name" = true.
Proof.
  intros H Hn attrs. subst attrs.
  destruct (da2cf_run _ _ _ _ _ _ _ _ H)
    as (names & a3 & a6 & _ & R6 & ND6 & Enc & _).
  cbv zeta in *. rewrite Hn in R6.
  set (a4 := filter kept_by_cleanup a3) in *.
  assert (V4 : forall k v, aget a4 k = Some v -> is_not_None v = true).
  { intros k v G. apply (dict_get_In _ String.eqb_spec) in G.
    apply filter_In in G as [_ G]. unfold kept_by_cleanup in G. cbn [snd] in G.
    now apply andb_true_iff in G as [G _]. }
  assert (G5 : exists k v, (k = "long_name" \/ k = "standard_name")
                           /\ aget (with_long_name (Some n) a4) k = Some v
                           /\ is_not_None v = true).
  { unfold with_long_name.
    destruct (amem a4 "long_name") eqn:Ml; cbn [negb andb].
    - unfold amem, dict_mem in Ml.
      destruct (dict_get String.eqb a4 "long_name") as [v|] eqn:G; [|discriminate].
      exists "long_name", v. split; [now left|]. split; [exact G|]. eapply V4; eauto.
    - destruct (amem a4 "standard_name") eqn:Ms; cbn [negb].
      + unfold amem, dict_mem in Ms.
        destruct (dict_get String.eqb a4 "standard_name") as [v|] eqn:G;
          [|discriminate].
        exists "standard_name", v. split; [now right|]. split; [exact G|].
        eapply V4; eauto.
      + exists "long_name", (VStr n). split; [now left|]. split; [|reflexivity].
        unfold aget, aset. apply (dict_get_set_eq _ String.eqb_spec). }
  destruct G5 as (k & v & Hk & G5 & Nv).
  assert (G7 : aget (with_original_name names include_orig prefix a6) k = Some v).
  { assert (G6 : aget a6 k = Some v).
    { destruct R6 as [->|(p & M & ->)]; [exact G5|].
      unfold aget, aset. rewrite (dict_get_set_ne _ String.eqb_spec); [exact G5|].
      destruct Hk as [->| ->]; discriminate. }
    unfold with_original_name. destruct names as [[o m]|]; [|exact G6].
    destruct (prefix_given prefix); [|exact G6].
    destruct (_ && _); [|exact G6].
    unfold aget, aset. rewrite (dict_get_set_ne _ String.eqb_spec); [exact G6|].
    destruct Hk as [->| ->]; discriminate. }
  pose proof (@with_original_name_NoDup names include_orig prefix _ ND6) as ND7.
  unfold encode_attrs_nc in Enc.
  destruct (encode_items (sorted_items _)) as [res|] eqn:E; [|discriminate].
  injection Enc as Enc.
  pose proof (NoDup_sorted_items _ ND7) as NDs.
  pose proof (encode_items_NoDup _ E NDs) as NDr.
  rewrite (dict_of_items_id _ String.eqb_spec) in Enc by assumption.
  pose proof (encode_items_get _ E NDs k) as X.
  rewrite dict_get_sorted_items in X by assumption.
  unfold aget in G7. rewrite G7, Nv in X. destruct X as (enc & _ & X).
  rewrite <- Enc. unfold amem, dict_mem.
  destruct Hk as [->| ->]; rewrite X; [reflexivity|apply orb_true_r].
Qed.


(** *** [_encode_time] *)

(** What [_encode_time] does to an array with a [time] coordinate, when it
    returns: the encoding of the coordinate has the epoch as its [units],
    its attributes have the [standard_name] [time] and no [bounds], and the
    array has a new first dimension [time] exactly when [time] is not a
    dimension of it and the size of the coordinate is not among the
    lengths of its dimensions. *)
Theorem _encode_time_spec nd epoch time w r w' :
  coords_get nd "time" = Some time ->
  _encode_time nd epoch w = (Returns r, w') ->
  aget (cell (heap w') (v_encoding time)) "units" = Some (VStr epoch)
  /\ aget (cell (heap w') (v_attrs time)) "standard_name" = Some (VStr "time")
  /\ aget (cell (heap w') (v_attrs time)) "bounds" = None
  /\ da_dims r
     = if negb (in_dims "time" nd)
          && negb (nat_in (nd_size (v_data time)) (da_shape nd))
       then "time" :: da_dims nd
       else da_dims nd.
Proof.
  intros G. unfold _encode_time. rewrite G.
  rewrite (bind_step _ _ w (attrs_set_run _ _ _ w)).
  rewrite (bind_step _ _ _ (attrs_set_run _ _ _ _)).
  rewrite (bind_step _ _ _ (attrs_pop_run _ _ _)).
  unfold _add_time_dimension. rewrite G. cbn [of_option].
  match goal with |- bind (ret time) _ ?w0 = _ -> _ =>
    rewrite (bind_step _ _ w0 (eq_refl : ret time w0 = (_, w0))) end.
  intros H.
  set (u := aset (cell (heap w) (v_encoding time)) "units" (VStr epoch)) in *.
  set (h1 := upd (heap w) (v_encoding time) u) in *.
  set (s := aset (cell h1 (v_attrs time)) "standard_name" (VStr "time")) in *.
  set (h2 := upd h1 (v_attrs time) s) in *.
  set (b := apop (cell h2 (v_attrs time)) "bounds") in *.
  assert (NDu : NoDup (dict_keys u)) by apply NoDup_aset, cell_NoDup.
  assert (NDs : NoDup (dict_keys s)) by apply NoDup_aset, cell_NoDup.
  assert (NDb : NoDup (dict_keys b)) by apply NoDup_apop, cell_NoDup.
  assert (Gu : aget u "units" = Some (VStr epoch))
    by apply (dict_get_set_eq _ String.eqb_spec).
  assert (Gs : aget s "standard_name" = Some (VStr "time"))
    by apply (dict_get_set_eq _ String.eqb_spec).
  assert (C2 : cell h2 (v_attrs time) = s) by now apply cell_upd_eq.
  assert (Hw : heap w' = upd h2 (v_attrs time) b).
  { destruct (_ && _); [unfold lift in H|unfold ret in H];
      now injection H as _ <-. }
  rewrite Hw. rewrite (@cell_upd_eq _ _ _ NDb).
  split; [|split; [|split]].
  - destruct (Nat.eq_dec (v_encoding time) (v_attrs time)) as [E|ne].
    + rewrite E, (@cell_upd_eq _ _ _ NDb). subst b. rewrite C2.
      unfold aget, apop. rewrite (dict_get_pop_ne _ String.eqb_spec) by discriminate.
      subst s. unfold aset.
      rewrite (dict_get_set_ne _ String.eqb_spec) by discriminate.
      subst h1. rewrite <- E, (@cell_upd_eq _ _ _ NDu). exact Gu.
    + rewrite cell_upd_ne by assumption. subst h2.
      rewrite cell_upd_ne by assumption. subst h1.
      now rewrite (@cell_upd_eq _ _ _ NDu).
  - subst b. rewrite C2. unfold aget, apop.
    rewrite (dict_get_pop_ne _ String.eqb_spec) by discriminate. exact Gs.
  - subst b. unfold aget, apop. apply (dict_get_pop_eq _ String.eqb_spec).
    apply cell_NoDup.
  - destruct (negb (in_dims "time" nd)) eqn:D; cbn [andb] in *;
      [|unfold ret in H; now injection H as <- _].
    destruct (negb (nat_in (nd_size (v_data time)) (da_shape nd)));
      [|unfold ret in H; now injection H as <- _].
    unfold lift in H. injection H as H _. unfold da_expand_dims in H.
    apply negb_true_iff in D. rewrite D, G in H.
    destruct (v_dims time); [|discriminate]. now injection H as <-.
Qed.


(** *** What was in the store before a call *)

Section Safe.
(** The addresses below [n] are those of the caller. *)
Variable n : nat.

(** The dictionaries of the array are not the caller's. *)
Definition fresh (d : DataArray) : Prop :=
  forall l, In l (locs_of d) -> n <= l.

Definition all_fresh {K} (datas : list (K * DataArray)) : Prop :=
  forall k d, In (k, d) datas -> fresh d.

(** [safe m Q]: from a state that has the caller's dictionaries, [m] leaves
    them as they are, and what it returns satisfies [Q]. *)
Definition safe {A} (m : M A) (Q : A -> Prop) : Prop :=
  forall w, n <= next w ->
            stable n w (snd (m w)) /\ forall a, fst (m w) = Returns a -> Q a.

Lemma safe_ret {A} (a : A) (Q : A -> Prop) : Q a -> safe (ret a) Q.
Proof.
  intros H w _. split; [apply stable_refl|]. simpl. now intros a' [= <-].
Qed.

Lemma safe_raise {A} e (Q : A -> Prop) : safe (raise e) Q.
Proof. intros w _. split; [apply stable_refl|]. simpl. discriminate. Qed.

Lemma safe_lift {A} (r : Res A) (Q : A -> Prop) :
  (forall a, r = Returns a -> Q a) -> safe (lift r) Q.
Proof. intros H w _. split; [apply stable_refl|]. simpl. auto. Qed.

Lemma safe_of_option {A} (o : option A) e (Q : A -> Prop) :
  (forall a, o = Some a -> Q a) -> safe (of_option o e) Q.
Proof.
  intros H. destruct o; [apply safe_ret; auto|apply safe_raise].
Qed.

Lemma safe_weaken {A} (m : M A) (P Q : A -> Prop) :
  safe m P -> (forall a, P a -> Q a) -> safe m Q.
Proof. intros H I w Hn. destruct (H w Hn) as [S R]. split; auto. Qed.

Lemma safe_bind {A B} (m : M A) (k : A -> M B) (P : A -> Prop) (Q : B -> Prop) :
  safe m P -> (forall a, P a -> safe (k a) Q) -> safe (bind m k) Q.
Proof.
  intros Hm Hk w Hn. unfold bind. destruct (Hm w Hn) as [S R].
  destruct (m w) as [[a|e] w1]; cbn [fst snd] in *.
  - destruct (Hk a (R a eq_refl) w1) as [S2 R2]; [destruct S; lia|].
    split; [eapply stable_trans; eauto|exact R2].
  - split; [exact S|discriminate].
Qed.

Lemma safe_read l : safe (read l) (fun _ => True).
Proof. intros w _. split; [apply stable_refl|auto]. Qed.

Lemma safe_get_heap : safe get_heap (fun _ => True).
Proof. intros w _. split; [apply stable_refl|auto]. Qed.

Lemma safe_warn msg : safe (warn msg) (fun _ => True).
Proof. intros w _. split; [|auto]. split; simpl; auto. Qed.

Lemma safe_logger_warning msg : safe (logger_warning msg) (fun _ => True).
Proof. intros w _. split; [|auto]. split; simpl; auto. Qed.

Lemma safe_alloc d : safe (alloc d) (fun l => n <= l).
Proof.
  intros w Hn. split.
  - split; simpl; [lia|]. intros l Hl. apply upd_ne. lia.
  - simpl. now intros a [= <-].
Qed.

Lemma safe_store l d : n <= l -> safe (store l d) (fun _ => True).
Proof.
  intros Hl w Hn. split; [|auto]. split; simpl; [lia|].
  intros l' Hl'. apply upd_ne. lia.
Qed.

Lemma safe_attrs_set l k v : n <= l -> safe (attrs_set l k v) (fun _ => True).
Proof.
  intros Hl. eapply safe_bind; [apply safe_read|]. intros d _.
  now apply safe_store.
Qed.

Lemma safe_attrs_pop l k : n <= l -> safe (attrs_pop l k) (fun _ => True).
Proof.
  intros Hl. eapply safe_bind; [apply safe_read|]. intros d _.
  now apply safe_store.
Qed.

Lemma safe_for_fold {A S} (xs : list A) (body : S -> A -> M S) (I : S -> Prop) :
  (forall s x, In x xs -> I s -> safe (body s x) I) ->
  forall s, I s -> safe (for_fold xs s body) I.
Proof.
  induction xs as [|x xs IH]; intros H s Hs; simpl.
  - now apply safe_ret.
  - eapply safe_bind; [apply H; [now left|exact Hs]|].
    intros s' Hs'. apply IH; [|exact Hs']. intros s0 y Hy. apply H. now right.
Qed.

Lemma safe_try_except {A} (m : M A) h (Q : A -> Prop) :
  safe m Q -> (forall e k, h e = Some k -> safe k Q) -> safe (try_except m h) Q.
Proof.
  intros Hm Hh w Hn. unfold try_except. destruct (Hm w Hn) as [S R].
  destruct (m w) as [[a|e] w1]; cbn [fst snd] in *; [split; assumption|].
  destruct (h e) as [k|] eqn:E; [|split; [exact S|discriminate]].
  destruct (Hh e k E w1) as [S2 R2]; [destruct S; lia|].
  split; [eapply stable_trans; eauto|exact R2].
Qed.

(** A computation that writes where [ok] allows is safe if [ok] allows no
    address of the caller. *)
Lemma safe_does (ok : loc -> attrs_t -> attrs_t -> Prop) {A} (m : M A)
    (Q : A -> Prop) :
  (forall l old new, ok l old new -> n <= l) -> does ok m Q -> safe m Q.
Proof.
  intros Hok D w Hn. destruct (D w) as [C R]. split; [|exact R].
  eapply change_stable; eauto.
Qed.
End Safe.


Lemma fresh_intro n nm v cs :
  n <= v_attrs v -> n <= v_encoding v ->
  (forall l, In l (flat_map (fun kv => [v_attrs (snd kv); v_encoding (snd kv)]) cs)
             -> n <= l) ->
  fresh n (mk_DataArray nm v cs).
Proof. env_free. intros Ha He Hc l [<-|[<-|I]]; auto. Qed.

Lemma fresh_var_locs n d :
  fresh n d -> n <= da_attrs d /\ n <= da_encoding d.
Proof. env_free. intros F. split; apply F; simpl; auto. Qed.

Lemma fresh_coords n d :
  fresh n d ->
  forall l, In l (flat_map (fun kv => [v_attrs (snd kv); v_encoding (snd kv)])
                    (da_coords d)) -> n <= l.
Proof. env_free. intros F l I. apply F. right. now right. Qed.

Lemma fresh_coord n d k v :
  fresh n d -> In (k, v) (da_coords d) -> n <= v_attrs v /\ n <= v_encoding v.
Proof. env_free.
  intros F I. split; apply (fresh_coords F); apply in_flat_map; exists (k, v);
    (split; [exact I|simpl; auto]).
Qed.

Lemma safe_copy_var n v :
  safe n (copy_var v) (fun v' => n <= v_attrs v' /\ n <= v_encoding v').
Proof.
  unfold copy_var.
  eapply safe_bind; [apply safe_read|]. intros a _.
  eapply safe_bind; [apply safe_alloc|]. intros la Hla.
  eapply safe_bind; [apply safe_read|]. intros e _.
  eapply safe_bind; [apply safe_alloc|]. intros le Hle.
  apply safe_ret. split; assumption.
Qed.

Lemma safe_copy_coords n cs :
  safe n (copy_coords cs)
    (fun cs' => forall l,
         In l (flat_map (fun kv => [v_attrs (snd kv); v_encoding (snd kv)]) cs')
         -> n <= l).
Proof.
  induction cs as [|[k v] cs IH]; simpl.
  - apply safe_ret. intros l [].
  - eapply safe_bind; [apply safe_copy_var|]. intros v' [Ha He].
    eapply safe_bind; [exact IH|]. intros cs' Hc.
    apply safe_ret. intros l [<-|[<-|I]]; auto.
Qed.

Lemma safe_da_copy n d : safe n (da_copy d) (fresh n).
Proof.
  unfold da_copy.
  eapply safe_bind; [apply safe_copy_var|]. intros v [Ha He].
  eapply safe_bind; [apply safe_copy_coords|]. intros cs Hc.
  apply safe_ret. now apply fresh_intro.
Qed.

Lemma safe_new_DataArray n data dims attrs nm :
  safe n (new_DataArray data dims attrs nm) (fresh n).
Proof.
  unfold new_DataArray.
  eapply safe_bind; [apply safe_alloc|]. intros la Hla.
  eapply safe_bind; [apply safe_alloc|]. intros le Hle.
  apply safe_ret. apply fresh_intro; auto. intros l [].
Qed.

Lemma fresh_set_coord n d key v :
  fresh n d -> n <= v_attrs v -> n <= v_encoding v ->
  fresh n (mk_DataArray (da_name d) (da_var d)
             (dict_set String.eqb (da_coords d) key v)).
Proof.
  intros F Ha He. destruct (fresh_var_locs F) as [Fa Fe].
  apply fresh_intro; auto. intros l I.
  apply in_flat_map in I as ([k v'] & I & Il).
  apply In_coords_set in I as [[= -> ->]|I].
  - destruct Il as [<-|[<-|[]]]; assumption.
  - destruct (fresh_coord _ _ F I) as [Ca Ce].
    destruct Il as [<-|[<-|[]]]; assumption.
Qed.

Lemma safe_da_setitem n d key value :
  fresh n d -> fresh n value -> safe n (da_setitem d key value) (fresh n).
Proof.
  intros Fd Fv. unfold da_setitem. destruct (fits _ _); [|apply safe_raise].
  apply safe_ret. destruct (fresh_var_locs Fv). now apply fresh_set_coord.
Qed.

Lemma safe_da_squeeze n d drop : safe n (da_squeeze d drop) (fresh n).
Proof.
  unfold da_squeeze.
  destruct (squeeze_dims _ _ _) as [[ks ns]|e]; [|apply safe_raise].
  eapply safe_bind; [apply safe_copy_var|]. intros v [Ha He].
  eapply safe_bind; [apply safe_copy_coords|]. intros cs Hc.
  apply safe_ret. now apply fresh_intro.
Qed.


Lemma safe_iter_value n v : safe n (iter_value v) (fun _ => True).
Proof. destruct v; simpl; (now apply safe_ret) || apply safe_raise. Qed.

Lemma safe_get_extra_ds n fuel :
  forall dataset keys, safe n (get_extra_ds fuel dataset keys) (fun _ => True).
Proof.
  induction fuel as [|fuel IH]; intros dataset keys; simpl; [apply safe_raise|].
  eapply safe_bind; [apply safe_read|]. intros attrs _.
  eapply safe_bind; [apply safe_iter_value|]. intros ancillary _.
  eapply safe_bind with (P := fun _ => True).
  { apply safe_for_fold with (I := fun _ => True); [|exact I].
    intros ck ds _ _. destruct (snd ck) as [[|k ks]|]; try now apply safe_ret.
    destruct ds; try apply safe_raise.
    destruct (negb _); [|now apply safe_ret].
    eapply safe_bind; [apply IH|]. intros sub _. now apply safe_ret. }
  intros ck _.
  eapply safe_bind; [apply safe_read|]. intros attrs' _.
  eapply safe_bind with (P := fun _ => True); [now apply safe_of_option|].
  intros nm _. destruct nm; try apply safe_raise. now apply safe_ret.
Qed.

Lemma safe_gather n datasets : safe n (gather datasets) (fun _ => True).
Proof.
  unfold gather. apply safe_for_fold with (I := fun _ => True); [|exact I].
  intros c ds _ _. eapply safe_bind; [apply safe_get_extra_ds|].
  intros sub _. now apply safe_ret.
Qed.

Lemma safe_area2lonlat n d : safe n (area2lonlat d) (fresh n).
Proof.
  unfold area2lonlat.
  eapply safe_bind; [apply safe_da_copy|]. intros d1 F1.
  eapply safe_bind; [apply safe_read|]. intros attrs _.
  eapply safe_bind with (P := fun _ => True); [now apply safe_of_option|].
  intros area _. destruct area; try apply safe_raise.
  eapply safe_bind; [apply safe_new_DataArray|]. intros lon Flon.
  eapply safe_bind; [now apply safe_da_setitem|]. intros d2 F2.
  eapply safe_bind; [apply safe_new_DataArray|]. intros lat Flat.
  eapply safe_bind; [now apply safe_da_setitem|]. intros d3 F3.
  now apply safe_ret.
Qed.

Lemma safe_area2gridmapping n d :
  safe n (area2gridmapping d) (fun dg => fresh n (fst dg) /\ fresh n (snd dg)).
Proof.
  unfold area2gridmapping.
  eapply safe_bind; [apply safe_da_copy|]. intros d1 F1.
  eapply safe_bind; [apply safe_read|]. intros attrs _.
  eapply safe_bind with (P := fun _ => True); [now apply safe_of_option|].
  intros area _. destruct area; try apply safe_raise.
  eapply safe_bind with (P := fun _ => True).
  { unfold create_grid_mapping. destruct pyproj_too_old; [apply safe_raise|].
    destruct a; [apply safe_raise|now apply safe_ret]. }
  intros gm _.
  eapply safe_bind; [apply safe_attrs_set; now apply (fresh_var_locs F1)|].
  intros _ _.
  eapply safe_bind; [apply safe_new_DataArray|]. intros g Fg.
  apply safe_ret. split; assumption.
Qed.

Lemma safe_area2cf n d strict got_lonlats :
  fresh n d -> safe n (area2cf d strict got_lonlats) (Forall (fresh n)).
Proof.
  intros F. unfold area2cf.
  eapply safe_bind with (P := fresh n).
  { destruct (negb got_lonlats); [|now apply safe_ret].
    eapply safe_bind; [apply safe_read|]. intros attrs _.
    eapply safe_bind with (P := fun _ => True); [now apply safe_of_option|].
    intros area _. destruct (_ || _); [apply safe_area2lonlat|now apply safe_ret]. }
  intros d1 F1.
  eapply safe_bind; [apply safe_read|]. intros attrs _.
  eapply safe_bind with (P := fun _ => True); [now apply safe_of_option|].
  intros area _. destruct (is_AreaDefinition area).
  - eapply safe_bind; [apply safe_area2gridmapping|]. intros dg [F2 F3].
    apply safe_ret. repeat constructor; assumption.
  - apply safe_ret. repeat constructor; assumption.
Qed.

Lemma within_fresh n L enc d :
  (forall l, In l L -> n <= l) -> within L enc d -> fresh n d.
Proof. env_free.
  destruct d as [nm v cs]. intros HL (Ia & E & Ie & C).
  cbn [da_coords] in C. apply fresh_intro.
  - now apply HL.
  - apply HL. now rewrite <- E in Ie.
  - intros l I. apply in_flat_map in I as ([k c] & I & Il).
    destruct (C k c I) as [Ca Ce]. destruct Il as [<-|[<-|[]]]; now apply HL.
Qed.

(** [da2cf] writes to the dictionaries of its copy only, and returns an
    array that has no dictionary of the caller. *)
Lemma safe_da2cf n dataarray epoch flatten exclude compression include_orig prefix :
  safe n (da2cf dataarray epoch flatten exclude compression include_orig prefix)
    (fresh n).
Proof.
  unfold da2cf.
  eapply safe_bind; [apply safe_da_copy|]. intros nd F.
  assert (Hok : forall l (old new : attrs_t),
             ok_prepare (locs_of nd) (da_encoding nd) l old new -> n <= l).
  { intros l old new [I _]. now apply F. }
  eapply safe_bind.
  { apply (safe_does Hok). apply does_da2cf_name. apply within_locs_of. }
  intros named (W2 & _ & _).
  eapply safe_bind.
  { apply (safe_does Hok). apply does_da2cf_prepare. exact W2. }
  intros nd3 (W3 & _ & _).
  pose proof (@within_fresh n (locs_of nd) (da_encoding nd) nd3 F W3) as F3.
  eapply safe_weaken.
  { apply safe_does with (ok := fun l _ _ => l = da_attrs nd3);
      [|apply does_da2cf_finish].
    intros l _ _ ->. now apply (fresh_var_locs F3). }
  intros r ->. exact F3.
Qed.


Lemma all_fresh_nil n {K} : all_fresh n (@nil (K * DataArray)).
Proof. intros k d []. Qed.

Lemma In_dict_set {K V} (eqb : K -> K -> bool) (d : dict K V) k v kv :
  In kv (dict_set eqb d k v) -> snd kv = v \/ In kv d.
Proof.
  induction d as [|[k0 v0] d IH]; simpl.
  - intros [<-|[]]. now left.
  - destruct (eqb k k0); simpl.
    + intros [<-|I]; [now left|right; now right].
    + intros [<-|I]; [right; now left|]. destruct (IH I); auto.
Qed.

Lemma all_fresh_dset n (datas : dict name DataArray) nm d :
  all_fresh n datas -> fresh n d -> all_fresh n (dset datas nm d).
Proof. env_free.
  intros A F k d' I. apply In_dict_set in I as [E|I]; [|eauto].
  cbn [snd] in E. now subst d'.
Qed.

Lemma all_fresh_dget n (datas : dict name DataArray) nm d :
  all_fresh n datas -> dget datas nm = Some d -> fresh n d.
Proof. env_free.
  intros A G. apply (dict_get_In _ name_eqb_spec) in G. eauto.
Qed.

Lemma safe_transform_one n o acc new_ds :
  all_fresh n (fst (fst acc)) ->
  safe n (transform_one o acc new_ds) (fun acc' => all_fresh n (fst (fst acc'))).
Proof.
  destruct acc as [[datas st] et]. cbn [fst]. intros A. unfold transform_one.
  eapply safe_bind; [apply safe_read|]. intros attrs _.
  eapply safe_bind; [apply safe_da2cf|]. intros new_var F.
  apply safe_ret. cbn [fst]. now apply all_fresh_dset.
Qed.

Lemma safe_transform_all n o ds_collection :
  safe n (transform_all o ds_collection)
    (fun acc => all_fresh n (fst (fst acc))).
Proof.
  unfold transform_all.
  eapply safe_bind; [apply safe_get_heap|]. intros h _.
  apply safe_for_fold with (I := fun acc => all_fresh n (fst (fst acc)));
    [|apply all_fresh_nil].
  intros acc kd _ A.
  eapply safe_bind with (P := fun _ => True).
  { destruct (negb _); [apply safe_warn|now apply safe_ret]. }
  intros _ _.
  eapply safe_bind; [apply safe_da_copy|]. intros ds F.
  eapply safe_bind with (P := Forall (fresh n)).
  { apply safe_try_except; [now apply safe_area2cf|].
    intros e k. destruct e; try discriminate. intros [= <-].
    apply safe_ret. now repeat constructor. }
  intros new_datasets FA.
  apply safe_for_fold with (I := fun acc => all_fresh n (fst (fst acc)));
    [|exact A].
  intros acc' new_ds _ A'. now apply safe_transform_one.
Qed.

Lemma safe_link_coord n nm datas coord :
  all_fresh n datas -> safe n (link_coord nm datas coord) (all_fresh n).
Proof.
  intros A. unfold link_coord.
  eapply safe_bind with (P := fresh n).
  { apply safe_of_option. intros d G. eapply all_fresh_dget; eauto. }
  intros data F.
  assert (Wn : safe n (warn (not_exist_msg coord nm) ;;; ret datas) (all_fresh n)).
  { eapply safe_bind; [apply safe_warn|]. intros _ _. now apply safe_ret. }
  destruct coord; try exact Wn; try apply safe_raise.
  destruct (negb _); [|now apply safe_ret].
  apply safe_try_except.
  - eapply safe_bind with (P := fun _ => True); [now apply safe_of_option|].
    intros sibling _.
    eapply safe_bind; [apply safe_da_squeeze|]. intros squeezed Fs.
    eapply safe_bind; [now apply safe_da_setitem|]. intros data' F'.
    apply safe_ret. now apply all_fresh_dset.
  - intros e k. destruct e; try discriminate. intros [= <-]. exact Wn.
Qed.

Lemma safe_link_one n datas nm :
  all_fresh n datas -> safe n (link_one datas nm) (all_fresh n).
Proof.
  intros A. unfold link_one.
  eapply safe_bind with (P := fun _ => True); [now apply safe_of_option|].
  intros data _.
  eapply safe_bind; [apply safe_read|]. intros attrs _.
  eapply safe_bind with (P := fun _ => True).
  { unfold declared_coordinates. destruct (aget attrs "coordinates") as [v|];
      [|now apply safe_ret].
    destruct v; try apply safe_iter_value. now apply safe_ret. }
  intros declared _.
  eapply safe_bind.
  { apply safe_for_fold with (I := all_fresh n); [|exact A].
    intros s x _ As. now apply safe_link_coord. }
  intros datas' A'.
  eapply safe_bind with (P := fresh n).
  { apply safe_of_option. intros d G. eapply all_fresh_dget; eauto. }
  intros data' F'.
  eapply safe_bind; [apply safe_attrs_pop; now apply (fresh_var_locs F')|].
  intros _ _. now apply safe_ret.
Qed.

Lemma safe_link_coords n datas :
  all_fresh n datas -> safe n (link_coords datas) (all_fresh n).
Proof.
  intros A. unfold link_coords.
  apply safe_for_fold with (I := all_fresh n); [|exact A].
  intros s x _ As. now apply safe_link_one.
Qed.

Lemma fresh_rename_coord n d old new r :
  fresh n d -> da_rename_coord d old new = Returns r -> fresh n r.
Proof. env_free.
  intros F. unfold da_rename_coord.
  destruct (negb _); [discriminate|].
  destruct (String.eqb old new); [now intros [= <-]|].
  destruct (_ || _); [discriminate|]. intros [= <-].
  destruct (fresh_var_locs F) as [Fa Fe]. apply fresh_intro; auto.
  intros l I. apply in_flat_map in I as ([k v] & I & Il).
  apply in_map_iff in I as ([k0 v0] & [= _ <-] & I).
  destruct (fresh_coord _ _ F I) as [Ca Ce].
  cbn in Il. destruct Il as [<-|[<-|[]]]; assumption.
Qed.

Lemma safe_make_alt_coords_unique n datas pretty :
  all_fresh n datas -> safe n (make_alt_coords_unique datas pretty) (all_fresh n).
Proof.
  intros A. unfold make_alt_coords_unique.
  eapply safe_bind; [apply safe_get_heap|]. intros h _.
  apply safe_for_fold with (I := all_fresh n); [|exact A].
  intros new_datas cu _ An. unfold prepend_names.
  destruct (_ || _); [|now apply safe_ret].
  eapply safe_bind with (P := fun _ => True).
  { destruct pretty; [apply safe_warn|now apply safe_ret]. }
  intros _ _.
  apply safe_for_fold with (I := all_fresh n); [|exact An].
  intros s nd _ As. unfold prepend_name.
  destruct (in_coords _ _); [|now apply safe_ret].
  eapply safe_bind with (P := fresh n).
  { apply safe_of_option. intros d G. eapply all_fresh_dget; eauto. }
  intros cur Fc.
  eapply safe_bind with (P := fresh n).
  { apply safe_lift. intros r E. eapply fresh_rename_coord; eauto. }
  intros renamed Fr. apply safe_ret. now apply all_fresh_dset.
Qed.

Lemma safe__collect_datasets n datasets o :
  safe n (_collect_datasets datasets o)
    (fun acc => all_fresh n (fst (fst acc))).
Proof.
  unfold _collect_datasets.
  eapply safe_bind; [apply safe_gather|]. intros ds_collection _.
  eapply safe_bind; [apply safe_transform_all|]. intros [[datas st] et] A.
  cbn [fst] in A.
  eapply safe_bind with (P := fun _ => True); [now apply safe_lift|].
  intros _ _.
  eapply safe_bind; [now apply safe_link_coords|]. intros datas1 A1.
  eapply safe_bind; [now apply safe_make_alt_coords_unique|]. intros datas2 A2.
  now apply safe_ret.
Qed.


Lemma safe_make_time_bounds n start_times end_times :
  safe n (make_time_bounds start_times end_times) (fresh n).
Proof.
  unfold make_time_bounds.
  eapply safe_bind with (P := fun _ => True); [now apply safe_lift|]. intros s _.
  eapply safe_bind with (P := fun _ => True); [now apply safe_lift|]. intros e _.
  eapply safe_bind with (P := fun _ => True); [now apply safe_lift|]. intros s' _.
  eapply safe_bind with (P := fun _ => True); [now apply safe_lift|]. intros e' _.
  apply safe_new_DataArray.
Qed.

Lemma ds_getitem_fresh n ds k v :
  all_fresh n (ds_vars ds) -> ds_getitem ds k = Some v -> n <= v_attrs v.
Proof. env_free.
  intros A. unfold ds_getitem.
  destruct (dict_get name_eqb (ds_vars ds) (Some k)) as [d|] eqn:G.
  - intros [= <-]. apply (dict_get_In _ name_eqb_spec) in G.
    apply (fresh_var_locs (A _ _ G)).
  - clear G. induction (ds_vars ds) as [|[nm d] vars IH]; simpl; [discriminate|].
    destruct (coords_get d k) as [c|] eqn:C.
    + intros [= <-]. apply (dict_get_In _ String.eqb_spec) in C.
      apply (fresh_coord _ _ (A nm d (or_introl eq_refl)) C).
    + apply IH. intros k0 d0 I. apply (A k0 d0). now right.
Qed.

Lemma safe_collect_group n o is_grouped header_attrs grouped g :
  safe n (collect_group o is_grouped header_attrs grouped g) (fun _ => True).
Proof.
  unfold collect_group.
  eapply safe_bind; [apply safe__collect_datasets|].
  intros [[datas st] et] A. cbn [fst] in A.
  eapply safe_bind with (P := fun _ => True); [|intros; now apply safe_ret].
  destruct (ds_getitem _ "time").
  - eapply safe_bind; [apply safe_make_time_bounds|]. intros time_bnds F.
    eapply safe_bind with (P := fun time => n <= v_attrs time).
    { apply safe_of_option. intros time G.
      eapply ds_getitem_fresh; [|exact G]. cbn [ds_setitem ds_vars].
      intros k d I. apply In_dict_set in I as [E|I]; [|eauto].
      cbn [snd] in E. subst d. intros l Il. apply F. exact Il. }
    intros time Ht.
    eapply safe_bind; [now apply safe_attrs_set|]. intros _ _.
    eapply safe_bind; [now apply safe_attrs_set|]. intros _ _.
    now apply safe_ret.
  - eapply safe_bind; [apply safe_logger_warning|]. intros _ _.
    now apply safe_ret.
Qed.

Lemma safe__get_groups n groups l : safe n (_get_groups groups l) (fun _ => True).
Proof.
  unfold _get_groups. destruct groups as [groups|]; [|now apply safe_ret].
  apply safe_for_fold with (I := fun _ => True); [|exact I].
  intros s d _ _. destruct groups; [now apply safe_ret|].
  eapply safe_bind; [apply safe_read|]. intros attrs _.
  eapply safe_bind with (P := fun _ => True); [now apply safe_of_option|].
  intros nm _. destruct (group_of _ nm); now apply safe_ret.
Qed.

Lemma safe_collect_cf_datasets n list_dataarrays header_attrs o groups :
  safe n (collect_cf_datasets list_dataarrays header_attrs o groups)
    (fun _ => True).
Proof.
  unfold collect_cf_datasets. destruct list_dataarrays; [apply safe_raise|].
  eapply safe_bind with (P := fun _ => True).
  { destruct header_attrs; [now apply safe_lift|now apply safe_ret]. }
  intros h _.
  eapply safe_bind; [apply safe__get_groups|]. intros ga _.
  eapply safe_bind with (P := fun _ => True); [now apply safe_lift|].
  intros h1 _.
  eapply safe_bind with (P := fun _ => True); [|intros; now apply safe_ret].
  apply safe_for_fold with (I := fun _ => True); [|exact I].
  intros s g _ _. apply safe_collect_group.
Qed.

(** [collect_cf_datasets] works on copies: whatever it is given, and whether
    it returns or raises, every dictionary that was in the store before the
    call, the attributes and encodings of the caller's arrays among them,
    holds afterwards what it held before. *)
Theorem collect_cf_datasets_leaves_store list_dataarrays header_attrs o groups w :
  let w' := snd (collect_cf_datasets list_dataarrays header_attrs o groups w) in
  next w <= next w' /\ forall l, l < next w -> heap w' l = heap w l.
Proof.
  cbv zeta.
  destruct (@safe_collect_cf_datasets (next w) list_dataarrays header_attrs o
              groups w (le_n _)) as [S _].
  exact S.
Qed.

(** The same for the state of [save_datasets]. *)
Definition io_safe (n : nat) {A} (m : IO A) : Prop :=
  forall s, n <= next (fst s) -> stable n (fst s) (fst (snd (m s))).

Lemma io_safe_run n {A} (m : M A) (Q : A -> Prop) : safe n m Q -> io_safe n (run m).
Proof. intros H s Hn. unfold run. cbn [fst snd]. now apply H. Qed.

Lemma io_safe_bind n {A B} (m : IO A) (k : A -> IO B) :
  io_safe n m -> (forall a, io_safe n (k a)) -> io_safe n (io_bind m k).
Proof.
  intros Hm Hk s Hn. unfold io_bind. pose proof (Hm s Hn) as S.
  destruct (m s) as [[a|e] s1]; cbn [fst snd] in *; [|exact S].
  eapply stable_trans; [exact S|]. apply Hk. destruct S; lia.
Qed.

Lemma io_safe_to_netcdf n e : io_safe n (to_netcdf e).
Proof. intros s _. apply stable_refl. Qed.

Lemma io_safe_for_each n {A} (xs : list A) (body : A -> IO unit) :
  (forall x, io_safe n (body x)) -> io_safe n (io_for_each xs body).
Proof.
  intros H. induction xs as [|x xs IH]; simpl.
  - intros s _. apply stable_refl.
  - apply io_safe_bind; [apply H|]. intros _. exact IH.
Qed.

(** [save_datasets] leaves the arrays it is given as they are: whether it
    returns or raises, every dictionary that was in the store before the
    call holds afterwards what it held before. *)
Theorem save_datasets_leaves_store datasets filename groups header_attrs o
    kwargs w files :
  let w' := fst (snd (save_datasets datasets filename groups header_attrs o
                        kwargs (w, files))) in
  next w <= next w' /\ forall l, l < next w -> heap w' l = heap w l.
Proof.
  cbv zeta.
  change (stable (next w) (fst (w, files))
            (fst (snd (save_datasets datasets filename groups header_attrs o
                         kwargs (w, files))))).
  assert (S : io_safe (next w)
                (save_datasets datasets filename groups header_attrs o kwargs)).
  { unfold save_datasets.
    apply io_safe_bind.
    { apply io_safe_run with (Q := fun _ => True). unfold _get_compression.
      eapply safe_bind; [apply safe_warn|]. intros _ _.
      destruct (compression o); [|now apply safe_ret].
      eapply safe_bind; [apply safe_warn|]. intros _ _. now apply safe_ret. }
    intros c. apply io_safe_bind.
    { apply io_safe_run with (Q := fun _ => True). unfold resolve_filename.
      assert (R : safe (next w)
                    (first <- of_option (nth_error datasets 0) IndexError ;;
                     attrs <- read (da_attrs first) ;;
                     lift (get_filename attrs)) (fun _ => True)).
      { eapply safe_bind with (P := fun _ => True); [now apply safe_of_option|].
        intros first _. eapply safe_bind; [apply safe_read|]. intros attrs _.
        now apply safe_lift. }
      destruct filename as [[|ch f]|]; try exact R. now apply safe_ret. }
    intros f. apply io_safe_bind.
    { eapply io_safe_run. apply safe_collect_cf_datasets. }
    intros gh. cbv zeta. apply io_safe_bind.
    { destruct groups.
      - apply io_safe_bind; [apply io_safe_to_netcdf|]. intros _.
        apply io_safe_run with (Q := fun _ => True). now apply safe_ret.
      - apply io_safe_run with (Q := fun _ => True). now apply safe_ret. }
    intros mode. apply io_safe_for_each. intros gd.
    apply io_safe_bind; [eapply io_safe_run; apply safe_get_heap|]. intros h.
    apply io_safe_bind; [|intros enc; apply io_safe_to_netcdf].
    apply io_safe_run with (Q := fun _ => True). now apply safe_lift. }
  apply S. simpl. lia.
Qed.


(** *** [AttributeEncoder]: every object has a text *)


















(** *** [_is_projected] *)

(** Without an area and without a [crs] coordinate, the units of the [x]
    coordinate decide: units that end in [m] are those of a projection,
    other units that start with [degrees] are geographic, and with any
    other units, the empty string among them, the data are taken to be
    projected and a line is logged. *)
Theorem _is_projected_by_units nd w x u :
  aget (cell (heap w) (da_attrs nd)) "area" = None ->
  coords_get nd "crs" = None ->
  coords_get nd "x" = Some x ->
  aget (cell (heap w) (v_attrs x)) "units" = Some (VStr u) ->
  _is_projected nd w
  = (Returns (endswith "m" u || negb (startswith "degrees" u)),
     mk_World (heap w) (next w) (warns w)
       (logged w ++ if endswith "m" u || startswith "degrees" u then []
                    else ["Failed to tell if data are projected. Assuming yes."])).
Proof.
  intros Ga Gc Gx Gu.
  assert (T : _try_to_get_crs nd w = (Returns None, w)).
  { unfold _try_to_get_crs.
    rewrite (bind_step _ _ w (eq_refl : read (da_attrs nd) w = (_, w))).
    rewrite Ga.
    rewrite (bind_step _ _ w (eq_refl : ret (@None crs_like) w = (_, w))).
    now rewrite Gc. }
  assert (U : _try_get_units_from_coords nd w = (Returns (Some (VStr u)), w)).
  { unfold _try_get_units_from_coords. rewrite Gx. cbn [of_option].
    rewrite (bind_step _ _ w (eq_refl : ret x w = (_, w))).
    rewrite (bind_step _ _ w (eq_refl : read (v_attrs x) w = (_, w))).
    now rewrite Gu. }
  unfold _is_projected. rewrite (bind_step _ _ w T).
  unfold projected_by_units. rewrite (bind_step _ _ w U).
  assert (W : w = mk_World (heap w) (next w) (warns w) (logged w ++ []))
    by (rewrite app_nil_r; now destruct w).
  destruct u as [|c u].
  - reflexivity.
  - cbn [truthy String.eqb negb].
    destruct (endswith "m" (String c u)); cbn [orb];
      [unfold ret; now rewrite <- W|].
    destruct (startswith "degrees" (String c u)); cbn [negb];
      [unfold ret; now rewrite <- W|reflexivity].
Qed.


(** *** The time bounds of a group *)





(** *** The names of the collected variables *)

(** Every array is stored under its own name, and no name twice. *)
Definition keyed (datas : dict name DataArray) : Prop :=
  NoDup (dict_keys datas) /\ forall k d, In (k, d) datas -> da_name d = k.

Lemma keyed_dset datas d : keyed datas -> keyed (dset datas (da_name d) d).
Proof. env_free.
  intros [ND K]. split; [now apply (NoDup_dict_set _ name_eqb_spec)|].
  intros k d' I. unfold dset in I.
  assert (X : forall (l : dict name DataArray),
             (forall k0 d0, In (k0, d0) l -> da_name d0 = k0) ->
             In (k, d') (dict_set name_eqb l (da_name d) d) -> da_name d' = k).
  { induction l as [|[k0 d0] l IH]; simpl; intros Kl.
    - intros [[= <- <-]|[]]. reflexivity.
    - destruct (name_eqb_spec (da_name d) k0) as [E|ne]; simpl.
      + intros [[= <- <-]|I0]; [exact E|]. apply Kl. now right.
      + intros [[= <- <-]|I0]; [apply Kl; now left|].
        apply IH; [|exact I0]. intros k1 d1 I1. apply Kl. now right. }
  now apply (X datas).
Qed.

Lemma keyed_dget datas nm d : keyed datas -> dget datas nm = Some d -> da_name d = nm.
Proof. env_free.
  intros [_ K] G. apply K. now apply (dict_get_In _ name_eqb_spec).
Qed.

Lemma keyed_transform_all o ds_collection :
  safe 0 (transform_all o ds_collection) (fun acc => keyed (fst (fst acc))).
Proof.
  unfold transform_all.
  eapply safe_bind; [apply safe_get_heap|]. intros h _.
  apply safe_for_fold with (I := fun acc => keyed (fst (fst acc))).
  2:{ split; [constructor|intros k d []]. }
  intros acc kd _ A.
  eapply safe_bind with (P := fun _ => True).
  { destruct (negb _); [apply safe_warn|now apply safe_ret]. }
  intros _ _.
  eapply safe_bind with (P := fun _ => True).
  { eapply safe_weaken; [apply safe_da_copy|auto]. }
  intros ds _.
  eapply safe_bind with (P := fun _ => True).
  { apply safe_try_except.
    - eapply safe_weaken; [apply safe_area2cf|auto]. intros l Hl. lia.
    - intros e k. destruct e; try discriminate. intros [= <-]. now apply safe_ret. }
  intros new_datasets _.
  apply safe_for_fold with (I := fun acc => keyed (fst (fst acc))); [|exact A].
  intros [[datas st] et] new_ds _ A'. cbn [fst] in A'. unfold transform_one.
  eapply safe_bind; [apply safe_read|]. intros attrs _.
  eapply safe_bind with (P := fun _ => True).
  { eapply safe_weaken; [apply safe_da2cf|auto]. }
  intros new_var _. apply safe_ret. cbn [fst]. now apply keyed_dset.
Qed.

Lemma keyed_link_coords datas :
  keyed datas -> safe 0 (link_coords datas) keyed.
Proof.
  intros A. unfold link_coords.
  apply safe_for_fold with (I := keyed); [|exact A].
  intros s nm _ As. unfold link_one.
  eapply safe_bind with (P := fun _ => True); [now apply safe_of_option|].
  intros data _.
  eapply safe_bind; [apply safe_read|]. intros attrs _.
  eapply safe_bind with (P := fun _ => True).
  { unfold declared_coordinates. destruct (aget attrs "coordinates") as [v|];
      [|now apply safe_ret].
    destruct v; try apply safe_iter_value. now apply safe_ret. }
  intros declared _.
  eapply safe_bind with (P := keyed).
  { apply safe_for_fold with (I := keyed); [|exact As].
    intros s1 coord _ A1. unfold link_coord.
    eapply safe_bind with (P := fun d => da_name d = nm).
    { apply safe_of_option. intros d G. eapply keyed_dget; eauto. }
    intros d Hd.
    assert (Wn : safe 0 (warn (not_exist_msg coord nm) ;;; ret s1) keyed).
    { eapply safe_bind; [apply safe_warn|]. intros _ _. now apply safe_ret. }
    destruct coord; try exact Wn; try apply safe_raise.
    destruct (negb _); [|now apply safe_ret].
    apply safe_try_except.
    - eapply safe_bind with (P := fun _ => True); [now apply safe_of_option|].
      intros sibling _.
      eapply safe_bind with (P := fun _ => True).
      { eapply safe_weaken; [apply safe_da_squeeze|auto]. }
      intros squeezed _.
      eapply safe_bind with (P := fun d' => da_name d' = nm).
      { unfold da_setitem. destruct (fits _ _); [|apply safe_raise].
        now apply safe_ret. }
      intros d' Hd'. apply safe_ret. rewrite <- Hd'. now apply keyed_dset.
    - intros e k. destruct e; try discriminate. intros [= <-]. exact Wn. }
  intros datas' A'.
  eapply safe_bind with (P := fun _ => True); [now apply safe_of_option|].
  intros data' _.
  eapply safe_bind; [apply safe_attrs_pop; lia|]. intros _ _.
  now apply safe_ret.
Qed.

Lemma keyed_make_alt_coords_unique datas pretty :
  keyed datas -> safe 0 (make_alt_coords_unique datas pretty) keyed.
Proof.
  intros A. unfold make_alt_coords_unique.
  eapply safe_bind; [apply safe_get_heap|]. intros h _.
  apply safe_for_fold with (I := keyed); [|exact A].
  intros new_datas cu _ An. unfold prepend_names.
  destruct (_ || _); [|now apply safe_ret].
  eapply safe_bind with (P := fun _ => True).
  { destruct pretty; [apply safe_warn|now apply safe_ret]. }
  intros _ _.
  apply safe_for_fold with (I := keyed); [|exact An].
  intros s nd _ As. unfold prepend_name.
  destruct (in_coords _ _); [|now apply safe_ret].
  eapply safe_bind with (P := fun d => da_name d = fst nd).
  { apply safe_of_option. intros d G. eapply keyed_dget; eauto. }
  intros cur Hc.
  eapply safe_bind with (P := fun d => da_name d = fst nd).
  { apply safe_lift. intros r. unfold da_rename_coord.
    destruct (negb _); [discriminate|].
    destruct (String.eqb _ _); [now intros [= <-]|].
    destruct (_ || _); [discriminate|]. now intros [= <-]. }
  intros renamed Hr. apply safe_ret. rewrite <- Hr. now apply keyed_dset.
Qed.

(** The variables that [_collect_datasets] returns are stored under their
    own names, each name once: the name of a variable in the file is the
    name of its array, and of two arrays that end up with the same name
    one is left. *)
Theorem _collect_datasets_keyed datasets o w datas st et w' :
  _collect_datasets datasets o w = (Returns (datas, st, et), w') ->
  NoDup (dict_keys datas) /\ forall k d, In (k, d) datas -> da_name d = k.
Proof.
  intros H.
  assert (S : safe 0 (_collect_datasets datasets o)
                (fun acc => keyed (fst (fst acc)))).
  { unfold _collect_datasets.
    eapply safe_bind; [apply safe_gather|]. intros ds_collection _.
    eapply safe_bind; [apply keyed_transform_all|]. intros [[datas0 st0] et0] A.
    cbn [fst] in A.
    eapply safe_bind with (P := fun _ => True); [now apply safe_lift|].
    intros _ _.
    eapply safe_bind; [now apply keyed_link_coords|]. intros datas1 A1.
    eapply safe_bind; [now apply keyed_make_alt_coords_unique|].
    intros datas2 A2. now apply safe_ret. }
  destruct (S w (Nat.le_0_l _)) as [_ R]. rewrite H in R.
  exact (R _ eq_refl).
Qed.

End CFWriter.

(** ** Examples

    The theorems at concrete inputs.  The environment: a fingerprint that
    prints the elements of an array, a [str] that prints what an object
    carries, a new pyproj. *)

Definition tokenize_ex (a : ndarray) : string :=
  str_join "," (map int_repr (nd_elems a)).

Definition py_str_ex (v : value) : string :=
  match v with VObj r => r | _ => "object" end.

Definition json_float_ex (f : Z) : string := "0.0".

Definition utcnow_ex : string := "2020-01-01 00:00:00".

Definition get_filename_ex (attrs : attrs_t) : Res string := Returns "out.nc".

Definition update_encoding_ex (h : loc -> list (string * value)) (ds : Dataset)
    (kwargs : attrs_t) (prefix : option string) : Res (attrs_t * attrs_t) :=
  Returns ([], kwargs).

Definition options_ex : options :=
  mk_options EPOCH false [] true false None true (Some "CHANNEL_").

(** *** A swath (C3) *)

Definition swath_area : Area := SwathDefinition some_data some_data.

Definition swath_da : DataArray :=
  mk_DataArray (Some "a") (mk_Var ["y"; "x"] some_data 0 1) [].

Definition swath_world : World :=
  mk_World (fun l => match l with
                     | 0 => [("name", VStr "a"); ("area", VArea swath_area)]
                     | _ => []
                     end) 2 [] [].



(** *** A name that starts with a digit (C4) *)

Definition one_da : DataArray :=
  mk_DataArray (Some "1") (mk_Var ["y"; "x"] some_data 0 1) [].

Definition one_world : World :=
  mk_World (fun l => match l with 0 => [("name", VStr "1")] | _ => [] end) 2 [] [].

(** The name [1] with the prefix [CHANNEL_]. *)
Lemma da2cf_numeric_name_witness :
  exists r w',
    da2cf py_str_ex json_float_ex one_da EPOCH false [] None true (Some "CHANNEL_")
      one_world = (Returns r, w')
    /\ da_name r = Some "CHANNEL_1"
    /\ aget (cell (heap w') (da_attrs r)) "original_name" = Some (VStr "1").
Proof.
  destruct (da2cf py_str_ex json_float_ex one_da EPOCH false [] None true
              (Some "CHANNEL_") one_world) as [[r|e] w'] eqn:E;
    [|vm_compute in E; discriminate E].
  exists r, w'. split; [reflexivity|].
  destruct (@da2cf_numeric_name py_str_ex json_float_ex one_da EPOCH false [] None
              true (Some "CHANNEL_") one_world r w' "1" "1"%char
              eq_refl eq_refl eq_refl E) as [Hn Ho].
  split; [exact Hn|]. apply Ho; [reflexivity|]. left. reflexivity.
Defined.

(** With [flatten_attrs], the attribute [name] of the mapping [original]
    becomes the key [original_name] too, and is the one that stays. *)
Definition clash_world : World :=
  mk_World (fun l => match l with
                     | 0 => [("name", VStr "1");
                             ("original_name", VStr "old");
                             ("original", VDict [("name", VStr "x")])]
                     | _ => []
                     end) 2 [] [].

Lemma da2cf_original_name_lost :
  exists r w',
    da2cf py_str_ex json_float_ex one_da EPOCH true [] None true (Some "CHANNEL_")
      clash_world = (Returns r, w')
    /\ da_name r = Some "CHANNEL_1"
    /\ aget (cell (heap w') (da_attrs r)) "original_name" = Some (VStr "x").
Proof.
  eexists _, _. split; [vm_compute; reflexivity|]. split; reflexivity.
Qed.

(** *** Alternative coordinates of two arrays (C5) *)

Definition other_data : ndarray := mk_ndarray float32 [2; 2] [5; 6; 7; 8]%Z None.

Definition alt_a : DataArray :=
  mk_DataArray (Some "a") (mk_Var ["y"; "x"] some_data 0 1)
    [("time_offset", mk_Var ["y"; "x"] some_data 2 3)].

Definition alt_b : DataArray :=
  mk_DataArray (Some "b") (mk_Var ["y"; "x"] some_data 4 5)
    [("time_offset", mk_Var ["y"; "x"] other_data 6 7)].

Definition alt_datas : dict name DataArray := [(Some "a", alt_a); (Some "b", alt_b)].

Definition alt_world : World := mk_World (fun _ => []) 8 [] [].

(** The coordinate [time_offset] differs between the two arrays: under
    [pretty] both get the name of their array in front. *)
Lemma make_alt_coords_unique_spec_witness :
  NoDup (dict_keys alt_datas)
  /\ exists new_datas w' P,
       make_alt_coords_unique tokenize_ex alt_datas true alt_world
       = (Returns new_datas, w')
       /\ In "time_offset" P
       /\ forall n d,
            dget alt_datas n = Some d ->
            exists d',
              dget new_datas n = Some d'
              /\ map fst (da_coords d')
                 = map (fun k => if str_in k P then alt_name n k else k)
                       (map fst (da_coords d)).
Proof.
  assert (ND : NoDup (dict_keys alt_datas)).
  { repeat constructor; simpl; intuition discriminate. }
  split; [exact ND|].
  destruct (make_alt_coords_unique tokenize_ex alt_datas true alt_world)
    as [[new_datas|e] w'] eqn:E; [|vm_compute in E; discriminate E].
  destruct (@make_alt_coords_unique_spec tokenize_ex alt_datas true alt_world
              new_datas w' ND E) as (P & HP & _ & H).
  exists new_datas, w', P. split; [reflexivity|]. split.
  - apply HP.
    assert (Oa : occurs tokenize_ex (heap alt_world) alt_datas "time_offset" "1,2,3,4").
    { exists alt_a, ("time_offset", mk_Var ["y"; "x"] some_data 2 3).
      repeat split; simpl; auto. }
    assert (Ob : occurs tokenize_ex (heap alt_world) alt_datas "time_offset" "5,6,7,8").
    { exists alt_b, ("time_offset", mk_Var ["y"; "x"] other_data 6 7).
      repeat split; simpl; auto. }
    split; [eauto|]. right. exists "1,2,3,4", "5,6,7,8".
    split; [exact Oa|]. split; [exact Ob|discriminate].
  - intros n d Hd. destruct (H n d Hd) as (d' & Hd' & _ & Hk & _).
    exists d'. split; assumption.
Defined.

(** *** Declared coordinates (C6) *)


Definition link_lon : DataArray :=
  mk_DataArray (Some "lon") (mk_Var ["y"; "x"] some_data 2 3) [].


Definition link_world : World :=
  mk_World (fun l => match l with
                     | 0 => [("name", VStr "a"); ("coordinates", VStr "lon lat")]
                     | 2 => [("name", VStr "lon")]
                     | _ => []
                     end) 4 [] [].





(** *** A nested attribute (C7) *)



(** *** A group with a [time] variable and no times (C10) *)

Definition time_da : DataArray :=
  mk_DataArray (Some "time") (mk_Var ["y"; "x"] some_data 0 1) [].

Definition time_world : World :=
  mk_World (fun l => match l with 0 => [("name", VStr "time")] | _ => [] end)
    2 [] [].

Definition time_datas : dict name DataArray :=
  [(Some "time", mk_DataArray (Some "time") (mk_Var ["y"; "x"] some_data 4 5) [])].

Definition time_world' : World :=
  snd (_collect_datasets tokenize_ex py_str_ex false json_float_ex [time_da]
         options_ex time_world).

Lemma time_bounds_of_no_times_witness :
  _collect_datasets tokenize_ex py_str_ex false json_float_ex [time_da]
    options_ex time_world
  = (Returns (time_datas, [VNone], [VNone]), time_world')
  /\ collect_group tokenize_ex py_str_ex false json_float_ex options_ex false
       (default_header utcnow_ex) [] (None, [time_da]) time_world
     = (Raises ValueError, time_world')
  /\ collect_cf_datasets tokenize_ex py_str_ex false json_float_ex utcnow_ex
       [time_da] None options_ex None time_world
     = (Raises ValueError, time_world').
Proof.
  assert (E : _collect_datasets tokenize_ex py_str_ex false json_float_ex
                (snd (@None string, [time_da])) options_ex time_world
              = (Returns (time_datas, [VNone], [VNone]), time_world'))
    by (vm_compute; reflexivity).
  split; [exact E|].
  destruct (@time_bounds_of_no_times tokenize_ex py_str_ex false json_float_ex
              utcnow_ex get_filename_ex update_encoding_ex options_ex false
              (default_header utcnow_ex) [] (None, [time_da]) time_world
              time_datas [VNone] [VNone] time_world' E (or_introl eq_refl))
    as (G & _ & C).
  split; [exact G|].
  destruct (C eq_refl eq_refl eq_refl eq_refl eq_refl) as [Ccf _];
    [discriminate|exact Ccf].
Defined.

(** *** Time bounds *)

(** The earliest of the start times and the earliest of the end times. *)
Lemma make_time_bounds_spec_witness :
  exists s e,
    least_datetime s [VNone; VDatetime 5; VDatetime 3]
    /\ least_datetime e [VDatetime 9; VDatetime 7]
    /\ make_time_bounds [VNone; VDatetime 5; VDatetime 3]
         [VDatetime 9; VDatetime 7] time_world
       = (Returns (mk_DataArray None
                     (mk_Var ["time"; "bnds_1d"]
                        (mk_ndarray datetime64 [1; 2] [s; e] None)
                        (next time_world) (S (next time_world))) []),
          mk_World (upd (upd (heap time_world) (next time_world) [])
                      (S (next time_world)) [])
            (S (S (next time_world))) (warns time_world) (logged time_world)).
Proof.
  exact (make_time_bounds_spec [VNone; VDatetime 5; VDatetime 3]
           [VDatetime 9; VDatetime 7] time_world eq_refl eq_refl eq_refl eq_refl).
Defined.

(** *** Groups *)

Definition two_groups : dict name (list string) :=
  [(Some "g", ["a"]); (Some "h", ["b"; "a"])].

(** [a] is listed by both groups and goes to the first. *)
Lemma _get_groups_spec_witness :
  exists grouped,
    _get_groups (Some two_groups) [anc_a; anc_b] anc_world
      = (Returns grouped, anc_world)
    /\ dict_get name_eqb grouped (Some "g") = Some [anc_a]
    /\ dict_get name_eqb grouped (Some "h") = Some [anc_b].
Proof.
  destruct (_get_groups (Some two_groups) [anc_a; anc_b] anc_world)
    as [[grouped|e] w'] eqn:E; [|vm_compute in E; discriminate E].
  destruct (_get_groups_spec two_groups [anc_a; anc_b] anc_world E)
    as (-> & _ & G).
  exists grouped. split; [reflexivity|].
  split; rewrite G; reflexivity.
Defined.

(** *** One array, no groups, no header *)

Lemma collect_cf_datasets_attrs_witness :
  exists grouped header w',
    collect_cf_datasets tokenize_ex py_str_ex false json_float_ex utcnow_ex
      [one_da] None options_ex None one_world = (Returns (grouped, header), w')
    /\ dict_keys grouped = [None]
    /\ amem header "Conventions" = true.
Proof.
  destruct (collect_cf_datasets tokenize_ex py_str_ex false json_float_ex
              utcnow_ex [one_da] None options_ex None one_world)
    as [[[grouped header]|e] w'] eqn:E; [|vm_compute in E; discriminate E].
  destruct (collect_cf_datasets_attrs tokenize_ex py_str_ex false json_float_ex
              utcnow_ex [one_da] None options_ex None one_world E)
    as (_ & _ & Hc & Hk).
  exists grouped, header, w'. split; [reflexivity|].
  pose proof (Hk eq_refl) as K. split; [exact K|]. apply Hc.
  rewrite <- (length_map fst grouped). fold (dict_keys grouped). rewrite K.
  simpl. lia.
Defined.

Lemma collect_cf_datasets_default_header_witness :
  exists grouped header w',
    collect_cf_datasets tokenize_ex py_str_ex false json_float_ex utcnow_ex
      [one_da] None options_ex None one_world = (Returns (grouped, header), w')
    /\ header = ("history", VStr ("Created by pytroll/satpy on " ++ utcnow_ex))
                :: (if (2 <=? length grouped)%nat then []
                    else [("Conventions", VStr CF_VERSION)]).
Proof.
  destruct (collect_cf_datasets tokenize_ex py_str_ex false json_float_ex
              utcnow_ex [one_da] None options_ex None one_world)
    as [[[grouped header]|e] w'] eqn:E; [|vm_compute in E; discriminate E].
  exists grouped, header, w'. split; [reflexivity|].
  exact (collect_cf_datasets_default_header tokenize_ex py_str_ex false
           json_float_ex utcnow_ex [one_da] options_ex None one_world E).
Defined.

(** *** What is written *)









(** *** Encoded attributes *)

Definition some_attrs : attrs_t :=
  [("b", VInt 1); ("a", VNone); ("c", VStr "x")].

Lemma encode_attrs_nc_spec_witness :
  exists encoded,
    encode_attrs_nc py_str_ex json_float_ex some_attrs = Returns encoded
    /\ StronglySorted (fun a b => (a <? b)%string = true) (dict_keys encoded)
    /\ aget encoded "a" = None.
Proof.
  destruct (encode_attrs_nc py_str_ex json_float_ex some_attrs)
    as [encoded|e] eqn:E; [|vm_compute in E; discriminate E].
  assert (ND : NoDup (dict_keys some_attrs)).
  { repeat constructor; simpl; intuition discriminate. }
  destruct (encode_attrs_nc_spec py_str_ex json_float_ex some_attrs ND E)
    as [S G].
  exists encoded. split; [reflexivity|]. split; [exact S|]. exact (G "a").
Defined.


Lemma encode_nc_bytes_witness :
  plain_str "abc" = true
  /\ encode_nc py_str_ex json_float_ex (VBytes "abc") = Returns (VStr "abc").
Proof.
  split; [reflexivity|].
  exact (encode_nc_bytes py_str_ex json_float_ex "abc" eq_refl).
Defined.

(** *** What [da2cf] returns *)


(** The name [lon] is kept. *)
Lemma da2cf_plain_name_witness :
  exists r w',
    da2cf py_str_ex json_float_ex link_lon EPOCH false [] None true
      (Some "CHANNEL_") link_world = (Returns r, w')
    /\ da_name r = Some "lon".
Proof.
  destruct (da2cf py_str_ex json_float_ex link_lon EPOCH false [] None true
              (Some "CHANNEL_") link_world) as [[r|e] w'] eqn:E;
    [|vm_compute in E; discriminate E].
  exists r, w'. split; [reflexivity|].
  destruct (da2cf_plain_name py_str_ex json_float_ex link_lon EPOCH false []
              None true (Some "CHANNEL_") link_world E) as (c & Hc & Hn).
  apply Hn. injection Hc as <-. reflexivity.
Defined.

Definition nameless_world : World :=
  mk_World (fun l => match l with 0 => [("name", VStr EmptyString)] | _ => [] end)
    2 [] [].

Lemma da2cf_empty_name_witness :
  fst (da2cf py_str_ex json_float_ex one_da EPOCH false [] None true
         (Some "CHANNEL_") nameless_world) = Raises IndexError.
Proof.
  exact (da2cf_empty_name py_str_ex json_float_ex one_da EPOCH false [] None true
           (Some "CHANNEL_") nameless_world eq_refl).
Defined.

(** An array with the coordinates [crs] and [x]. *)
Definition crs_data : ndarray :=
  mk_ndarray object_ [] [] (Some (mk_CRS true [])).

Definition x_data : ndarray := mk_ndarray float32 [2] [0; 1]%Z None.

Definition crs_da : DataArray :=
  mk_DataArray (Some "a") (mk_Var ["y"; "x"] some_data 0 1)
    [("crs", mk_Var [] crs_data 2 3); ("x", mk_Var ["x"] x_data 4 5)].

Definition crs_world : World :=
  mk_World (fun l => match l with 0 => [("name", VStr "a")] | _ => [] end)
    6 [] [].

Lemma da2cf_coords_witness :
  exists r w',
    da2cf py_str_ex json_float_ex crs_da EPOCH false [] None true
      (Some "CHANNEL_") crs_world = (Returns r, w')
    /\ dict_keys (da_coords r) = ["x"].
Proof.
  destruct (da2cf py_str_ex json_float_ex crs_da EPOCH false [] None true
              (Some "CHANNEL_") crs_world) as [[r|e] w'] eqn:E;
    [|vm_compute in E; discriminate E].
  exists r, w'. split; [reflexivity|].
  assert (ND : NoDup (dict_keys (da_coords crs_da))).
  { repeat constructor; simpl; intuition discriminate. }
  exact (da2cf_coords py_str_ex json_float_ex crs_da EPOCH false [] None true
           (Some "CHANNEL_") crs_world ND E).
Defined.

(** The compression becomes the encoding of an array that had none. *)
Lemma da2cf_encoding_witness :
  exists r w',
    da2cf py_str_ex json_float_ex one_da EPOCH false []
      (Some [("zlib", VBool true)]) true (Some "CHANNEL_") one_world
    = (Returns r, w')
    /\ cell (heap w') (da_encoding r) = [("zlib", VBool true)].
Proof.
  destruct (da2cf py_str_ex json_float_ex one_da EPOCH false []
              (Some [("zlib", VBool true)]) true (Some "CHANNEL_") one_world)
    as [[r|e] w'] eqn:E; [|vm_compute in E; discriminate E].
  exists r, w'. split; [reflexivity|].
  assert (Hl : da_encoding one_da < next one_world) by (cbv; lia).
  exact (da2cf_encoding py_str_ex json_float_ex one_da EPOCH false []
           (Some [("zlib", VBool true)]) true (Some "CHANNEL_") one_world Hl E).
Defined.

(** The area of the swath is not among the attributes of the result. *)
Lemma da2cf_attrs_removed_witness :
  exists r w',
    da2cf py_str_ex json_float_ex swath_da EPOCH false [] None true
      (Some "CHANNEL_") swath_world = (Returns r, w')
    /\ aget (cell (heap w') (da_attrs r)) "area" = None.
Proof.
  destruct (da2cf py_str_ex json_float_ex swath_da EPOCH false [] None true
              (Some "CHANNEL_") swath_world) as [[r|e] w'] eqn:E;
    [|vm_compute in E; discriminate E].
  exists r, w'. split; [reflexivity|].
  apply (@da2cf_attrs_removed py_str_ex json_float_ex swath_da EPOCH [] None
           true (Some "CHANNEL_") swath_world r w' "area" E).
  - left. reflexivity.
  - discriminate.
  - discriminate.
Defined.

(** The array [1] has neither [long_name] nor [standard_name], and gets its
    new name as its [long_name]. *)
Lemma da2cf_long_name_witness :
  exists r w',
    da2cf py_str_ex json_float_ex one_da EPOCH false [] None true
      (Some "CHANNEL_") one_world = (Returns r, w')
    /\ amem (cell (heap w') (da_attrs r)) "long_name"
       || amem (cell (heap w') (da_attrs r)) "standard_name" = true.
Proof.
  destruct (da2cf py_str_ex json_float_ex one_da EPOCH false [] None true
              (Some "CHANNEL_") one_world) as [[r|e] w'] eqn:E;
    [|vm_compute in E; discriminate E].
  exists r, w'. split; [reflexivity|].
  apply (@da2cf_long_name py_str_ex json_float_ex one_da EPOCH [] None true
           (Some "CHANNEL_") one_world r w' "CHANNEL_1" E).
  revert E. vm_compute. intros E. injection E as <- _. reflexivity.
Defined.

(** *** Coordinates *)

(** An array on a geographic area, with an [x] coordinate given in
    metres. *)
Definition geo_area : Area :=
  AreaDefinition "area1" (mk_CRS false []) some_data some_data.

Definition geo_da : DataArray :=
  mk_DataArray (Some "a") (mk_Var ["y"; "x"] some_data 0 1)
    [("x", mk_Var ["x"] x_data 2 3)].

Definition geo_world : World :=
  mk_World (fun l => match l with
                     | 0 => [("name", VStr "a"); ("area", VArea geo_area)]
                     | 2 => [("units", VStr "m")]
                     | _ => []
                     end) 4 [] [].

Lemma _encode_coords_area_witness :
  exists w',
    _encode_coords geo_da geo_world = (Returns geo_da, w')
    /\ cell (heap w') 2
       = [("units", VStr "degrees_east"); ("standard_name", VStr "longitude")].
Proof.
  assert (Hy : forall y, coords_get geo_da "y" = Some y -> v_attrs y <> 2)
    by (intros y H; discriminate H).
  exact (@_encode_coords_area geo_da geo_world "area1" (mk_CRS false [])
           some_data some_data (mk_Var ["x"] x_data 2 3) eq_refl eq_refl Hy).
Defined.

(** An array with a scalar [time] coordinate. *)
Definition instant : ndarray := mk_ndarray datetime64 [] [0%Z] None.

Definition timed_da : DataArray :=
  mk_DataArray (Some "a") (mk_Var ["y"; "x"] some_data 0 1)
    [("time", mk_Var [] instant 2 3)].

Definition timed_world : World :=
  mk_World (fun l => match l with
                     | 0 => [("name", VStr "a")]
                     | 2 => [("bounds", VStr "time_bnds")]
                     | _ => []
                     end) 4 [] [].

Lemma _encode_time_spec_witness :
  exists r w',
    _encode_time timed_da EPOCH timed_world = (Returns r, w')
    /\ aget (cell (heap w') 3) "units" = Some (VStr EPOCH)
    /\ aget (cell (heap w') 2) "bounds" = None
    /\ da_dims r = ["time"; "y"; "x"].
Proof.
  destruct (_encode_time timed_da EPOCH timed_world) as [[r|e] w'] eqn:E;
    [|vm_compute in E; discriminate E].
  exists r, w'. split; [reflexivity|].
  destruct (@_encode_time_spec timed_da EPOCH (mk_Var [] instant 2 3)
              timed_world r w' eq_refl E) as (Hu & _ & Hb & Hd).
  split; [exact Hu|]. split; [exact Hb|exact Hd].
Defined.

(** *** Objects that JSON does not know *)




(** *** Units in degrees *)

Definition degrees_world : World :=
  mk_World (fun l => match l with
                     | 0 => [("name", VStr "a")]
                     | 2 => [("units", VStr "degrees_east")]
                     | _ => []
                     end) 4 [] [].

Lemma _is_projected_by_units_witness :
  _is_projected geo_da degrees_world = (Returns false, degrees_world).
Proof.
  exact (@_is_projected_by_units geo_da degrees_world (mk_Var ["x"] x_data 2 3)
           "degrees_east" eq_refl eq_refl eq_refl eq_refl).
Defined.

(** *** A group with a [time] variable and with times *)






(** *** The collected variables *)

Lemma _collect_datasets_keyed_witness :
  exists datas st et w',
    _collect_datasets tokenize_ex py_str_ex false json_float_ex [one_da]
      options_ex one_world = (Returns (datas, st, et), w')
    /\ NoDup (dict_keys datas)
    /\ forall k d, In (k, d) datas -> da_name d = k.
Proof.
  destruct (_collect_datasets tokenize_ex py_str_ex false json_float_ex [one_da]
              options_ex one_world) as [[[[datas st] et]|e] w'] eqn:E;
    [|vm_compute in E; discriminate E].
  exists datas, st, et, w'. split; [reflexivity|].
  exact (_collect_datasets_keyed tokenize_ex py_str_ex false json_float_ex
           [one_da] options_ex one_world E).
Defined.
